(** * Graph search visualiser: the search engine of [src/App.jsx]

    A shallow embedding of the class [GraphSearch] (adjacency construction,
    heuristic, snapshots, the shared BFS/DFS/Dijkstra/A* loop and the
    bidirectional BFS loop), of the presets, and of the path helpers of the
    [App] component ([getPath], the running cost), followed by the
    properties of the engine.

    Conventions of the embedding:
    - node ids, coordinates, weights, costs and priorities are JavaScript
      numbers holding integers; they are modelled by [Z];
    - a JavaScript [Set] of ids is a [gset Z], an object used as a map from
      ids is a [gmap Z _], arrays are lists (push is append at the end,
      shift removes the head, pop removes the last element);
    - a thrown [TypeError] (property access on [undefined]) is the result
      [Throw TypeError];
    - [while] loops are run on a fuel counter; running out of fuel is the
      separate result [None], and it is proved below that the engine never
      produces it;
    - [String.prototype.localeCompare] and [Math.floor (Math.hypot ..)]
      depend on the host (collation, floating point) and are parameters of
      the engine. *)

From Stdlib Require Import ZArith String List Lia.
From stdpp Require Import gmap strings list fin_maps fin_sets.

Local Open Scope Z_scope.

(** ** Constants *)

Definition MAX_ITERATIONS : Z := 1000.

(** ** Data model *)

Module Node.
Record t := mk { id : Z; x : Z; y : Z; label : string; h : option Z }.
End Node.

Module Edge.
Record t := mk { source : Z; target : Z; weight : Z }.
End Edge.

(** An entry [{ to, weight }] of an adjacency list. *)
Module Adj.
Record t := mk { to : Z; weight : Z }.
End Adj.

(** A frontier item of the shared loop. The seed item and the item pushed
    for the goal by BFS/DFS carry no [h] field. *)
Module Item.
Record t := mk { id : Z; cost : Z; priority : Z; h : option Z; pathLength : Z }.
End Item.

Inductive SearchType := BFS | DFS | Dijkstra | AStar | BiBFS.

(** [options.heuristicType]: the code only compares it with ['preset'] and
    ['zero']; every other value behaves as [Euclidean]. *)
Inductive HeuristicType := Euclidean | Preset | Zero.

Record Options := mkOptions { checkDuplicates : bool; heuristicType : HeuristicType }.

Inductive Side := SideStart | SideEnd.

(** Entries of a recorded queue: copies of frontier items in the shared
    loop, [{ id, side }] pairs in the bidirectional loop. *)
Inductive Entry :=
| EItem (it : Item.t)
| ESide (i : Z) (s : Side).

Inductive Status := exploring | found | failed | limit_reached.

Module Snapshot.
Record t := mk {
  queue : list Entry;
  visited : gset Z;
  parents : gmap Z Z;
  current : option Z;
  status : Status;
  activeSide : option Side;
  intersect : option Z
}.
End Snapshot.

Abbreviation History := (list Snapshot.t).

(** The constructor arguments of [GraphSearch], kept in [this]. *)
Record GraphSearch := mkGraphSearch {
  nodes : list Node.t;
  edges : list Edge.t;
  startId : Z;
  endId : Z;
  type : SearchType;
  options : Options
}.

(** ** Outcomes of effectful code *)

Inductive JsError := TypeError.

(** The result of straight-line code: a value or a thrown error. A loop
    run on fuel returns [option (result _)], [None] being "out of fuel". *)
Inductive result (A : Type) :=
| Ok (a : A)
| Throw (e : JsError).
Arguments Ok {A} a.
Arguments Throw {A} e.

(** What one pass through a loop body does: go on with a new state, return
    from the method with the history, or throw. *)
Inductive ctl (S : Type) :=
| Continue (s : S)
| Return (hist : History)
| Raise (e : JsError).
Arguments Continue {S} s.
Arguments Return {S} hist.
Arguments Raise {S} e.

Global Instance Status_eq_dec : EqDecision Status.
Proof. solve_decision. Defined.
Global Instance SearchType_eq_dec : EqDecision SearchType.
Proof. solve_decision. Defined.
Global Instance HeuristicType_eq_dec : EqDecision HeuristicType.
Proof. solve_decision. Defined.

(** ** Array helpers *)

(** [Array.prototype.sort] is stable; with the comparator [cmp a b <= 0]
    read as "a may stay before b" it yields the stable sorted arrangement,
    computed here by insertion from the right. *)
Fixpoint insert_sorted {A} (le : A → A → bool) (a : A) (l : list A) : list A :=
  match l with
  | [] => [a]
  | b :: l' => if le a b then a :: l else b :: insert_sorted le a l'
  end.

Definition stable_sort {A} (le : A → A → bool) (l : list A) : list A :=
  foldr (insert_sorted le) [] l.

(** [nodes.find(n => n.id === i)] *)
Definition find_node (ns : list Node.t) (i : Z) : option Node.t :=
  List.find (λ n, Node.id n =? i) ns.

(** [['Dijkstra', 'AStar'].includes(type)] *)
Definition is_priority (ty : SearchType) : bool :=
  match ty with Dijkstra | AStar => true | _ => false end.

(** [type === 'DFS'] *)
Definition is_dfs (ty : SearchType) : bool :=
  match ty with DFS => true | _ => false end.

(** [visited.has(i)] *)
Definition has (s : gset Z) (i : Z) : bool := bool_decide (i ∈ s).

(** ** The class [GraphSearch] *)

Section Engine.

(** [a.localeCompare(b)]: negative, zero or positive. *)
Variable localeCompare : string → string → Z.
(** [Math.floor(distance(a, b))] *)
Variable floorDistance : Node.t → Node.t → Z.

(** [adj[e.source].push(..)]: throws when the list is missing. *)
Definition adj_push (adj : gmap Z (list Adj.t)) (k : Z) (a : Adj.t)
  : result (gmap Z (list Adj.t)) :=
  match adj !! k with
  | Some l => Ok (<[k := l ++ [a]]> adj)
  | None => Throw TypeError
  end.

Fixpoint add_edges (es : list Edge.t) (adj : gmap Z (list Adj.t))
  : result (gmap Z (list Adj.t)) :=
  match es with
  | [] => Ok adj
  | e :: es' =>
      match adj_push adj (Edge.source e) (Adj.mk (Edge.target e) (Edge.weight e)) with
      | Ok adj1 =>
          match adj_push adj1 (Edge.target e) (Adj.mk (Edge.source e) (Edge.weight e)) with
          | Ok adj2 => add_edges es' adj2
          | Throw err => Throw err
          end
      | Throw err => Throw err
      end
  end.

Definition buildAdjacency (this : GraphSearch) : result (gmap Z (list Adj.t)) :=
  let adj := foldl (λ adj n, <[Node.id n := []]> adj) ∅ (nodes this) in
  add_edges (edges this) adj.

Definition getHeuristic (this : GraphSearch) (nodeId : Z) : result Z :=
  let node := find_node (nodes this) nodeId in
  let goal := find_node (nodes this) (endId this) in
  let euclidean :=
    match node, goal with
    | Some n, Some g => Ok (floorDistance n g)
    | _, _ => Throw TypeError
    end in
  match heuristicType (options this) with
  | Preset =>
      match node with
      | None => Throw TypeError
      | Some n =>
          match Node.h n with
          | Some hv => Ok hv
          | None => euclidean
          end
      end
  | Zero => Ok 0
  | Euclidean => euclidean
  end.

(** [snapshot(queue, visited, parents, current, status)], returning the
    extended history. *)
Definition snapshot (history : History) (queue : list Item.t) (visited : gset Z)
    (parents : gmap Z Z) (current : option Z) (status : Status) : History :=
  history ++ [Snapshot.mk (EItem <$> queue) visited parents current status None None].

(** The live state of [run]: its locals, and the fields [adj] (sorted in
    place by the loop) and [history]. *)
Record RunState := mkRunState {
  queue : list Item.t;
  visited : gset Z;
  parents : gmap Z Z;
  iterations : Z;
  adj : gmap Z (list Adj.t);
  history : History
}.

(** The neighbour list of [current], sorted in place by label and, for
    DFS, reversed in place. The comparator reads
    [nodes.find(..).label], which throws for an id without node; it is
    called as soon as there are two elements. *)
Definition sort_by_label (this : GraphSearch) (l : list Adj.t) : result (list Adj.t) :=
  if (length l <=? 1)%nat then Ok l
  else
    match mapM (λ e, (λ n, (Node.label n, e)) <$> find_node (nodes this) (Adj.to e)) l with
    | Some keyed =>
        Ok (snd <$> stable_sort (λ a b, localeCompare a.1 b.1 <=? 0) keyed)
    | None => Throw TypeError
    end.

Definition sorted_neighbors (this : GraphSearch) (adj : gmap Z (list Adj.t)) (i : Z)
  : result (list Adj.t * gmap Z (list Adj.t)) :=
  match adj !! i with
  | None => Ok ([], adj)
  | Some l =>
      match sort_by_label this l with
      | Ok sorted =>
          let neighbors := if is_dfs (type this) then reverse sorted else sorted in
          Ok (neighbors, <[i := neighbors]> adj)
      | Throw err => Throw err
      end
  end.

(** The [for (let edge of neighbors)] loop. *)
Fixpoint visit_neighbors (this : GraphSearch) (current : Item.t)
    (neighbors : list Adj.t) (st : RunState) : ctl RunState :=
  match neighbors with
  | [] => Continue st
  | edge :: rest =>
      let neighborId := Adj.to edge in
      let newCost := Item.cost current + Adj.weight edge in
      let newPathLength := Item.pathLength current + 1 in
      let inFrontier := existsb (λ item, Item.id item =? neighborId) (queue st) in
      let shouldSkip :=
        checkDuplicates (options this) && (has (visited st) neighborId || inFrontier) in
      if shouldSkip then visit_neighbors this current rest st
      else
        let parents' := <[neighborId := Item.id current]> (parents st) in
        if negb (is_priority (type this)) && (neighborId =? endId this) then
          let queue' := queue st ++ [Item.mk neighborId newCost 0 None newPathLength] in
          Return (snapshot (history st) queue' (visited st) parents' (Some neighborId) found)
        else
          match (if decide (type this = AStar) then getHeuristic this neighborId else Ok 0) with
          | Ok hValue =>
              let item := Item.mk neighborId newCost (newCost + hValue) (Some hValue) newPathLength in
              visit_neighbors this current rest
                (mkRunState (queue st ++ [item]) (visited st) parents'
                   (iterations st) (adj st) (history st))
          | Throw err => Raise err
          end
  end.

(** One pass through the body of [while (queue.length > 0)]. *)
Definition run_iteration (this : GraphSearch) (st : RunState) : ctl RunState :=
  let iterations' := iterations st + 1 in
  if iterations' >? MAX_ITERATIONS then
    Return (snapshot (history st) (queue st) (visited st) (parents st) None limit_reached)
  else
    let queue1 :=
      if is_priority (type this)
      then stable_sort (λ a b, Item.priority a - Item.priority b <=? 0) (queue st)
      else queue st in
    match (if is_dfs (type this) then last queue1 else head queue1) with
    | None => Raise TypeError
    | Some current =>
        let history1 :=
          snapshot (history st) queue1 (visited st) (parents st)
            (Some (Item.id current)) exploring in
        let queue2 := if is_dfs (type this) then removelast queue1 else tail queue1 in
        if checkDuplicates (options this) && has (visited st) (Item.id current) then
          Continue (mkRunState queue2 (visited st) (parents st) iterations' (adj st) history1)
        else
          let visited' := visited st ∪ {[Item.id current]} in
          if is_priority (type this) && (Item.id current =? endId this) then
            Return (snapshot history1 queue2 visited' (parents st) (Some (Item.id current)) found)
          else
            match sorted_neighbors this (adj st) (Item.id current) with
            | Ok (neighbors, adj') =>
                visit_neighbors this current neighbors
                  (mkRunState queue2 visited' (parents st) iterations' adj' history1)
            | Throw err => Raise err
            end
    end.

(** [while (queue.length > 0) { .. }] followed by the [failed]
    snapshot. *)
Fixpoint run_loop (this : GraphSearch) (fuel : nat) (st : RunState)
  : option (result History) :=
  match queue st with
  | [] => Some (Ok (snapshot (history st) (queue st) (visited st) (parents st) None failed))
  | _ :: _ =>
      match fuel with
      | O => None
      | S fuel' =>
          match run_iteration this st with
          | Continue st' => run_loop this fuel' st'
          | Return hist => Some (Ok hist)
          | Raise err => Some (Throw err)
          end
      end
  end.

(** *** Bidirectional BFS *)

Record BiState := mkBiState {
  qStart : list Z;
  qEnd : list Z;
  visitedStart : gset Z;
  visitedEnd : gset Z;
  parentStart : gmap Z Z;
  parentEnd : gmap Z Z;
  bi_iterations : Z;
  bi_history : History
}.

(** The object pushed on the history by [runBiBFS]. *)
Definition bi_snapshot (qS qE : list Z) (vS vE : gset Z) (pS pE : gmap Z Z)
    (current : Z) (side : Side) : Snapshot.t :=
  Snapshot.mk
    (((λ i, ESide i SideStart) <$> qS) ++ ((λ i, ESide i SideEnd) <$> qE))
    (vS ∪ vE)
    (pE ∪ pS)   (* [{...parentStart, ...parentEnd}]: the end side wins *)
    (Some current) exploring (Some side) None.

(** [last.status = 'found'; last.intersect = i] *)
Definition mark_found (i : Z) (s : Snapshot.t) : Snapshot.t :=
  Snapshot.mk (Snapshot.queue s) (Snapshot.visited s) (Snapshot.parents s)
    (Snapshot.current s) found (Snapshot.activeSide s) (Some i).

(** Assignment to fields of [history[history.length - 1]]. *)
Fixpoint amend_last (f : Snapshot.t → Snapshot.t) (hist : History) : History :=
  match hist with
  | [] => []
  | [s] => [f s]
  | s :: hist' => s :: amend_last f hist'
  end.

(** [(adj[curr] || []).forEach(edge => { if (!visited.has(edge.to)) .. })]
    on one side: its queue, visited set and parent map. *)
Definition expand_side (curr : Z) (l : list Adj.t)
    (side : list Z * gset Z * gmap Z Z) : list Z * gset Z * gmap Z Z :=
  foldl (λ '(q, v, p) edge,
           if has v (Adj.to edge) then (q, v, p)
           else (q ++ [Adj.to edge], v ∪ {[Adj.to edge]}, <[Adj.to edge := curr]> p))
        side l.

(** One pass through the body of
    [while (qStart.length > 0 && qEnd.length > 0)]. *)
Definition bibfs_iteration (adj : gmap Z (list Adj.t)) (st : BiState) : ctl BiState :=
  match qStart st, qEnd st with
  | currStart :: qS1, currEnd :: qE1 =>
      let hist1 := bi_history st ++
        [bi_snapshot qS1 (qEnd st) (visitedStart st) (visitedEnd st)
           (parentStart st) (parentEnd st) currStart SideStart] in
      if has (visitedEnd st) currStart then
        Return (amend_last (mark_found currStart) hist1)
      else
        let '(qS2, vS2, pS2) :=
          expand_side currStart (default [] (adj !! currStart))
            (qS1, visitedStart st, parentStart st) in
        let hist2 := hist1 ++
          [bi_snapshot qS2 qE1 vS2 (visitedEnd st) pS2 (parentEnd st) currEnd SideEnd] in
        if has vS2 currEnd then
          Return (amend_last (mark_found currEnd) hist2)
        else
          let '(qE2, vE2, pE2) :=
            expand_side currEnd (default [] (adj !! currEnd))
              (qE1, visitedEnd st, parentEnd st) in
          Continue (mkBiState qS2 qE2 vS2 vE2 pS2 pE2 (bi_iterations st + 1) hist2)
  | _, _ => Raise TypeError   (* not reached: the loop tests both queues first *)
  end.

(** The loop of [runBiBFS]; when a queue is empty the method ends and
    the history stays as it is. *)
Fixpoint bibfs_loop (adj : gmap Z (list Adj.t)) (fuel : nat) (st : BiState)
  : option (result History) :=
  match qStart st, qEnd st with
  | _ :: _, _ :: _ =>
      match fuel with
      | O => None
      | S fuel' =>
          match bibfs_iteration adj st with
          | Continue st' => bibfs_loop adj fuel' st'
          | Return hist => Some (Ok hist)
          | Raise err => Some (Throw err)
          end
      end
  | _, _ => Some (Ok (bi_history st))
  end.

(** The source loop has no iteration bound of its own; every pass removes
    a node from [qStart] and a node enters [qStart] at most once, so
    one pass per edge endpoint, plus one, is enough fuel (see
    [bibfs_loop_fuel]). *)
Definition bibfs_fuel (this : GraphSearch) : nat := S (2 * length (edges this)).

Definition runBiBFS (this : GraphSearch) (adj : gmap Z (list Adj.t))
  : option (result History) :=
  bibfs_loop adj (bibfs_fuel this)
    (mkBiState [startId this] [endId this] {[startId this]} {[endId this]} ∅ ∅ 0 []).

(** The shared loop runs at most [MAX_ITERATIONS + 1] times. *)
Definition run_fuel : nat := S (Z.to_nat MAX_ITERATIONS).

Definition run (this : GraphSearch) (adj : gmap Z (list Adj.t))
  : option (result History) :=
  if decide (type this = BiBFS) then runBiBFS this adj
  else
    let queue := [Item.mk (startId this) 0 0 None 0] in
    if startId this =? endId this then
      Some (Ok (snapshot [] queue ∅ ∅ (Some (startId this)) found))
    else
      run_loop this run_fuel (mkRunState queue ∅ ∅ 0 adj []).

(** [new GraphSearch(nodes, edges, startId, endId, type, options)]: the
    [history] field of the new object, or the error thrown. *)
Definition new_GraphSearch (this : GraphSearch) : option (result History) :=
  match buildAdjacency this with
  | Ok adj => run this adj
  | Throw err => Some (Throw err)
  end.

End Engine.

(** ** Path helpers of the [App] component *)

Record Graph := mkGraph {
  g_nodes : list Node.t;
  g_edges : list Edge.t;
  g_start : Z;
  g_end : Z
}.

(** The standard walk of [getPath]:
    [while (curr !== undefined && curr !== start) { path.push(curr); curr = parents[curr]; }] *)
Fixpoint walk_back (fuel : nat) (parents : gmap Z Z) (start : Z)
    (curr : option Z) (path : list Z) : option (list Z) :=
  match curr with
  | None => Some path
  | Some c =>
      if c =? start then Some path
      else
        match fuel with
        | O => None
        | S fuel' => walk_back fuel' parents start (parents !! c) (path ++ [c])
        end
  end.

(** The BiBFS walk of [getPath]:
    [while (curr !== start) { path.unshift(curr); curr = parents[curr]; if (!curr) break; }];
    [!curr] holds for [undefined] and for the id [0]. *)
Fixpoint walk_bibfs (fuel : nat) (parents : gmap Z Z) (start : Z)
    (curr : Z) (path : list Z) : option (list Z) :=
  if curr =? start then Some path
  else
    match fuel with
    | O => None
    | S fuel' =>
        match parents !! curr with
        | None => Some (curr :: path)
        | Some p =>
            if p =? 0 then Some (curr :: path)
            else walk_bibfs fuel' parents start p (curr :: path)
        end
    end.

Definition getPath (fuel : nat) (algoType : SearchType) (graph : Graph)
    (currentStep : Snapshot.t) : option (list Z) :=
  if decide (Snapshot.status currentStep = found) then
    match algoType, Snapshot.intersect currentStep with
    | BiBFS, Some i =>
        path ← walk_bibfs fuel (Snapshot.parents currentStep) (g_start graph) i [];
        Some (g_start graph :: path)
    | _, _ =>
        path ← walk_back fuel (Snapshot.parents currentStep) (g_start graph)
                 (Some (g_end graph)) [];
        Some (path ++ [g_start graph])
    end
  else Some [].

(** [graph.edges.find(e => (e.source === u && e.target === v) ||
                          (e.target === u && e.source === v))] *)
Definition find_edge (es : list Edge.t) (u v : Z) : option Edge.t :=
  List.find (λ e, ((Edge.source e =? u) && (Edge.target e =? v))
                  || ((Edge.target e =? u) && (Edge.source e =? v))) es.

(** The running cost of the [App] component:
    [currentCost += edge?.weight || 0] over consecutive nodes of the path. *)
Fixpoint currentCost (es : list Edge.t) (path : list Z) : Z :=
  match path with
  | u :: (v :: _) as rest =>
      match find_edge es u v with
      | Some e => Edge.weight e
      | None => 0
      end + currentCost es rest
  | _ => 0
  end.

(** ** Presets *)

Module PRESETS.

Definition nonAdmissible : Graph :=
  mkGraph
    [ Node.mk 0 50 300 "S" (Some 5);
      Node.mk 1 200 150 "A" (Some 1000);
      Node.mk 2 200 450 "B" (Some 0);
      Node.mk 3 400 300 "C" (Some 0);
      Node.mk 4 550 300 "G" (Some 0) ]
    [ Edge.mk 0 1 1;
      Edge.mk 0 2 2;
      Edge.mk 1 3 2;
      Edge.mk 2 3 100;
      Edge.mk 3 4 1 ]
    0 4.

Definition inconsistent : Graph :=
  mkGraph
    [ Node.mk 0 50 300 "S" (Some 10);
      Node.mk 1 200 150 "A" (Some 100);
      Node.mk 2 200 450 "B" (Some 0);
      Node.mk 3 400 300 "C" (Some 0);
      Node.mk 4 550 300 "G" (Some 0) ]
    [ Edge.mk 0 1 1;
      Edge.mk 0 2 1;
      Edge.mk 1 3 1;
      Edge.mk 2 3 10;
      Edge.mk 3 4 100 ]
    0 4.

End PRESETS.

(** ** A concrete host *)

(** Comparison of strings by code unit; it agrees with [localeCompare] on
    the single capital letters used as labels. *)
Definition codeUnitCompare (a b : string) : Z :=
  match String.compare a b with
  | Lt => -1
  | Eq => 0
  | Gt => 1
  end.

(** [Math.floor(Math.hypot(a.x - b.x, a.y - b.y))] on integer coordinates. *)
Definition intFloorDistance (a b : Node.t) : Z :=
  Z.sqrt ((Node.x a - Node.x b) ^ 2 + (Node.y a - Node.y b) ^ 2).

(** The call of [runAlgorithm]:
    [new GraphSearch(graph.nodes, graph.edges, graph.start, graph.end, algoType, options)]. *)
Definition search_args (graph : Graph) (algoType : SearchType) (opts : Options) : GraphSearch :=
  mkGraphSearch (g_nodes graph) (g_edges graph) (g_start graph) (g_end graph) algoType opts.

Definition statuses (hist : History) : list Status := Snapshot.status <$> hist.

(** ** Vocabulary of the statements *)

(** [shouldSkip] for the neighbour [edge] in the state [st]. *)
Definition skips (this : GraphSearch) (st : RunState) (edge : Adj.t) : bool :=
  checkDuplicates (options this) &&
  (has (visited st) (Adj.to edge) ||
   existsb (λ item, Item.id item =? Adj.to edge) (queue st)).

(** The frontier as the iteration sees it: sorted by priority for
    Dijkstra and A*. *)
Definition sorted_queue (this : GraphSearch) (st : RunState) : list Item.t :=
  if is_priority (type this)
  then stable_sort (λ a b, Item.priority a - Item.priority b <=? 0) (queue st)
  else queue st.

(** A status list of the form [exploring* terminal]. *)
Definition well_terminated (l : list Status) : Prop :=
  ∃ n t, l = replicate n exploring ++ [t] ∧ t ≠ exploring.

(** The number of snapshots taken at a pop. *)
Definition pops (hist : History) : nat :=
  length (filter (λ s, Snapshot.status s = exploring) hist).

(** The history of a finished construction; empty when it threw. *)
Definition history_of (r : option (result History)) : History :=
  match r with
  | Some (Ok hist) => hist
  | _ => []
  end.

(** Invariant of the shared loop: only [exploring] snapshots so far, one
    per pass. *)
Definition shape_inv (st : RunState) : Prop :=
  Forall (λ s, Snapshot.status s = exploring) (history st) ∧
  Z.of_nat (length (history st)) = iterations st ∧
  iterations st ≤ MAX_ITERATIONS.

(** What the loop returns: [exploring* terminal], at most [MAX_ITERATIONS]
    pops, and [limit_reached] only after that many. *)
Definition shape_post (r : result History) : Prop :=
  ∀ hist, r = Ok hist →
    ∃ pre t, hist = pre ++ [t] ∧
      Forall (λ s, Snapshot.status s = exploring) pre ∧
      Snapshot.status t ≠ exploring ∧
      Z.of_nat (length pre) ≤ MAX_ITERATIONS ∧
      (Snapshot.status t = limit_reached → Z.of_nat (length pre) = MAX_ITERATIONS).


(** The neighbour ids listed for [k] in an adjacency structure. *)
Definition targets (adj : gmap Z (list Adj.t)) (k : Z) : list Z :=
  Adj.to <$> default [] (adj !! k).

(** Every listed neighbour has a node. *)
Definition adj_closed (ns : list Node.t) (adj : gmap Z (list Adj.t)) : Prop :=
  ∀ k i, i ∈ targets adj k → is_Some (find_node ns i).

(** The adjacency is undirected. *)
Definition adj_symmetric (adj : gmap Z (list Adj.t)) : Prop :=
  ∀ a b, b ∈ targets adj a → a ∈ targets adj b.

(** The ids an edge list mentions. *)
Definition endpoints (es : list Edge.t) : list Z :=
  es ≫= λ e, [Edge.source e; Edge.target e].

(** The adjacency before any edge is added: an empty list per node. *)
Definition empty_adjacency (ns : list Node.t) : gmap Z (list Adj.t) :=
  foldl (λ adj n, <[Node.id n := []]> adj) ∅ ns.

(** Well-formed input, as a check: every edge mentions ids of nodes, and
    the goal has a node. *)
Definition has_node (ns : list Node.t) (i : Z) : bool :=
  match find_node ns i with
  | Some _ => true
  | None => false
  end.

Definition edges_wellformed (this : GraphSearch) : bool :=
  forallb (λ e, has_node (nodes this) (Edge.source e) &&
                has_node (nodes this) (Edge.target e)) (edges this).

Definition wellformed (this : GraphSearch) : bool :=
  edges_wellformed this && has_node (nodes this) (endId this).

(** ** Small graphs used as instances *)

Module Examples.

Definition node (i : Z) (l : string) : Node.t := Node.mk i 0 0 l None.

(** S - A, and a goal E that no edge reaches. *)
Definition ping_pong : Graph :=
  mkGraph [node 1 "S"; node 2 "A"; node 3 "E"] [Edge.mk 1 2 1] 1 3.

(** S and E without any edge. *)
Definition apart : Graph :=
  mkGraph [node 1 "S"; node 2 "E"] [] 1 2.

(** S - E with start and goal both S. *)
Definition same : Graph :=
  mkGraph [node 1 "S"; node 2 "E"] [Edge.mk 1 2 1] 1 1.

(** The path S - A - B - E. *)
Definition path4 : Graph :=
  mkGraph [node 1 "S"; node 2 "A"; node 3 "B"; node 4 "E"]
    [Edge.mk 1 2 1; Edge.mk 2 3 1; Edge.mk 3 4 1] 1 4.

(** S - E, searched from an id that is not a node. *)
Definition no_start : Graph :=
  mkGraph [node 1 "S"; node 2 "E"] [Edge.mk 1 2 1] 5 2.

(** An edge to the id 7, which is not a node. *)
Definition dangling : Graph :=
  mkGraph [node 1 "S"; node 2 "E"] [Edge.mk 1 7 1] 1 2.

(** A node without [h] at (0,0), the goal at (3,4). *)
Definition no_h : Graph :=
  mkGraph [Node.mk 1 0 0 "S" None; Node.mk 2 3 4 "G" (Some 0)] [Edge.mk 1 2 5] 1 2.

(** The constructor call on a graph, with the concrete host. *)
Definition search (graph : Graph) (algoType : SearchType) (opts : Options)
  : option (result History) :=
  new_GraphSearch codeUnitCompare intFloorDistance (search_args graph algoType opts).

End Examples.

(** No item of a recorded queue is the goal. *)
Definition goal_free (goal : Z) (q : list Entry) : Prop :=
  ∀ it, EItem it ∈ q → Item.id it ≠ goal.

(** A snapshot taken at a pop that does not remove the goal. *)
Definition plain_pop (goal : Z) (s : Snapshot.t) : Prop :=
  Snapshot.status s = exploring ∧ Snapshot.current s ≠ Some goal.

(** Invariant of the Dijkstra/A* loop: the goal is not visited and was
    never popped. *)
Definition pop_test_inv (this : GraphSearch) (st : RunState) : Prop :=
  (endId this ∉ visited st) ∧ Forall (plain_pop (endId this)) (history st).

(** A Dijkstra/A* history: pops of other nodes, then either a terminal
    snapshot other than [found], or the pop of the goal and [found]. *)
Definition pop_test_post (this : GraphSearch) (r : result History) : Prop :=
  ∀ hist, r = Ok hist →
    ∃ pre tl, hist = pre ++ tl ∧ Forall (plain_pop (endId this)) pre ∧
      ((∃ t, tl = [t] ∧ Snapshot.status t ≠ exploring ∧ Snapshot.status t ≠ found) ∨
       (∃ s t, tl = [s; t] ∧
          Snapshot.status s = exploring ∧ Snapshot.current s = Some (endId this) ∧
          Snapshot.status t = found ∧ Snapshot.current t = Some (endId this) ∧
          ∃ it, Item.id it = endId this ∧
                Snapshot.queue s = EItem it :: Snapshot.queue t)).

(** A snapshot taken at a pop, the goal not being in the frontier. *)
Definition goal_free_pop (goal : Z) (s : Snapshot.t) : Prop :=
  Snapshot.status s = exploring ∧ goal_free goal (Snapshot.queue s).

(** Invariant of the BFS/DFS loop: the goal was never in the frontier. *)
Definition push_test_inv (this : GraphSearch) (st : RunState) : Prop :=
  Forall (λ it, Item.id it ≠ endId this) (queue st) ∧
  Forall (goal_free_pop (endId this)) (history st).

(** A BFS/DFS history: pops with a goal-free frontier, then either a
    terminal snapshot other than [found], still goal-free, or the [found]
    snapshot whose frontier ends with the goal just pushed. *)
Definition push_test_post (this : GraphSearch) (r : result History) : Prop :=
  ∀ hist, r = Ok hist →
    ∃ pre t, hist = pre ++ [t] ∧ Forall (goal_free_pop (endId this)) pre ∧
      ((Snapshot.status t ≠ exploring ∧ Snapshot.status t ≠ found ∧
        goal_free (endId this) (Snapshot.queue t)) ∨
       (Snapshot.status t = found ∧ Snapshot.current t = Some (endId this) ∧
        ∃ q it, Snapshot.queue t = q ++ [EItem it] ∧ Item.id it = endId this ∧
                goal_free (endId this) q)).

(** Every parent recorded in [par] is visited and is the current node of
    a pop snapshot of [hist]. *)
Definition values_ok (vis : gset Z) (hist : History) (par : gmap Z Z) : Prop :=
  ∀ k v, par !! k = Some v →
    v ∈ vis ∧
    ∃ s, s ∈ hist ∧ Snapshot.current s = Some v ∧ Snapshot.status s = exploring.

(** A snapshot whose parents are all popped in the snapshots before it;
    under [guard] the start has no parent. *)
Definition snap_ok (guard : Prop) (start : Z) (before : History) (s : Snapshot.t) : Prop :=
  (guard → Snapshot.parents s !! start = None) ∧
  values_ok (Snapshot.visited s) before (Snapshot.parents s).

Definition hist_ok (guard : Prop) (start : Z) (hist : History) : Prop :=
  ∀ i s, hist !! i = Some s → snap_ok guard start (take i hist) s.

(** Invariant of the shared loop for the parents. With duplicate
    suppression the start is visited, or is the only item of the frontier. *)
Definition parents_inv (this : GraphSearch) (st : RunState) : Prop :=
  hist_ok (checkDuplicates (options this) = true) (startId this) (history st) ∧
  values_ok (visited st) (history st) (parents st) ∧
  (checkDuplicates (options this) = true →
   parents st !! startId this = None ∧
   (startId this ∈ visited st ∨ ∃ it, queue st = [it] ∧ Item.id it = startId this)).

Definition parents_post (this : GraphSearch) (r : result History) : Prop :=
  ∀ hist, r = Ok hist →
    hist_ok (checkDuplicates (options this) = true) (startId this) hist.

(** The ids the start side of a bidirectional run can ever visit. *)
Definition universe (this : GraphSearch) : gset Z :=
  {[startId this]} ∪ list_to_set (endpoints (edges this)).

(** What the start side still has to do: the nodes queued, and the nodes
    not yet visited. Each pass of the loop lowers it by one. *)
Definition potential (this : GraphSearch) (st : BiState) : nat :=
  (length (qStart st) + size (universe this ∖ visitedStart st))%nat.

(** [reaches p root x n]: following the parent map [p] from [x] leads to
    [root] in [n] steps. *)
Inductive reaches (p : gmap Z Z) (root : Z) : Z → nat → Prop :=
| reaches_root : reaches p root root 0
| reaches_step x y n :
    p !! x = Some y → reaches p root y n → reaches p root x (S n).

(** Invariant of one side of the bidirectional loop, with its root (the
    start or the goal): the queue holds visited nodes, each once; the
    parent map is defined on the visited nodes other than the root; every
    parent has left the queue and leads to the root; the neighbours of a
    node that has left the queue are visited. *)
Definition side_inv (adj : gmap Z (list Adj.t)) (root : Z)
    (q : list Z) (v : gset Z) (p : gmap Z Z) : Prop :=
  NoDup q ∧
  (∀ x, x ∈ q → x ∈ v) ∧
  root ∈ v ∧
  (∀ k, is_Some (p !! k) ↔ k ∈ v ∧ k ≠ root) ∧
  (∀ k x, p !! k = Some x → x ∈ v ∧ (x ∉ q) ∧ ∃ n, reaches p root x n) ∧
  (∀ y, y ∈ v → y ∉ q → ∀ n, n ∈ targets adj y → n ∈ v).

(** A node that has left the queue of one side is not visited by the
    other side. *)
Definition sides_apart (q : list Z) (v other : gset Z) : Prop :=
  ∀ y, y ∈ v → y ∉ q → y ∉ other.

(** Invariant of the two sides together. *)
Definition sides_inv (adj : gmap Z (list Adj.t)) (rootA rootB : Z)
    (qA : list Z) (vA : gset Z) (pA : gmap Z Z)
    (qB : list Z) (vB : gset Z) (pB : gmap Z Z) : Prop :=
  side_inv adj rootA qA vA pA ∧ side_inv adj rootB qB vB pB ∧
  sides_apart qA vA vB ∧ sides_apart qB vB vA.

(** Consecutive nodes [u, v] of [l] are linked by the parent map:
    [u] is the parent of [v]. *)
Definition linked (m : gmap Z Z) (l : list Z) : Prop :=
  ∀ j u v, l !! j = Some u → l !! S j = Some v → m !! v = Some u.

(** The [found] snapshot of a bidirectional run: the intersection node is
    recorded, and the walk of [getPath] from it ends. *)
Definition bi_found_ok (start : Z) (s : Snapshot.t) : Prop :=
  Snapshot.status s = found ∧
  ∃ i, Snapshot.intersect s = Some i ∧ Snapshot.current s = Some i ∧
       i ∈ Snapshot.visited s ∧
       ∃ fuel, ∀ path, is_Some (walk_bibfs fuel (Snapshot.parents s) start i path).

(** Invariant of the bidirectional loop. *)
Definition bi_inv (adj : gmap Z (list Adj.t)) (this : GraphSearch) (st : BiState) : Prop :=
  sides_inv adj (startId this) (endId this)
    (qStart st) (visitedStart st) (parentStart st)
    (qEnd st) (visitedEnd st) (parentEnd st) ∧
  (startId this ∉ qStart st ∨
   (qStart st = [startId this] ∧ visitedEnd st = {[endId this]})) ∧
  hist_ok True (startId this) (bi_history st) ∧
  Forall (λ s, Snapshot.status s = exploring) (bi_history st) ∧
  (∀ k x, (parentEnd st ∪ parentStart st) !! k = Some x →
          ∃ s, s ∈ bi_history st ∧ Snapshot.current s = Some x ∧
               Snapshot.status s = exploring).

(** A bidirectional history: pops, and possibly one [found] snapshot at
    the end. *)
Definition bi_post (this : GraphSearch) (r : result History) : Prop :=
  ∀ hist, r = Ok hist →
    hist_ok True (startId this) hist ∧
    ∃ pre, Forall (λ s, Snapshot.status s = exploring) pre ∧
           (hist = pre ∨ ∃ t, hist = pre ++ [t] ∧ bi_found_ok (startId this) t).

(** The graph a search was constructed on. *)
Definition graph_of (this : GraphSearch) : Graph :=
  mkGraph (nodes this) (edges this) (startId this) (endId this).

(** ** Vocabulary for the graph and its paths *)

(** The edge [e] joins [a] and [b], in either direction. *)
Definition joins (e : Edge.t) (a b : Z) : Prop :=
  (Edge.source e = a ∧ Edge.target e = b) ∨ (Edge.source e = b ∧ Edge.target e = a).

(** Some edge of the list joins [a] and [b]. *)
Definition adjacent (es : list Edge.t) (a b : Z) : Prop :=
  ∃ e, e ∈ es ∧ joins e a b.

(** [b] can be reached from [a] along edges. *)
Definition connected (es : list Edge.t) : Z → Z → Prop := rtc (adjacent es).

(** The adjacency list of [k], empty when there is none ([adj[k] || []]). *)
Definition neighbors_of (adj : gmap Z (list Adj.t)) (k : Z) : list Adj.t :=
  default [] (adj !! k).

(** The status of the last snapshot. *)
Definition final_status (hist : History) : option Status :=
  Snapshot.status <$> last hist.

(** The node ids of a frontier. *)
Definition queue_ids (q : list Item.t) : list Z := Item.id <$> q.

(** Invariant of the shared loop for reachability: what is queued or
    visited can be reached from the start; the start is queued or visited;
    the neighbours of a visited node are queued or visited; the goal is not
    visited, and BFS/DFS never queue it. [adj0] is the adjacency as built;
    the loop only permutes its lists. *)
Definition reach_inv (this : GraphSearch) (adj0 : gmap Z (list Adj.t))
    (st : RunState) : Prop :=
  (∀ i, i ∈ queue_ids (queue st) → connected (edges this) (startId this) i) ∧
  (∀ v, v ∈ visited st → connected (edges this) (startId this) v) ∧
  (startId this ∈ visited st ∨ startId this ∈ queue_ids (queue st)) ∧
  (∀ u w, u ∈ visited st → adjacent (edges this) u w →
          w ∈ visited st ∨ w ∈ queue_ids (queue st)) ∧
  (∀ k, targets (adj st) k ≡ₚ targets adj0 k) ∧
  (endId this ∉ visited st) ∧
  (is_priority (type this) = false → endId this ∉ queue_ids (queue st)).

Definition reach_post (this : GraphSearch) (r : result History) : Prop :=
  ∀ hist, r = Ok hist →
    (final_status hist = Some found →
     connected (edges this) (startId this) (endId this)) ∧
    (final_status hist = Some failed →
     ¬ connected (edges this) (startId this) (endId this)).

(** The node ids of a recorded frontier. *)
Definition entry_ids (q : list Entry) : list Z :=
  (λ e, match e with EItem it => Item.id it | ESide i _ => i end) <$> q.

(** A recorded frontier without repeated node and without visited node. *)
Definition frontier_ok (s : Snapshot.t) : Prop :=
  NoDup (entry_ids (Snapshot.queue s)) ∧
  ∀ i, i ∈ entry_ids (Snapshot.queue s) → i ∉ Snapshot.visited s.

(** The nodes popped in a history, in order: the current nodes of its pop
    snapshots. *)
Definition pop_currents (hist : History) : list Z :=
  omap Snapshot.current (filter (λ s, Snapshot.status s = exploring) hist).

(** What the search tree of a state consists of: the nodes with a parent
    are the visited and the queued ones other than the start; a parent is
    visited, joined to its child by an edge, and leads to the start; the
    path length of a queued item is the length of its chain of parents. *)
Definition tree_core (this : GraphSearch) (q : list Item.t) (V : gset Z)
    (p : gmap Z Z) : Prop :=
  (∀ k, is_Some (p !! k) ↔ (k ∈ V ∨ k ∈ queue_ids q) ∧ k ≠ startId this) ∧
  (startId this ∈ V ∨ startId this ∈ queue_ids q) ∧
  (∀ k v, p !! k = Some v →
          v ∈ V ∧ adjacent (edges this) v k ∧ ∃ n, reaches p (startId this) v n) ∧
  (∀ it, it ∈ q →
         0 ≤ Item.pathLength it ∧
         reaches p (startId this) (Item.id it) (Z.to_nat (Item.pathLength it))).

(** The FIFO frontier is ordered by path length. *)
Definition by_level (q : list Item.t) : Prop :=
  ∀ i j a b, (i ≤ j)%nat → q !! i = Some a → q !! j = Some b →
             Item.pathLength a ≤ Item.pathLength b.

(** Levels of a breadth-first search at the head of the loop: the
    frontier is ordered by path length and spans at most two consecutive
    lengths; no visited node lies deeper than a queued one; a neighbour
    of a visited node lies at most one level deeper than it. *)
Definition level_inv (this : GraphSearch) (q : list Item.t) (V : gset Z)
    (p : gmap Z Z) : Prop :=
  by_level q ∧
  (∀ a b, a ∈ q → b ∈ q → Item.pathLength b ≤ Item.pathLength a + 1) ∧
  (∀ v n it, v ∈ V → reaches p (startId this) v n → it ∈ q →
             Z.of_nat n ≤ Item.pathLength it) ∧
  (∀ u w m, u ∈ V → adjacent (edges this) u w → reaches p (startId this) u m →
            ∃ n, reaches p (startId this) w n ∧ (n ≤ S m)%nat).

(** The same while the neighbours of [cur] are being pushed. *)
Definition level_mid (this : GraphSearch) (cur : Item.t) (q : list Item.t)
    (V : gset Z) (p : gmap Z Z) : Prop :=
  by_level q ∧
  (∀ it, it ∈ q →
         Item.pathLength cur ≤ Item.pathLength it ≤ Item.pathLength cur + 1) ∧
  (∀ v n, v ∈ V → reaches p (startId this) v n → Z.of_nat n ≤ Item.pathLength cur) ∧
  (∀ u w m, u ∈ V → u ≠ Item.id cur → adjacent (edges this) u w →
            reaches p (startId this) u m →
            ∃ n, reaches p (startId this) w n ∧ (n ≤ S m)%nat).

(** Invariant of the shared loop under duplicate suppression: the frontier
    holds distinct unvisited nodes; exactly the visited and the queued
    nodes other than the start have a parent; a parent is visited, is
    joined to its child by an edge and leads to the start; the recorded
    path length of a queued item is the length of its chain of parents;
    the popped nodes are the visited ones, each popped once; for BFS the
    levels are in order. *)
Definition tree_inv (this : GraphSearch) (adj0 : gmap Z (list Adj.t))
    (st : RunState) : Prop :=
  NoDup (queue_ids (queue st)) ∧
  (∀ i, i ∈ queue_ids (queue st) → i ∉ visited st) ∧
  (∀ k, is_Some (parents st !! k) ↔
        (k ∈ visited st ∨ k ∈ queue_ids (queue st)) ∧ k ≠ startId this) ∧
  (startId this ∈ visited st ∨ startId this ∈ queue_ids (queue st)) ∧
  (∀ k v, parents st !! k = Some v →
          v ∈ visited st ∧ adjacent (edges this) v k ∧
          ∃ n, reaches (parents st) (startId this) v n) ∧
  (∀ k, targets (adj st) k ≡ₚ targets adj0 k) ∧
  (∀ it, it ∈ queue st →
         0 ≤ Item.pathLength it ∧
         reaches (parents st) (startId this) (Item.id it)
           (Z.to_nat (Item.pathLength it))) ∧
  Forall frontier_ok (history st) ∧
  Forall (λ s, Snapshot.status s = exploring) (history st) ∧
  NoDup (pop_currents (history st)) ∧
  (∀ c, c ∈ pop_currents (history st) ↔ c ∈ visited st) ∧
  length (pop_currents (history st)) = length (history st) ∧
  (type this = BFS → level_inv this (queue st) (visited st) (parents st)).

(** The [found] snapshot of such a run: the start has no parent; the goal leads to the start
    through the recorded parents, in as many steps as the path length of
    its item says, and every parent link is an edge; for BFS no walk
    from the start to the goal is shorter. *)
Definition tree_found_ok (this : GraphSearch) (s : Snapshot.t) : Prop :=
  Snapshot.parents s !! startId this = None ∧
  (∀ k v, Snapshot.parents s !! k = Some v → adjacent (edges this) v k) ∧
  ∃ n, reaches (Snapshot.parents s) (startId this) (endId this) n ∧
       (is_priority (type this) = false →
        ∃ q it, Snapshot.queue s = q ++ [EItem it] ∧ Item.id it = endId this ∧
                Item.pathLength it = Z.of_nat n) ∧
       (type this = BFS →
        ∀ k, nsteps (adjacent (edges this)) k (startId this) (endId this) →
             (n ≤ k)%nat).

Definition tree_post (this : GraphSearch) (r : result History) : Prop :=
  ∀ hist, r = Ok hist →
    Forall frontier_ok hist ∧
    NoDup (pop_currents hist) ∧
    length (pop_currents hist) = pops hist ∧
    (∀ c, c ∈ pop_currents hist → c ∈ universe this) ∧
    (∀ s, last hist = Some s → Snapshot.status s = found → tree_found_ok this s).

(** ** The oracle [getGroundTruth] *)

(** A metric of the oracle: a number or [Infinity]. *)
Inductive metric := Finite (z : Z) | Infinity.

(** The loop of [getMetrics]:
    [while (curr !== startId) { let p = parents[curr]; if (p === undefined) return Infinity;
       if (isWeighted) { const edge = edges.find(..); cost += edge.weight; } count++; curr = p; }],
    where [edge.weight] throws when no edge joins [p] and [curr]. *)
Fixpoint metrics_walk (fuel : nat) (es : list Edge.t) (parents : gmap Z Z)
    (startId : Z) (isWeighted : bool) (curr count cost : Z)
  : option (result metric) :=
  if curr =? startId then Some (Ok (Finite (if isWeighted then cost else count)))
  else
    match fuel with
    | O => None
    | S fuel' =>
        match parents !! curr with
        | None => Some (Ok Infinity)
        | Some p =>
            if isWeighted then
              match find_edge es p curr with
              | Some edge =>
                  metrics_walk fuel' es parents startId isWeighted p (count + 1)
                    (cost + Edge.weight edge)
              | None => Some (Throw TypeError)
              end
            else metrics_walk fuel' es parents startId isWeighted p (count + 1) cost
        end
    end.

Definition getMetrics (fuel : nat) (es : list Edge.t) (startId endId : Z)
    (parents : option (gmap Z Z)) (isWeighted : bool) : option (result metric) :=
  match parents with
  | None => Some (Ok Infinity)
  | Some p => metrics_walk fuel es p startId isWeighted endId 0 0
  end.

(** [history.find(h => h.status === 'found')] *)
Definition find_found (hist : History) : option Snapshot.t :=
  List.find (λ h, bool_decide (Snapshot.status h = found)) hist.

Section Oracle.
Variable localeCompare : string → string → Z.
Variable floorDistance : Node.t → Node.t → Z.

(** [getGroundTruth(nodes, edges, startId, endId)]: the pair
    [(trueMinEdges, trueMinCost)]. Both searches get the options
    [{ checkDuplicates: true }]; without [heuristicType] the heuristic
    would be the Euclidean one. *)
Definition getGroundTruth (fuel : nat) (ns : list Node.t) (es : list Edge.t)
    (startId endId : Z) : option (result (metric * metric)) :=
  match new_GraphSearch localeCompare floorDistance
          (mkGraphSearch ns es startId endId BFS (mkOptions true Euclidean)) with
  | None => None
  | Some (Throw err) => Some (Throw err)
  | Some (Ok bfs) =>
      let minEdges := Snapshot.parents <$> find_found bfs in
      match new_GraphSearch localeCompare floorDistance
              (mkGraphSearch ns es startId endId Dijkstra (mkOptions true Euclidean)) with
      | None => None
      | Some (Throw err) => Some (Throw err)
      | Some (Ok dijkstra) =>
          let minCostSnap := find_found dijkstra in
          match getMetrics fuel es startId endId minEdges false with
          | None => None
          | Some (Throw err) => Some (Throw err)
          | Some (Ok trueMinEdges) =>
              match getMetrics fuel es startId endId
                      (Snapshot.parents <$> minCostSnap) true with
              | None => None
              | Some (Throw err) => Some (Throw err)
              | Some (Ok trueMinCost) => Some (Ok (trueMinEdges, trueMinCost))
              end
          end
      end
  end.

End Oracle.

(** A walk along edges with its number of steps and the sum of the weights
    of its edges. *)
Inductive walk (es : list Edge.t) (a : Z) : Z → nat → Z → Prop :=
| walk_here : walk es a a 0 0
| walk_step b c n cost e :
    walk es a b n cost → e ∈ es → joins e b c →
    walk es a c (S n) (cost + Edge.weight e).

(** ** The trace of the current node *)

(** The loop of [getCurrentTrace]:
    [while (curr !== undefined && curr !== graph.start) { trace.push(curr);
       curr = currentStep.parents[curr]; if (trace.length > graph.nodes.length) break; }] *)
Fixpoint trace_walk (fuel : nat) (parents : gmap Z Z) (start : Z) (nodes_length : nat)
    (curr : option Z) (trace : list Z) : option (list Z) :=
  match curr with
  | None => Some trace
  | Some c =>
      if c =? start then Some trace
      else
        match fuel with
        | O => None
        | S fuel' =>
            let trace' := trace ++ [c] in
            if (nodes_length <? length trace')%nat then Some trace'
            else trace_walk fuel' parents start nodes_length (parents !! c) trace'
        end
  end.

(** [getCurrentTrace()]; [!currentStep.current] holds when there is no
    current node and when its id is [0]. *)
Definition getCurrentTrace (fuel : nat) (graph : Graph) (currentStep : Snapshot.t)
  : option (list Z) :=
  match Snapshot.current currentStep with
  | None => Some []
  | Some c =>
      if c =? 0 then Some []
      else
        trace ← trace_walk fuel (Snapshot.parents currentStep) (g_start graph)
                  (length (g_nodes graph)) (Some c) [];
        Some (trace ++ [g_start graph])
  end.

(** ** Further instances *)

(** S - A - B - G with unit weights and the direct edge S - B of weight 5. *)
Definition detour : Graph :=
  mkGraph [Examples.node 1 "S"; Examples.node 2 "A"; Examples.node 3 "B";
           Examples.node 4 "G"]
    [Edge.mk 1 2 1; Edge.mk 1 3 5; Edge.mk 2 3 1; Edge.mk 3 4 1] 1 4.

(** ** Reachability in the bidirectional loop *)

(** Each side has visited only what can be reached from its root, and the
    loop is entered before anything is recorded. *)
Definition bi_reach (this : GraphSearch) (st : BiState) : Prop :=
  (∀ x, x ∈ visitedStart st → connected (edges this) (startId this) x) ∧
  (∀ x, x ∈ visitedEnd st → connected (edges this) (endId this) x) ∧
  (bi_history st = [] → qStart st ≠ [] ∧ qEnd st ≠ []).

(** A bidirectional history tells whether the goal can be reached: it ends
    [found] when it can, and [exploring] when it cannot. *)
Definition bi_decides (this : GraphSearch) (r : result History) : Prop :=
  ∀ hist, r = Ok hist →
    (final_status hist = Some found ∧
     connected (edges this) (startId this) (endId this)) ∨
    (final_status hist = Some exploring ∧
     ¬ connected (edges this) (startId this) (endId this)).

(** ** The optimality indicators of the [App] component *)

(** [currentPath.length > 0 ? currentPath.length - 1 : Infinity] *)
Definition currentEdges (path : list Z) : metric :=
  if (0 <? length path)%nat then Finite (Z.of_nat (length path) - 1) else Infinity.

(** [a <= b] on numbers that may be [Infinity]. *)
Definition metric_le (a b : metric) : bool :=
  match a, b with
  | Finite x, Finite y => x <=? y
  | Finite _, Infinity => true
  | Infinity, Finite _ => false
  | Infinity, Infinity => true
  end.

(** The answers shown for "Shortest Path (Edges)?" and "Least Cost
    (Weights)?": [None] stands for ['N/A']. *)
Definition shortest_edges_shown (currentStep : Snapshot.t)
    (path : list Z) (trueMinEdges : metric) : option bool :=
  if decide (Snapshot.status currentStep = found)
  then Some (metric_le (currentEdges path) trueMinEdges)
  else None.

Definition least_cost_shown (graph : Graph) (currentStep : Snapshot.t)
    (path : list Z) (trueMinCost : metric) : option bool :=
  if decide (Snapshot.status currentStep = found)
  then Some (metric_le (Finite (currentCost (g_edges graph) path)) trueMinCost)
  else None.
(** * Properties *)

(** ** Arrays *)

Lemma insert_sorted_perm {A} (le : A → A → bool) a l :
  insert_sorted le a l ≡ₚ a :: l.
Proof.
  induction l as [|b l IH]; simpl; [done|].
  destruct (le a b); [done|].
  rewrite IH. apply Permutation_swap.
Qed.

Lemma stable_sort_perm {A} (le : A → A → bool) l : stable_sort le l ≡ₚ l.
Proof.
  induction l as [|a l IH]; simpl; [done|].
  unfold stable_sort in *. simpl. rewrite insert_sorted_perm. by f_equiv.
Qed.

Lemma amend_last_snoc f hist s : amend_last f (hist ++ [s]) = hist ++ [f s].
Proof.
  induction hist as [|s' hist IH]; simpl; [done|].
  rewrite IH. destruct hist; done.
Qed.

(** Selecting the head and removing it, for both disciplines. *)
Lemma pick_pop (dfs : bool) (q : list Item.t) c :
  (if dfs then last q else head q) = Some c →
  q ≡ₚ c :: (if dfs then removelast q else tail q).
Proof.
  destruct dfs; intros Hc.
  - apply last_Some in Hc as [q' ->].
    rewrite removelast_last. by rewrite Permutation_app_comm.
  - destruct q; simplify_eq/=; done.
Qed.

Lemma pick_nonempty (dfs : bool) (q : list Item.t) :
  q ≠ [] → is_Some (if dfs then last q else head q).
Proof.
  intros Hq. destruct dfs.
  - destruct (last q) eqn:E; [eauto|]. by apply last_None in E.
  - destruct q; [done|]. simpl; eauto.
Qed.

(** ** Proof rules for the shared loop *)

Section RunLoop.
Context (lc : string → string → Z) (fd : Node.t → Node.t → Z) (this : GraphSearch).

(** An invariant travels through the neighbour loop; a [found] return
    comes from pushing the goal, a throw from the heuristic. *)
Lemma visit_neighbors_rule (P : RunState → Prop) cur nb st :
  P st →
  (∀ st1 edge hValue,
      P st1 → edge ∈ nb → skips this st1 edge = false →
      (is_priority (type this) = true ∨ Adj.to edge ≠ endId this) →
      (if decide (type this = AStar) then getHeuristic fd this (Adj.to edge) else Ok 0)
        = Ok hValue →
      P (mkRunState
           (queue st1 ++ [Item.mk (Adj.to edge) (Item.cost cur + Adj.weight edge)
                            (Item.cost cur + Adj.weight edge + hValue) (Some hValue)
                            (Item.pathLength cur + 1)])
           (visited st1) (<[Adj.to edge := Item.id cur]> (parents st1))
           (iterations st1) (adj st1) (history st1))) →
  match visit_neighbors fd this cur nb st with
  | Continue st' => P st'
  | Return hist =>
      ∃ st1 edge,
        P st1 ∧ edge ∈ nb ∧ skips this st1 edge = false ∧
        is_priority (type this) = false ∧ Adj.to edge = endId this ∧
        hist = snapshot (history st1)
                 (queue st1 ++ [Item.mk (endId this) (Item.cost cur + Adj.weight edge) 0 None
                                  (Item.pathLength cur + 1)])
                 (visited st1) (<[endId this := Item.id cur]> (parents st1))
                 (Some (endId this)) found
  | Raise err =>
      ∃ st1 edge,
        P st1 ∧ edge ∈ nb ∧ type this = AStar ∧
        getHeuristic fd this (Adj.to edge) = Throw err
  end.
Proof.
  revert st. induction nb as [|edge nb IH]; intros st HP Hstep; simpl; [done|].
  assert (Hweak : ∀ st', P st' →
    match visit_neighbors fd this cur nb st' with
    | Continue st'' => P st''
    | Return hist =>
        ∃ st1 edge0,
          P st1 ∧ edge0 ∈ edge :: nb ∧ skips this st1 edge0 = false ∧
          is_priority (type this) = false ∧ Adj.to edge0 = endId this ∧
          hist = snapshot (history st1)
                   (queue st1 ++ [Item.mk (endId this) (Item.cost cur + Adj.weight edge0) 0 None
                                    (Item.pathLength cur + 1)])
                   (visited st1) (<[endId this := Item.id cur]> (parents st1))
                   (Some (endId this)) found
    | Raise err =>
        ∃ st1 edge0,
          P st1 ∧ edge0 ∈ edge :: nb ∧ type this = AStar ∧
          getHeuristic fd this (Adj.to edge0) = Throw err
    end).
  { intros st' HP'. specialize (IH st' HP').
    destruct (visit_neighbors fd this cur nb st').
    - apply IH. intros. apply Hstep; auto. by right.
    - destruct IH as (st1 & e0 & ? & ? & ?).
      { intros. apply Hstep; auto. by right. }
      exists st1, e0. split; [done|]. split; [by right|done].
    - destruct IH as (st1 & e0 & ? & ? & ?).
      { intros. apply Hstep; auto. by right. }
      exists st1, e0. split; [done|]. split; [by right|done]. }
  fold (skips this st edge).
  destruct (skips this st edge) eqn:Hskip; [by apply Hweak|].
  destruct (is_priority (type this)) eqn:Hpq; simpl.
  - destruct (if decide (type this = AStar) then _ else _) as [hValue|err] eqn:Hh.
    + apply Hweak. apply Hstep; auto. by left.
    + destruct (decide (type this = AStar)); [|done].
      exists st, edge. split; [done|]. split; [by left|done].
  - destruct (Adj.to edge =? endId this) eqn:Hend.
    + apply Z.eqb_eq in Hend. exists st, edge.
      split; [done|]. split; [by left|]. rewrite Hend. done.
    + apply Z.eqb_neq in Hend.
      destruct (if decide (type this = AStar) then _ else _) as [hValue|err] eqn:Hh.
      * apply Hweak. apply Hstep; auto. by left.
      * destruct (decide (type this = AStar)); [|done].
        exists st, edge. split; [done|]. split; [by left|done].
Qed.

(** The ways through one pass of the loop body. *)
Lemma run_iteration_cases st :
  queue st ≠ [] →
  let queue1 := sorted_queue this st in
  (MAX_ITERATIONS < iterations st + 1 ∧
   run_iteration lc fd this st =
     Return (snapshot (history st) (queue st) (visited st) (parents st) None limit_reached))
  ∨
  (iterations st + 1 ≤ MAX_ITERATIONS ∧
   ∃ current,
     (if is_dfs (type this) then last queue1 else head queue1) = Some current ∧
     let history1 := snapshot (history st) queue1 (visited st) (parents st)
                       (Some (Item.id current)) exploring in
     let queue2 := if is_dfs (type this) then removelast queue1 else tail queue1 in
     let visited' := visited st ∪ {[Item.id current]} in
     ( (checkDuplicates (options this) = true ∧ Item.id current ∈ visited st ∧
        run_iteration lc fd this st =
          Continue (mkRunState queue2 (visited st) (parents st) (iterations st + 1)
                      (adj st) history1))
     ∨ (¬ (checkDuplicates (options this) = true ∧ Item.id current ∈ visited st) ∧
        ( (is_priority (type this) = true ∧ Item.id current = endId this ∧
           run_iteration lc fd this st =
             Return (snapshot history1 queue2 visited' (parents st)
                       (Some (Item.id current)) found))
        ∨ (¬ (is_priority (type this) = true ∧ Item.id current = endId this) ∧
           ( (∃ err, sorted_neighbors lc this (adj st) (Item.id current) = Throw err ∧
                     run_iteration lc fd this st = Raise err)
           ∨ (∃ nb adj', sorted_neighbors lc this (adj st) (Item.id current) = Ok (nb, adj') ∧
                run_iteration lc fd this st =
                  visit_neighbors fd this current nb
                    (mkRunState queue2 visited' (parents st) (iterations st + 1)
                       adj' history1)))))))).
Proof.
  intros Hq queue1. unfold run_iteration. fold (sorted_queue this st). fold queue1.
  destruct (iterations st + 1 >? MAX_ITERATIONS) eqn:Hit.
  { left. split; [lia|done]. }
  right. split; [lia|].
  destruct (pick_nonempty (is_dfs (type this)) queue1) as [current Hcur].
  { unfold queue1, sorted_queue. destruct (is_priority (type this)); [|done].
    intros Hnil. apply Hq. apply Permutation_nil_r.
    rewrite <- Hnil. symmetry. apply stable_sort_perm. }
  exists current. split; [done|]. rewrite Hcur. simpl.
  unfold has.
  destruct (checkDuplicates (options this)) eqn:Hcd; simpl.
  - case_bool_decide as Hvis; simpl.
    { left. done. }
    right. split; [by intros [??]|].
    destruct (is_priority (type this)) eqn:Hpq; simpl.
    + destruct (Item.id current =? endId this) eqn:Hend.
      { left. apply Z.eqb_eq in Hend. done. }
      apply Z.eqb_neq in Hend. right. split; [by intros [??]|].
      destruct (sorted_neighbors lc this (adj st) (Item.id current)) as [[nb adj']|err];
        [right|left]; eauto.
    + right. split; [by intros [??]|].
      destruct (sorted_neighbors lc this (adj st) (Item.id current)) as [[nb adj']|err];
        [right|left]; eauto.
  - right. split; [by intros [??]|].
    destruct (is_priority (type this)) eqn:Hpq; simpl.
    + destruct (Item.id current =? endId this) eqn:Hend.
      { left. apply Z.eqb_eq in Hend. done. }
      apply Z.eqb_neq in Hend. right. split; [by intros [??]|].
      destruct (sorted_neighbors lc this (adj st) (Item.id current)) as [[nb adj']|err];
        [right|left]; eauto.
    + right. split; [by intros [??]|].
      destruct (sorted_neighbors lc this (adj st) (Item.id current)) as [[nb adj']|err];
        [right|left]; eauto.
Qed.

(** Invariant rule for the loop. *)
Lemma run_loop_rule (I : RunState → Prop) (Q : result History → Prop) :
  (∀ st, I st → queue st = [] →
         Q (Ok (snapshot (history st) (queue st) (visited st) (parents st) None failed))) →
  (∀ st, I st → queue st ≠ [] →
         match run_iteration lc fd this st with
         | Continue st' => I st'
         | Return hist => Q (Ok hist)
         | Raise err => Q (Throw err)
         end) →
  ∀ fuel st r, I st → run_loop lc fd this fuel st = Some r → Q r.
Proof.
  intros Hexit Hbody fuel. induction fuel as [|fuel IH]; intros st r HI Hrun.
  - simpl in Hrun. destruct (queue st) eqn:Hq; [|done].
    simplify_eq. rewrite <- Hq. by apply Hexit.
  - simpl in Hrun. destruct (queue st) eqn:Hq.
    + simplify_eq. rewrite <- Hq. by apply Hexit.
    + assert (Hne : queue st ≠ []) by (by rewrite Hq).
      specialize (Hbody st HI Hne).
      destruct (run_iteration lc fd this st); simplify_eq; eauto.
Qed.

End RunLoop.

(** ** Shape of the history of the shared loop *)

Section Shape.
Context (lc : string → string → Z) (fd : Node.t → Node.t → Z) (this : GraphSearch).

(** The neighbour loop leaves the history, the visited set, the counter
    and the adjacency alone, and returns by appending one [found]
    snapshot. *)
Lemma visit_neighbors_frame cur nb st :
  match visit_neighbors fd this cur nb st with
  | Continue st' =>
      history st' = history st ∧ visited st' = visited st ∧
      iterations st' = iterations st ∧ adj st' = adj st
  | Return hist =>
      ∃ s, hist = history st ++ [s] ∧ Snapshot.status s = found ∧
           Snapshot.current s = Some (endId this) ∧
           Snapshot.visited s = visited st
  | Raise _ => True
  end.
Proof.
  pose proof (visit_neighbors_rule fd this
    (λ st1, history st1 = history st ∧ visited st1 = visited st ∧
            iterations st1 = iterations st ∧ adj st1 = adj st) cur nb st) as H.
  destruct (visit_neighbors fd this cur nb st).
  - apply H; [done|]. intros; simpl; done.
  - destruct H as (st1 & e & (Hh & Hv & _) & _ & _ & _ & _ & ->); [done| |].
    { intros; simpl; done. }
    unfold snapshot. rewrite Hh. eexists; split; [done|]. simpl. by rewrite Hv.
  - done.
Qed.

Lemma run_iteration_shape st :
  shape_inv st → queue st ≠ [] →
  match run_iteration lc fd this st with
  | Continue st' => shape_inv st'
  | Return hist => shape_post (Ok hist)
  | Raise err => True
  end.
Proof.
  intros (Hall & Hlen & Hmax) Hq.
  destruct (run_iteration_cases lc fd this st Hq) as
    [[Hlim ->]|(Hit & cur & Hcur & [(Hcd & Hvis & ->)|(Hns & [(Hpq & Hend & ->)|
       (Hnf & [(err & Hsn & ->)|(nb & adj' & Hsn & ->)])])])].
  - intros hist [= <-]. eexists _, _. split; [done|]. simpl.
    repeat split; [done|done|lia|lia].
  - repeat split; simpl.
    + apply Forall_app. split; [done|]. by repeat constructor.
    + unfold snapshot; rewrite ?length_app. simpl. lia.
    + done.
  - intros hist [= <-]. unfold snapshot at 1. eexists _, _. split; [done|]. simpl.
    split; [|split; [done|]].
    + apply Forall_app. split; [done|]. by repeat constructor.
    + unfold snapshot; rewrite ?length_app. simpl. split; [lia|done].
  - done.
  - match goal with |- context [visit_neighbors fd this cur nb ?s] =>
      pose proof (visit_neighbors_frame cur nb s) as Hfr;
      destruct (visit_neighbors fd this cur nb s) as [st'|hist|err] end; [| |done].
    + destruct Hfr as (Hh & _ & Hi & _). simpl in *. unfold shape_inv.
      rewrite Hh, Hi. repeat split.
      * apply Forall_app. split; [done|]. by repeat constructor.
      * unfold snapshot; rewrite ?length_app. simpl. lia.
      * done.
    + destruct Hfr as (s & -> & Hs & _). simpl. intros hist' [= <-].
      eexists _, _. split; [done|]. rewrite Hs.
      split; [|split; [done|]].
      * apply Forall_app. split; [done|]. by repeat constructor.
      * unfold snapshot; rewrite ?length_app. simpl. split; [lia|done].
Qed.

Lemma run_loop_shape fuel st r :
  shape_inv st → run_loop lc fd this fuel st = Some r → shape_post r.
Proof.
  apply (run_loop_rule lc fd this shape_inv shape_post).
  - intros st' (Hall & Hlen & Hmax) Hq hist [= <-].
    eexists _, _. split; [done|]. simpl. repeat split; [done|done|lia|done].
  - intros st' Hinv Hq. pose proof (run_iteration_shape st' Hinv Hq) as H.
    destruct (run_iteration lc fd this st'); [done|done|]. by intros ? [=].
Qed.

(** The loop never runs out of the fuel [run] gives it. *)
Lemma run_loop_fuel fuel st :
  shape_inv st → MAX_ITERATIONS < iterations st + Z.of_nat fuel →
  is_Some (run_loop lc fd this fuel st).
Proof.
  revert st. induction fuel as [|fuel IH]; intros st Hinv Hfuel.
  - destruct Hinv as (_ & _ & ?). lia.
  - simpl. destruct (queue st) eqn:Hq; [eauto|].
    assert (Hne : queue st ≠ []) by (by rewrite Hq).
    pose proof (run_iteration_shape st Hinv Hne) as Hsh.
    destruct (run_iteration_cases lc fd this st Hne) as [[Hlim Heq]|(Hit & _)].
    { rewrite Heq. eauto. }
    destruct (run_iteration lc fd this st) as [st'|hist|err] eqn:Hri; [|eauto|eauto].
    apply IH; [done|].
    assert (iterations st' = iterations st + 1); [|lia].
    destruct Hinv as (_ & Hl & _). destruct Hsh as (_ & Hl' & _).
    revert Hri Hl'.
    destruct (run_iteration_cases lc fd this st Hne) as
      [[Hlim ->]|(_ & cur & Hcur & [(Hcd & Hvis & ->)|(Hns & [(Hpq & Hend & ->)|
         (Hnf & [(err & Hsn & ->)|(nb & adj' & Hsn & ->)])])])]; try done.
    + intros [= <-]. done.
    + match goal with |- context [visit_neighbors fd this cur nb ?s] =>
        pose proof (visit_neighbors_frame cur nb s) as Hfr end.
      intros Heq. rewrite Heq in Hfr. destruct Hfr as (_ & _ & Hi & _). done.
Qed.

End Shape.

(** ** Adjacency construction *)

Lemma find_node_Some ns i n : find_node ns i = Some n → n ∈ ns ∧ Node.id n = i.
Proof.
  unfold find_node. intros H. apply find_some in H as [Hin Heq].
  split; [by apply list_elem_of_In|]. by apply Z.eqb_eq.
Qed.

Lemma find_node_is_Some ns i : is_Some (find_node ns i) ↔ i ∈ Node.id <$> ns.
Proof.
  induction ns as [|n ns IH]; simpl.
  - split; [by intros [? [=]]|]. by intros ?%elem_of_nil.
  - rewrite elem_of_cons. destruct (Node.id n =? i) eqn:E.
    + apply Z.eqb_eq in E. split; eauto.
    + apply Z.eqb_neq in E. rewrite IH. split; [by right|]. by intros [?|?].
Qed.

Lemma empty_adjacency_lookup_gen ns (acc : gmap Z (list Adj.t)) k :
  foldl (λ adj n, <[Node.id n := []]> adj) acc ns !! k =
  match find_node ns k with
  | Some _ => Some []
  | None => acc !! k
  end.
Proof.
  revert acc. induction ns as [|n ns IH]; intros acc; simpl; [done|].
  rewrite IH. destruct (Node.id n =? k) eqn:E.
  - apply Z.eqb_eq in E. subst k.
    destruct (find_node ns (Node.id n)); [done|]. by rewrite lookup_insert_eq.
  - apply Z.eqb_neq in E. destruct (find_node ns k); [done|].
    by rewrite lookup_insert_ne.
Qed.

Lemma empty_adjacency_lookup ns k :
  empty_adjacency ns !! k =
  match find_node ns k with
  | Some _ => Some []
  | None => None
  end.
Proof.
  unfold empty_adjacency. rewrite empty_adjacency_lookup_gen.
  by destruct (find_node ns k).
Qed.

Lemma adj_push_Ok adj k a adj' :
  adj_push adj k a = Ok adj' ↔ ∃ l, adj !! k = Some l ∧ adj' = <[k := l ++ [a]]> adj.
Proof.
  unfold adj_push. destruct (adj !! k) as [l|]; split.
  - intros [= <-]. eauto.
  - intros (l' & [= <-] & ->). done.
  - done.
  - by intros (l' & [=] & _).
Qed.

Lemma targets_push adj k l a x :
  adj !! k = Some l →
  targets (<[k := l ++ [a]]> adj) x =
  if decide (x = k) then targets adj k ++ [Adj.to a] else targets adj x.
Proof.
  intros Hk. unfold targets. case_decide as Hx.
  - subst x. rewrite lookup_insert_eq, Hk. simpl. by rewrite fmap_app.
  - by rewrite lookup_insert_ne.
Qed.

Lemma dom_push (adj : gmap Z (list Adj.t)) k l a x :
  adj !! k = Some l →
  is_Some (<[k := l ++ [a]]> adj !! x) ↔ is_Some (adj !! x).
Proof.
  intros Hk. destruct (decide (x = k)) as [->|].
  - rewrite lookup_insert_eq, Hk. split; eauto.
  - by rewrite lookup_insert_ne.
Qed.

(** An invariant travels through the insertion of the edges, one edge (two
    pushes) at a time. *)
Lemma add_edges_rule (P : gmap Z (list Adj.t) → Prop) es adj adj' :
  P adj →
  (∀ a e l1 l2,
      P a → e ∈ es →
      a !! Edge.source e = Some l1 →
      <[Edge.source e := l1 ++ [Adj.mk (Edge.target e) (Edge.weight e)]]> a
        !! Edge.target e = Some l2 →
      P (<[Edge.target e := l2 ++ [Adj.mk (Edge.source e) (Edge.weight e)]]>
           (<[Edge.source e := l1 ++ [Adj.mk (Edge.target e) (Edge.weight e)]]> a))) →
  add_edges es adj = Ok adj' → P adj'.
Proof.
  revert adj. induction es as [|e es IH]; intros adj HP Hstep; simpl.
  - by intros [= <-].
  - destruct (adj_push adj _ _) as [adj1|] eqn:H1; [|done].
    destruct (adj_push adj1 _ _) as [adj2|] eqn:H2; [|done].
    apply adj_push_Ok in H1 as (l1 & Hl1 & ->).
    apply adj_push_Ok in H2 as (l2 & Hl2 & ->).
    apply IH.
    + apply Hstep; auto. by left.
    + intros. apply Hstep; auto. by right.
Qed.

Lemma add_edges_dom es adj adj' x :
  add_edges es adj = Ok adj' → is_Some (adj' !! x) ↔ is_Some (adj !! x).
Proof.
  apply (add_edges_rule (λ a, is_Some (a !! x) ↔ is_Some (adj !! x))); [done|].
  intros a e l1 l2 IH _ H1 H2. by rewrite dom_push, dom_push.
Qed.

Lemma add_edges_Ok es adj :
  (∀ e, e ∈ es → is_Some (adj !! Edge.source e) ∧ is_Some (adj !! Edge.target e)) →
  ∃ adj', add_edges es adj = Ok adj'.
Proof.
  revert adj. induction es as [|e es IH]; intros adj Hes; simpl; [eauto|].
  destruct (Hes e) as [[l1 Hl1] Ht]; [by left|].
  assert (is_Some (<[Edge.source e := l1 ++ [Adj.mk (Edge.target e) (Edge.weight e)]]> adj
                     !! Edge.target e)) as [l2 Hl2] by (by rewrite dom_push).
  rewrite (proj2 (adj_push_Ok adj _ _ _) (ex_intro _ l1 (conj Hl1 eq_refl))).
  rewrite (proj2 (adj_push_Ok _ _ _ _) (ex_intro _ l2 (conj Hl2 eq_refl))).
  apply IH.
  intros e' He'. rewrite !dom_push by done. apply Hes. by right.
Qed.

Lemma add_edges_Throw es adj e :
  e ∈ es → adj !! Edge.source e = None ∨ adj !! Edge.target e = None →
  add_edges es adj = Throw TypeError.
Proof.
  intros He Hmiss.
  destruct (add_edges es adj) as [adj'|[]] eqn:Hadd; [exfalso|done].
  revert adj Hmiss Hadd. induction es as [|e0 es IH]; intros adj Hmiss; simpl.
  { by apply elem_of_nil in He. }
  destruct (adj_push adj _ _) as [adj1|] eqn:H1; [|done].
  destruct (adj_push adj1 _ _) as [adj2|] eqn:H2; [|done].
  apply adj_push_Ok in H1 as (l1 & Hl1 & ->).
  apply adj_push_Ok in H2 as (l2 & Hl2 & ->).
  apply elem_of_cons in He as [->|He].
  - destruct Hmiss as [Hm|Hm]; [congruence|].
    assert (is_Some (adj !! Edge.target e0)) as [? ?]; [|congruence].
    rewrite <- (dom_push adj (Edge.source e0) l1
                  (Adj.mk (Edge.target e0) (Edge.weight e0))) by done.
    eauto.
  - apply IH; [done|].
    assert (∀ x, adj !! x = None →
      <[Edge.target e0 := l2 ++ [Adj.mk (Edge.source e0) (Edge.weight e0)]]>
        (<[Edge.source e0 := l1 ++ [Adj.mk (Edge.target e0) (Edge.weight e0)]]> adj)
        !! x = None) as Hnone.
    { intros x Hx. apply eq_None_not_Some. rewrite !dom_push by done.
      by apply eq_None_not_Some. }
    destruct Hmiss; auto.
Qed.

(** A graph whose edges only mention ids of nodes builds its adjacency;
    any other graph makes the constructor throw. *)
Lemma buildAdjacency_Ok this :
  (∀ e, e ∈ edges this →
        is_Some (find_node (nodes this) (Edge.source e)) ∧
        is_Some (find_node (nodes this) (Edge.target e))) →
  ∃ adj, buildAdjacency this = Ok adj.
Proof.
  intros Hes. unfold buildAdjacency. fold (empty_adjacency (nodes this)).
  apply add_edges_Ok. intros e He. destruct (Hes e He) as [[? Hs] [? Ht]].
  rewrite !empty_adjacency_lookup, Hs, Ht. eauto.
Qed.

Lemma buildAdjacency_Throw this e :
  e ∈ edges this →
  find_node (nodes this) (Edge.source e) = None ∨
  find_node (nodes this) (Edge.target e) = None →
  buildAdjacency this = Throw TypeError.
Proof.
  intros He Hmiss. unfold buildAdjacency. fold (empty_adjacency (nodes this)).
  apply (add_edges_Throw _ _ e He).
  rewrite !empty_adjacency_lookup. destruct Hmiss as [-> | ->]; auto.
Qed.

Lemma buildAdjacency_dom this adj k :
  buildAdjacency this = Ok adj →
  is_Some (adj !! k) ↔ is_Some (find_node (nodes this) k).
Proof.
  unfold buildAdjacency. fold (empty_adjacency (nodes this)). intros H.
  rewrite (add_edges_dom _ _ _ k H), empty_adjacency_lookup.
  destruct (find_node (nodes this) k); split; eauto; by intros [? [=]].
Qed.

Lemma targets_empty_adjacency ns k : targets (empty_adjacency ns) k = [].
Proof.
  unfold targets. rewrite empty_adjacency_lookup. by destruct (find_node ns k).
Qed.

Lemma buildAdjacency_closed this adj :
  buildAdjacency this = Ok adj → adj_closed (nodes this) adj.
Proof.
  intros Hb. pose proof Hb as Hdom. revert Hb.
  unfold buildAdjacency. fold (empty_adjacency (nodes this)).
  apply (add_edges_rule (λ a,
    (∀ x, is_Some (a !! x) ↔ is_Some (empty_adjacency (nodes this) !! x)) ∧
    adj_closed (nodes this) a)).
  - split; [done|]. intros k i. rewrite targets_empty_adjacency.
    by intros ?%elem_of_nil.
  - intros a e l1 l2 [Hd IH] _ H1 H2. split.
    { intros x. by rewrite !dom_push. }
    assert (∀ x, is_Some (a !! x) → is_Some (find_node (nodes this) x)) as Hfind.
    { intros x Hx. apply Hd in Hx. rewrite empty_adjacency_lookup in Hx.
      destruct (find_node (nodes this) x); [eauto|]. by destruct Hx. }
    assert (is_Some (a !! Edge.target e)) as Ht.
    { erewrite <- dom_push by done. eauto. }
    intros k i. rewrite targets_push by done. case_decide.
    + rewrite elem_of_app, targets_push by done. simpl. rewrite list_elem_of_singleton.
      intros [Hi| ->]; [|apply Hfind; eauto].
      revert Hi. case_decide.
      * rewrite elem_of_app. simpl. rewrite list_elem_of_singleton.
        intros [Hi| ->]; [by eapply IH|by apply Hfind].
      * apply IH.
    + rewrite targets_push by done. case_decide.
      * rewrite elem_of_app. simpl. rewrite list_elem_of_singleton.
        intros [Hi| ->]; [by eapply IH|by apply Hfind].
      * apply IH.
Qed.

(** ** The shared loop does not throw on a well-formed graph *)

Section NoThrow.
Context (lc : string → string → Z) (fd : Node.t → Node.t → Z) (this : GraphSearch).

Lemma sort_by_label_perm l l' : sort_by_label lc this l = Ok l' → l' ≡ₚ l.
Proof.
  unfold sort_by_label. destruct (length l <=? 1)%nat; [by intros [= <-]|].
  destruct (mapM _ l) as [keyed|] eqn:Hm; [|done]. intros [= <-].
  apply mapM_Some in Hm.
  assert (snd <$> keyed = l) as Hsnd.
  { induction Hm as [|e p l0 k Hp _ IH]; simpl; [done|]. f_equal; [|done].
    destruct (find_node (nodes this) (Adj.to e)); simplify_eq/=; done. }
  etrans; [apply fmap_Permutation, stable_sort_perm|]. by rewrite Hsnd.
Qed.

Lemma sort_by_label_Ok l :
  (∀ e, e ∈ l → is_Some (find_node (nodes this) (Adj.to e))) →
  ∃ l', sort_by_label lc this l = Ok l'.
Proof.
  intros Hl. unfold sort_by_label. destruct (length l <=? 1)%nat; [eauto|].
  destruct (mapM _ l) as [keyed|] eqn:Hm; [eauto|].
  assert (is_Some (mapM (λ e, (λ n, (Node.label n, e)) <$>
            find_node (nodes this) (Adj.to e)) l)) as [? ?]; [|congruence].
  apply mapM_is_Some, Forall_forall. intros e He.
  destruct (Hl e He) as [n Hn]. simpl. rewrite Hn. eauto.
Qed.

Lemma sorted_neighbors_perm adj i nb adj' :
  sorted_neighbors lc this adj i = Ok (nb, adj') →
  nb ≡ₚ default [] (adj !! i) ∧
  (∀ k, targets adj' k ≡ₚ targets adj k).
Proof.
  unfold sorted_neighbors. destruct (adj !! i) as [l|] eqn:Hl.
  - destruct (sort_by_label lc this l) as [sorted|] eqn:Hs; [|done].
    apply sort_by_label_perm in Hs. intros [= <- <-].
    assert ((if is_dfs (type this) then reverse sorted else sorted) ≡ₚ l) as Hp.
    { destruct (is_dfs (type this)); [by rewrite reverse_Permutation|done]. }
    split; [done|]. intros k. unfold targets.
    destruct (decide (k = i)) as [->|].
    + rewrite lookup_insert_eq, Hl. simpl. by apply fmap_Permutation.
    + by rewrite lookup_insert_ne.
  - intros [= <- <-]. done.
Qed.

Lemma sorted_neighbors_Ok adj i :
  adj_closed (nodes this) adj →
  ∃ nb adj', sorted_neighbors lc this adj i = Ok (nb, adj').
Proof.
  intros Hc. unfold sorted_neighbors. destruct (adj !! i) as [l|] eqn:Hl; [|eauto].
  destruct (sort_by_label_Ok l) as [l' ->]; [|eauto].
  intros e He. apply (Hc i). unfold targets. rewrite Hl. simpl.
  by apply list_elem_of_fmap_2.
Qed.

Lemma adj_closed_perm adj adj' :
  (∀ k, targets adj' k ≡ₚ targets adj k) →
  adj_closed (nodes this) adj → adj_closed (nodes this) adj'.
Proof. intros Hp Hc k i Hi. apply (Hc k). by rewrite <- Hp. Qed.

Lemma getHeuristic_Ok i :
  is_Some (find_node (nodes this) i) →
  is_Some (find_node (nodes this) (endId this)) →
  ∃ hv, getHeuristic fd this i = Ok hv.
Proof.
  intros [n Hn] [g Hg]. unfold getHeuristic. rewrite Hn, Hg.
  destruct (heuristicType (options this)); [eauto| |eauto].
  destruct (Node.h n); eauto.
Qed.

(** On a closed adjacency and with a goal node, a pass neither throws
    nor breaks the closure. *)
Lemma run_iteration_no_throw st :
  adj_closed (nodes this) (adj st) →
  is_Some (find_node (nodes this) (endId this)) →
  queue st ≠ [] →
  match run_iteration lc fd this st with
  | Continue st' => adj_closed (nodes this) (adj st')
  | Return _ => True
  | Raise _ => False
  end.
Proof.
  intros Hc Hgoal Hq.
  destruct (run_iteration_cases lc fd this st Hq) as
    [[Hlim ->]|(Hit & cur & Hcur & [(Hcd & Hvis & ->)|(Hns & [(Hpq & Hend & ->)|
       (Hnf & [(err & Hsn & ->)|(nb & adj' & Hsn & ->)])])])]; try done.
  - destruct (sorted_neighbors_Ok (adj st) (Item.id cur) Hc) as (? & ? & ?).
    congruence.
  - apply sorted_neighbors_perm in Hsn as [Hnb Hadj].
    pose proof (adj_closed_perm _ _ Hadj Hc) as Hc'.
    match goal with |- context [visit_neighbors fd this cur nb ?s] =>
      pose proof (visit_neighbors_rule fd this
        (λ st1, adj_closed (nodes this) (adj st1)) cur nb s Hc') as Hr;
      destruct (visit_neighbors fd this cur nb s) as [st'|hist|err] end; [|done|].
    + apply Hr. intros; simpl; done.
    + destruct Hr as (st1 & e & _ & He & _ & Hh); [intros; simpl; done|].
      destruct (getHeuristic_Ok (Adj.to e)) as [hv Hhv]; [|done|congruence].
      apply (Hc (Item.id cur)). unfold targets. rewrite <- Hnb.
      by apply list_elem_of_fmap_2.
Qed.

Lemma run_loop_no_throw fuel st r :
  adj_closed (nodes this) (adj st) →
  is_Some (find_node (nodes this) (endId this)) →
  run_loop lc fd this fuel st = Some r → ∃ hist, r = Ok hist.
Proof.
  intros Hc Hgoal.
  apply (run_loop_rule lc fd this (λ st, adj_closed (nodes this) (adj st))
           (λ r, ∃ hist, r = Ok hist)); [eauto| |done].
  intros st' Hc' Hq. pose proof (run_iteration_no_throw st' Hc' Hgoal Hq) as H.
  destruct (run_iteration lc fd this st'); [done|eauto|done].
Qed.

End NoThrow.

(** ** The constructor on the shared loop *)

Lemma has_node_true ns i : has_node ns i = true ↔ is_Some (find_node ns i).
Proof.
  unfold has_node. destruct (find_node ns i); split; eauto; [done|by intros [? [=]]].
Qed.

Lemma edges_wellformed_spec this :
  edges_wellformed this = true →
  ∀ e, e ∈ edges this →
       is_Some (find_node (nodes this) (Edge.source e)) ∧
       is_Some (find_node (nodes this) (Edge.target e)).
Proof.
  unfold edges_wellformed. rewrite forallb_forall. intros H e He.
  apply list_elem_of_In, H, andb_prop in He as [Hs Ht].
  by rewrite <- !has_node_true.
Qed.

Lemma shape_post_statuses hist :
  shape_post (Ok hist) →
  well_terminated (statuses hist) ∧
  (pops hist ≤ Z.to_nat MAX_ITERATIONS)%nat ∧
  (last (statuses hist) = Some limit_reached → pops hist = Z.to_nat MAX_ITERATIONS).
Proof.
  intros H. destruct (H hist eq_refl) as (pre & t & -> & Hpre & Ht & Hlen & Hlim).
  clear H.
  assert (statuses pre = replicate (length pre) exploring) as Hst.
  { clear Hlen Hlim. induction Hpre as [|s pre Hs _ IH]; simpl; [done|].
    unfold statuses in *. by rewrite Hs, IH. }
  assert (pops (pre ++ [t]) = length pre) as Hpops.
  { unfold pops. rewrite filter_app, length_app.
    rewrite (filter_cons_False _ t []) by done. simpl. rewrite Nat.add_0_r. f_equal.
    clear Hlen Hlim Hst. induction Hpre as [|s pre Hs _ IH]; [done|].
    by rewrite filter_cons_True, IH. }
  rewrite Hpops. unfold statuses in *. rewrite fmap_app, Hst. simpl.
  split; [by eexists _, _|]. split; [lia|].
  rewrite last_snoc. intros [= Heq]. specialize (Hlim Heq). lia.
Qed.

Lemma shape_inv_initial q v p a : shape_inv (mkRunState q v p 0 a []).
Proof. repeat split; simpl; [constructor|unfold MAX_ITERATIONS; lia]. Qed.

(** Whatever the graph, a construction on the shared loop ends: it throws
    or returns a history of the form [exploring* terminal]. *)
Lemma new_GraphSearch_shared lc fd this :
  type this ≠ BiBFS →
  ∃ r, new_GraphSearch lc fd this = Some r ∧ shape_post r.
Proof.
  intros Hty. unfold new_GraphSearch.
  destruct (buildAdjacency this) as [adj|err]; [|eexists; split; [done|by intros ? [=]]].
  unfold run. case_decide; [done|].
  destruct (startId this =? endId this).
  - eexists; split; [done|]. intros hist [= <-]. eexists [], _.
    split; [done|]. simpl. repeat split; [constructor|done|unfold MAX_ITERATIONS; lia|done].
  - match goal with |- context [run_loop lc fd this run_fuel ?s] =>
      destruct (run_loop_fuel lc fd this run_fuel s) as [r Hr] end.
    + apply shape_inv_initial.
    + simpl. unfold run_fuel. lia.
    + exists r. split; [done|]. eapply run_loop_shape; [|done]. apply shape_inv_initial.
Qed.

(** C5: a BFS/DFS/Dijkstra/A* run on a well-formed graph returns a history
    (it neither throws nor runs on); the history holds at most
    MAX_ITERATIONS = 1000 pop snapshots followed by one terminal snapshot;
    a [limit_reached] ending comes after exactly 1000 pops; and a pass of
    the loop entered with the counter at the bound records [limit_reached]
    and returns. *)
Theorem C5_iteration_bound lc fd this :
  type this ≠ BiBFS →
  wellformed this = true →
  ∃ hist,
    new_GraphSearch lc fd this = Some (Ok hist) ∧
    well_terminated (statuses hist) ∧
    (pops hist ≤ 1000)%nat ∧
    (last (statuses hist) = Some limit_reached → pops hist = 1000%nat) ∧
    (∀ st, MAX_ITERATIONS ≤ iterations st →
           run_iteration lc fd this st =
             Return (snapshot (history st) (queue st) (visited st) (parents st)
                       None limit_reached)).
Proof.
  intros Hty [Hes Hgoal]%andb_prop.
  apply has_node_true in Hgoal.
  destruct (buildAdjacency_Ok this (edges_wellformed_spec this Hes)) as [adj Hadj].
  destruct (new_GraphSearch_shared lc fd this Hty) as (r & Hr & Hshape).
  assert (∃ hist, r = Ok hist) as [hist ->].
  { revert Hr. unfold new_GraphSearch, run. rewrite Hadj. case_decide; [done|].
    destruct (startId this =? endId this); [intros [= <-]; eauto|].
    apply run_loop_no_throw; [|done]. simpl. by apply buildAdjacency_closed. }
  exists hist. split; [done|].
  destruct (shape_post_statuses hist Hshape) as (Hwt & Hpops & Hlim).
  change (Z.to_nat MAX_ITERATIONS) with 1000%nat in *.
  repeat split; [done|done|done|].
  intros st Hit. unfold run_iteration.
  destruct (iterations st + 1 >? MAX_ITERATIONS) eqn:E; [done|lia].
Qed.

Lemma C5_iteration_bound_witness :
  ∃ hist,
    Examples.search Examples.ping_pong BFS (mkOptions false Euclidean) = Some (Ok hist) ∧
    well_terminated (statuses hist) ∧
    (pops hist ≤ 1000)%nat ∧
    (last (statuses hist) = Some limit_reached → pops hist = 1000%nat) ∧
    (∀ st, MAX_ITERATIONS ≤ iterations st →
           run_iteration codeUnitCompare intFloorDistance
             (search_args Examples.ping_pong BFS (mkOptions false Euclidean)) st =
             Return (snapshot (history st) (queue st) (visited st) (parents st)
                       None limit_reached)).
Proof.
  apply (C5_iteration_bound codeUnitCompare intFloorDistance
           (search_args Examples.ping_pong BFS (mkOptions false Euclidean))).
  - discriminate.
  - reflexivity.
Defined.

(** The run of the witness above does reach the bound: 1000 pops and then
    [limit_reached]. *)
Lemma ping_pong_limit_reached :
  statuses (history_of (Examples.search Examples.ping_pong BFS (mkOptions false Euclidean)))
  = replicate 1000 exploring ++ [limit_reached].
Proof. vm_compute. reflexivity. Qed.

(** ** Start equal to goal *)

(** C2 (as the code has it): when start and goal coincide and the
    adjacency builds, the run records exactly one snapshot, of status
    [found] and with the start as current node. Its recorded frontier is
    not empty: the shared loop is not entered and the frontier is the seed
    item alone (nothing visited, no parent); the bidirectional loop stops
    in its first pass with the goal-side entry of the start node. *)
Theorem C2_start_is_goal lc fd this adj :
  startId this = endId this →
  buildAdjacency this = Ok adj →
  ∃ s,
    new_GraphSearch lc fd this = Some (Ok [s]) ∧
    Snapshot.status s = found ∧
    Snapshot.current s = Some (startId this) ∧
    Snapshot.queue s =
      (if decide (type this = BiBFS)
       then [ESide (startId this) SideEnd]
       else [EItem (Item.mk (startId this) 0 0 None 0)]) ∧
    (type this ≠ BiBFS → Snapshot.visited s = ∅ ∧ Snapshot.parents s = ∅).
Proof.
  intros Heq Hadj. unfold new_GraphSearch, run. rewrite Hadj.
  case_decide as Hty.
  - unfold runBiBFS, bibfs_fuel. rewrite <- Heq. simpl.
    unfold bibfs_iteration, has. simpl.
    rewrite bool_decide_eq_true_2 by set_solver. simpl.
    eexists. split; [done|]. simpl. done.
  - rewrite <- Heq, Z.eqb_refl. eexists. split; [done|]. simpl. done.
Qed.

Lemma C2_start_is_goal_witness :
  ∃ s,
    Examples.search Examples.same BFS (mkOptions true Euclidean) = Some (Ok [s]) ∧
    Snapshot.status s = found ∧
    Snapshot.current s = Some 1 ∧
    Snapshot.queue s = [EItem (Item.mk 1 0 0 None 0)] ∧
    (BFS ≠ BiBFS → Snapshot.visited s = ∅ ∧ Snapshot.parents s = ∅).
Proof.
  apply (C2_start_is_goal codeUnitCompare intFloorDistance
           (search_args Examples.same BFS (mkOptions true Euclidean))
           (<[2 := [Adj.mk 1 1]]> (<[1 := [Adj.mk 2 1]]> (<[2 := []]> (<[1 := []]> ∅))))).
  - reflexivity.
  - reflexivity.
Defined.

(** C2, counterexample: with start equal to goal the only snapshot of a BFS
    run has a frontier of one item, not an empty one. *)
Lemma C2_frontier_not_empty :
  ∃ s,
    Examples.search Examples.same BFS (mkOptions true Euclidean) = Some (Ok [s]) ∧
    Snapshot.status s = found ∧
    Snapshot.queue s ≠ [].
Proof. eexists. split; [reflexivity|]. split; [reflexivity|]. discriminate. Qed.

(** ** The heuristic *)

(** C3 (as the code has it): in preset mode a node without [h] gets the
    default estimate, the floored distance to the goal, the value the
    Euclidean mode returns; no error is raised for the missing [h]. *)
Theorem C3_preset_falls_back fd this nodeId n g :
  heuristicType (options this) = Preset →
  find_node (nodes this) nodeId = Some n →
  Node.h n = None →
  find_node (nodes this) (endId this) = Some g →
  getHeuristic fd this nodeId = Ok (fd n g).
Proof.
  intros Hty Hn Hh Hg. unfold getHeuristic. by rewrite Hty, Hn, Hh, Hg.
Qed.

Lemma C3_preset_falls_back_witness :
  getHeuristic intFloorDistance
    (search_args Examples.no_h AStar (mkOptions true Preset)) 1
  = Ok (intFloorDistance (Node.mk 1 0 0 "S" None) (Node.mk 2 3 4 "G" (Some 0))).
Proof.
  apply (C3_preset_falls_back intFloorDistance
           (search_args Examples.no_h AStar (mkOptions true Preset)) 1);
    reflexivity.
Defined.

(** C3, counterexample: preset mode, a node without [h]; the heuristic
    returns the number 5 and the A* run goes on to [found]. *)
Lemma C3_no_error_raised :
  let this := search_args Examples.no_h AStar (mkOptions true Preset) in
  heuristicType (options this) = Preset ∧
  (∃ n, find_node (nodes this) 1 = Some n ∧ Node.h n = None) ∧
  getHeuristic intFloorDistance this 1 = Ok 5 ∧
  last (statuses (history_of (new_GraphSearch codeUnitCompare intFloorDistance this)))
    = Some found.
Proof.
  simpl. split; [done|]. split; [eexists; split; reflexivity|].
  split; [reflexivity|]. vm_compute. reflexivity.
Qed.

(** ** Malformed graphs *)

(** C7 (as the code has it): an edge that mentions an id without node makes
    the constructor throw while it builds the adjacency, before any
    snapshot; the error is the [TypeError] of the failed property access.
    The start and goal ids are not checked: with only the start id missing
    from the node list the shared loop runs and returns the two-snapshot
    history [exploring, failed]. *)
Theorem C7_malformed_graph lc fd this :
  (∀ e, e ∈ edges this →
        find_node (nodes this) (Edge.source e) = None ∨
        find_node (nodes this) (Edge.target e) = None →
        buildAdjacency this = Throw TypeError ∧
        new_GraphSearch lc fd this = Some (Throw TypeError)) ∧
  (edges_wellformed this = true →
   find_node (nodes this) (startId this) = None →
   startId this ≠ endId this →
   type this ≠ BiBFS →
   ∃ s1 s2,
     new_GraphSearch lc fd this = Some (Ok [s1; s2]) ∧
     Snapshot.status s1 = exploring ∧ Snapshot.current s1 = Some (startId this) ∧
     Snapshot.status s2 = failed).
Proof.
  split.
  - intros e He Hmiss. pose proof (buildAdjacency_Throw this e He Hmiss) as Hb.
    split; [done|]. unfold new_GraphSearch. by rewrite Hb.
  - intros Hes Hstart Hne Hty.
    destruct (buildAdjacency_Ok this (edges_wellformed_spec this Hes)) as [built Hadj].
    assert (built !! startId this = None) as Hnone.
    { apply eq_None_not_Some. rewrite (buildAdjacency_dom this built _ Hadj), Hstart.
      by intros [? [=]]. }
    unfold new_GraphSearch, run. rewrite Hadj. case_decide; [done|].
    apply Z.eqb_neq in Hne as Hneb. rewrite Hneb.
    unfold run_fuel. change (Z.to_nat MAX_ITERATIONS) with 1000%nat.
    cbn [run_loop queue]. unfold run_iteration. cbn [iterations queue visited parents adj history].
    change (0 + 1 >? MAX_ITERATIONS) with false. cbv iota.
    assert ((if is_priority (type this)
             then stable_sort (λ a b, Item.priority a - Item.priority b <=? 0)
                    [Item.mk (startId this) 0 0 None 0]
             else [Item.mk (startId this) 0 0 None 0])
            = [Item.mk (startId this) 0 0 None 0]) as -> by (by destruct (is_priority _)).
    assert ((if is_dfs (type this)
             then last [Item.mk (startId this) 0 0 None 0]
             else head [Item.mk (startId this) 0 0 None 0])
            = Some (Item.mk (startId this) 0 0 None 0)) as -> by (by destruct (is_dfs _)).
    assert ((if is_dfs (type this)
             then removelast [Item.mk (startId this) 0 0 None 0]
             else tail [Item.mk (startId this) 0 0 None 0]) = []) as ->
      by (by destruct (is_dfs _)).
    cbn [Item.id]. unfold has at 1.
    rewrite bool_decide_eq_false_2 by set_solver. rewrite andb_false_r.
    rewrite Hneb, andb_false_r.
    unfold sorted_neighbors. rewrite Hnone. cbn [visit_neighbors run_loop queue].
    eexists _, _. split; [reflexivity|]. done.
Qed.

Lemma C7_malformed_graph_witness :
  (buildAdjacency (search_args Examples.dangling BFS (mkOptions true Euclidean))
     = Throw TypeError ∧
   Examples.search Examples.dangling BFS (mkOptions true Euclidean)
     = Some (Throw TypeError)) ∧
  (∃ s1 s2,
     Examples.search Examples.no_start BFS (mkOptions true Euclidean)
       = Some (Ok [s1; s2]) ∧
     Snapshot.status s1 = exploring ∧ Snapshot.current s1 = Some 5 ∧
     Snapshot.status s2 = failed).
Proof.
  split.
  - apply (proj1 (C7_malformed_graph codeUnitCompare intFloorDistance
             (search_args Examples.dangling BFS (mkOptions true Euclidean)))
             (Edge.mk 1 7 1)).
    + by left.
    + right. reflexivity.
  - apply (proj2 (C7_malformed_graph codeUnitCompare intFloorDistance
             (search_args Examples.no_start BFS (mkOptions true Euclidean)))).
    + reflexivity.
    + reflexivity.
    + discriminate.
    + discriminate.
Defined.

(** C7, counterexample: the start id 5 is not a node, yet no error is
    reported; the BFS run returns an ordinary [failed] history. *)
Lemma C7_missing_start_not_reported :
  find_node (g_nodes Examples.no_start) (g_start Examples.no_start) = None ∧
  statuses (history_of (Examples.search Examples.no_start BFS (mkOptions true Euclidean)))
    = [exploring; failed].
Proof. split; reflexivity. Qed.

(** ** Timing of the goal test *)

Section GoalTest.
Context (lc : string → string → Z) (fd : Node.t → Node.t → Z) (this : GraphSearch).

Lemma sorted_queue_perm st : sorted_queue this st ≡ₚ queue st.
Proof.
  unfold sorted_queue. destruct (is_priority (type this)); [|done].
  apply stable_sort_perm.
Qed.

Lemma goal_free_items goal (q : list Item.t) :
  Forall (λ it, Item.id it ≠ goal) q → goal_free goal (EItem <$> q).
Proof.
  intros Hq it Hit. apply list_elem_of_fmap in Hit as (it' & [= <-] & Hin).
  by eapply Forall_forall in Hq.
Qed.

Lemma run_iteration_pop_test st :
  is_priority (type this) = true →
  pop_test_inv this st → queue st ≠ [] →
  match run_iteration lc fd this st with
  | Continue st' => pop_test_inv this st'
  | Return hist => pop_test_post this (Ok hist)
  | Raise err => True
  end.
Proof.
  intros Hpq [Hvis Hhist] Hq.
  assert (is_dfs (type this) = false) as Hdfs by (by destruct (type this)).
  destruct (run_iteration_cases lc fd this st Hq) as
    [[Hlim ->]|(Hit & cur & Hcur & [(Hcd & Hv & ->)|(Hns & [(_ & Hend & ->)|
       (Hnf & [(err & Hsn & ->)|(nb & adj' & Hsn & ->)])])])].
  - intros hist [= <-]. unfold snapshot. eexists _, _. split; [done|].
    split; [done|]. left. eexists. split; [done|]. simpl. done.
  - assert (Item.id cur ≠ endId this) as Hne by (intros Heq; by rewrite Heq in Hv).
    split; simpl; [done|]. unfold snapshot. apply Forall_app. split; [done|].
    repeat constructor. simpl. congruence.
  - intros hist [= <-]. unfold snapshot. rewrite <- app_assoc. simpl.
    eexists _, _. split; [done|]. split; [done|]. right.
    eexists _, _. split; [done|]. simpl. rewrite Hend.
    repeat split. exists cur. split; [done|].
    rewrite Hdfs in *. destruct (sorted_queue this st); simplify_eq/=; done.
  - done.
  - assert (Item.id cur ≠ endId this) as Hne by (intros Heq; by apply Hnf).
    match goal with |- context [visit_neighbors fd this cur nb ?s] =>
      pose proof (visit_neighbors_frame fd this cur nb s) as Hfr;
      pose proof (visit_neighbors_rule fd this (λ _, True) cur nb s I) as Hr;
      destruct (visit_neighbors fd this cur nb s) as [st'|hist|err] end; [| |done].
    + destruct Hfr as (Hh & Hv' & _). split.
      * rewrite Hv'. simpl. set_solver.
      * rewrite Hh. simpl. unfold snapshot. apply Forall_app. split; [done|].
        repeat constructor. simpl. congruence.
    + destruct Hr as (? & ? & _ & _ & _ & ? & _); [done|congruence].
Qed.

Lemma run_iteration_push_test st :
  is_priority (type this) = false →
  push_test_inv this st → queue st ≠ [] →
  match run_iteration lc fd this st with
  | Continue st' => push_test_inv this st'
  | Return hist => push_test_post this (Ok hist)
  | Raise err => True
  end.
Proof.
  intros Hpq [Hqueue Hhist] Hq.
  assert (Forall (λ it, Item.id it ≠ endId this) (sorted_queue this st)) as Hsq.
  { by rewrite sorted_queue_perm. }
  destruct (run_iteration_cases lc fd this st Hq) as
    [[Hlim ->]|(Hit & cur & Hcur & [(Hcd & Hv & ->)|(Hns & [(Hpq' & _)|
       (Hnf & [(err & Hsn & ->)|(nb & adj' & Hsn & ->)])])])]; [| | congruence | done |].
  - intros hist [= <-]. unfold snapshot. eexists _, _. split; [done|].
    split; [done|]. left. simpl. repeat split; [done|done|]. by apply goal_free_items.
  - pose proof (pick_pop _ _ _ Hcur) as Hperm.
    split; simpl.
    + rewrite Hperm in Hsq. by apply Forall_cons in Hsq as [_ ?].
    + unfold snapshot. apply Forall_app. split; [done|].
      repeat constructor. simpl. by apply goal_free_items.
  - pose proof (pick_pop _ _ _ Hcur) as Hperm.
    assert (Forall (goal_free_pop (endId this))
              (snapshot (history st) (sorted_queue this st) (visited st) (parents st)
                 (Some (Item.id cur)) exploring)) as Hh1.
    { unfold snapshot. apply Forall_app. split; [done|].
      repeat constructor. simpl. by apply goal_free_items. }
    match goal with |- context [visit_neighbors fd this cur nb ?s] =>
      pose proof (visit_neighbors_rule fd this
        (λ st1, Forall (λ it, Item.id it ≠ endId this) (queue st1) ∧
                history st1 = history s) cur nb s) as Hr;
      destruct (visit_neighbors fd this cur nb s) as [st'|hist|err] end; [| |done].
    + destruct Hr as [Hq' Hh'].
      * split; [|done]. simpl. rewrite Hperm in Hsq.
        by apply Forall_cons in Hsq as [_ ?].
      * intros st1 e hv [Hq1 Hh1'] _ _ [Hp|Hne] _; [congruence|]. simpl.
        split; [|done]. apply Forall_app. split; [done|]. by repeat constructor.
      * split; [done|]. by rewrite Hh'.
    + destruct Hr as (st1 & e & [Hq1 Hh1'] & _ & _ & _ & He & ->).
      * split; [|done]. simpl. rewrite Hperm in Hsq.
        by apply Forall_cons in Hsq as [_ ?].
      * intros st1 e hv [Hq1 Hh1'] _ _ [Hp|Hne] _; [congruence|]. simpl.
        split; [|done]. apply Forall_app. split; [done|]. by repeat constructor.
      * intros hist [= <-]. unfold snapshot at 1. rewrite Hh1'. simpl.
        eexists _, _. split; [done|]. split; [done|]. right. simpl.
        repeat split. rewrite fmap_app. simpl.
        eexists _, _. split; [done|]. split; [done|]. by apply goal_free_items.
Qed.

Lemma run_loop_pop_test fuel st r :
  is_priority (type this) = true → pop_test_inv this st →
  run_loop lc fd this fuel st = Some r → pop_test_post this r.
Proof.
  intros Hpq.
  apply (run_loop_rule lc fd this (pop_test_inv this) (pop_test_post this)).
  - intros st' [_ Hh] _ hist [= <-]. unfold snapshot. eexists _, _.
    split; [done|]. split; [done|]. left. eexists. split; [done|]. done.
  - intros st' Hinv Hq'. pose proof (run_iteration_pop_test st' Hpq Hinv Hq') as H.
    destruct (run_iteration lc fd this st'); [done|done|]. by intros ? [=].
Qed.

Lemma run_loop_push_test fuel st r :
  is_priority (type this) = false → push_test_inv this st →
  run_loop lc fd this fuel st = Some r → push_test_post this r.
Proof.
  intros Hpq.
  apply (run_loop_rule lc fd this (push_test_inv this) (push_test_post this)).
  - intros st' [Hq Hh] Hnil hist [= <-]. unfold snapshot. eexists _, _.
    split; [done|]. split; [done|]. left. simpl.
    repeat split; [done|done|]. by apply goal_free_items.
  - intros st' Hinv Hq'. pose proof (run_iteration_push_test st' Hpq Hinv Hq') as H.
    destruct (run_iteration lc fd this st'); [done|done|]. by intros ? [=].
Qed.

End GoalTest.

Lemma pop_test_inv_initial this q p a :
  pop_test_inv this (mkRunState q ∅ p 0 a []).
Proof. split; simpl; [set_solver|constructor]. Qed.

Lemma push_test_inv_initial this p v a :
  startId this ≠ endId this →
  push_test_inv this (mkRunState [Item.mk (startId this) 0 0 None 0] v p 0 a []).
Proof. intros Hne. split; simpl; [by repeat constructor|constructor]. Qed.

(** C4: in a BFS/DFS/Dijkstra/A* run with start different from goal, a
    [found] snapshot is the last one (the run stops). For Dijkstra and A*
    the snapshot after a pop is [found] exactly when the popped node is the
    goal, and every [found] snapshot follows the pop of the goal, whose
    item it no longer holds. For BFS and DFS a snapshot is [found] exactly
    when its frontier holds the goal, and then the goal is the item pushed
    last and the current node. *)
Theorem C4_goal_test_timing lc fd this hist :
  startId this ≠ endId this →
  type this ≠ BiBFS →
  new_GraphSearch lc fd this = Some (Ok hist) →
  (∀ i s, hist !! i = Some s → Snapshot.status s = found → S i = length hist) ∧
  (is_priority (type this) = true →
     (∀ i s, hist !! i = Some s → Snapshot.status s = exploring →
        (Snapshot.current s = Some (endId this) ↔
         ∃ t, hist !! S i = Some t ∧ Snapshot.status t = found)) ∧
     (∀ j t, hist !! j = Some t → Snapshot.status t = found →
        ∃ i s it, j = S i ∧ hist !! i = Some s ∧
          Snapshot.status s = exploring ∧ Snapshot.current s = Some (endId this) ∧
          Snapshot.current t = Some (endId this) ∧
          Item.id it = endId this ∧ Snapshot.queue s = EItem it :: Snapshot.queue t)) ∧
  (is_priority (type this) = false →
     ∀ i t, hist !! i = Some t →
        (Snapshot.status t = found ↔
         ∃ it, EItem it ∈ Snapshot.queue t ∧ Item.id it = endId this) ∧
        (Snapshot.status t = found →
         Snapshot.current t = Some (endId this) ∧
         ∃ q it, Snapshot.queue t = q ++ [EItem it] ∧ Item.id it = endId this ∧
                 goal_free (endId this) q)).
Proof.
  intros Hne Hty Hrun.
  assert (∃ adj0,
    run_loop lc fd this run_fuel
      (mkRunState [Item.mk (startId this) 0 0 None 0] ∅ ∅ 0 adj0 []) = Some (Ok hist))
    as [adj0 Hloop].
  { revert Hrun. unfold new_GraphSearch, run.
    destruct (buildAdjacency this) as [adj0|]; [|done].
    case_decide; [done|]. apply Z.eqb_neq in Hne. rewrite Hne. eauto. }
  destruct (is_priority (type this)) eqn:Hpq.
  - pose proof (run_loop_pop_test lc fd this _ _ _ Hpq
                  (pop_test_inv_initial this _ _ _) Hloop hist eq_refl)
      as (pre & tl & -> & Hpre & Htl).
    assert (∀ i s, pre !! i = Some s →
              Snapshot.status s = exploring ∧ Snapshot.current s ≠ Some (endId this))
      as Hpre'.
    { intros i s Hi. by eapply Forall_lookup_1 in Hpre. }
    destruct Htl as [(t & -> & Ht1 & Ht2)|(s & t & -> & Hs1 & Hs2 & Ht1 & Ht2 & Hit)].
    + split; [|split; [intros _; split|done]].
      * intros i s [Hi|[Hlen Hi]]%lookup_app_Some Hs.
        { apply Hpre' in Hi as [? _]. congruence. }
        apply list_lookup_singleton_Some in Hi as [_ <-]. done.
      * intros i s [Hi|[Hlen Hi]]%lookup_app_Some Hs.
        -- apply lookup_lt_Some in Hi as Hlt. apply Hpre' in Hi as [_ Hc].
           split; [done|]. intros (t' & Ht' & Hf).
           apply lookup_app_Some in Ht' as [Ht'|[Hlen' Ht']].
           ++ apply Hpre' in Ht' as [? _]. congruence.
           ++ apply list_lookup_singleton_Some in Ht' as [_ <-]. done.
        -- apply list_lookup_singleton_Some in Hi as [_ <-]. done.
      * intros j t' [Hj|[Hlen Hj]]%lookup_app_Some Hf.
        -- apply Hpre' in Hj as [? _]. congruence.
        -- apply list_lookup_singleton_Some in Hj as [_ <-]. done.
    + split; [|split; [intros _; split|done]].
      * intros i s' [Hi|[Hlen Hi]]%lookup_app_Some Hf.
        { apply Hpre' in Hi as [? _]. congruence. }
        rewrite length_app. simpl.
        destruct (i - length pre)%nat as [|[|k]] eqn:Hk; simplify_eq/=; [congruence|lia].
      * intros i s' [Hi|[Hlen Hi]]%lookup_app_Some Hs'.
        -- apply lookup_lt_Some in Hi as Hlt. apply Hpre' in Hi as [_ Hc].
           split; [done|]. intros (t' & Ht' & Hf).
           apply lookup_app_Some in Ht' as [Ht'|[Hlen' Ht']].
           ++ apply Hpre' in Ht' as [? _]. congruence.
           ++ destruct (S i - length pre)%nat as [|[|k]] eqn:Hk; simplify_eq/=;
                [congruence|lia].
        -- destruct (i - length pre)%nat as [|[|k]] eqn:Hk; simplify_eq/=; [|congruence].
           split; [intros _|done]. exists t. split; [|done].
           apply lookup_app_Some. right. split; [lia|].
           replace (S i - length pre)%nat with 1%nat by lia. done.
      * intros j t' [Hj|[Hlen Hj]]%lookup_app_Some Hf.
        { apply Hpre' in Hj as [? _]. congruence. }
        destruct (j - length pre)%nat as [|[|k]] eqn:Hk; simplify_eq/=; [congruence|].
        destruct Hit as (it & Hit1 & Hit2).
        exists (length pre), s, it. split; [lia|].
        split; [|done]. apply lookup_app_Some. right. split; [lia|].
        by rewrite Nat.sub_diag.
  - pose proof (run_loop_push_test lc fd this _ _ _ Hpq
                  (push_test_inv_initial this _ _ _ Hne) Hloop hist eq_refl)
      as (pre & t & -> & Hpre & Ht).
    assert (∀ i s, pre !! i = Some s →
              Snapshot.status s = exploring ∧ goal_free (endId this) (Snapshot.queue s))
      as Hpre'.
    { intros i s Hi. by eapply Forall_lookup_1 in Hpre. }
    split; [|split; [done|intros _]].
    + intros i s [Hi|[Hlen Hi]]%lookup_app_Some Hs.
      { apply Hpre' in Hi as [? _]. congruence. }
      apply list_lookup_singleton_Some in Hi as [Hi _].
      rewrite length_app. simpl. lia.
    + intros i s [Hi|[Hlen Hi]]%lookup_app_Some.
      * apply Hpre' in Hi as [Hs Hgf]. split; [|congruence].
        split; [congruence|]. intros (it & Hin & Hid). by apply Hgf in Hin.
      * apply list_lookup_singleton_Some in Hi as [_ <-].
        destruct Ht as [(Ht1 & Ht2 & Hgf)|(Ht1 & Ht2 & q & it & Hq & Hid & Hgf)].
        -- split; [|done]. split; [done|].
           intros (it & Hin & Hid). by apply Hgf in Hin.
        -- split; [|eauto 10]. split; [intros _|done].
           exists it. split; [|done]. rewrite Hq. set_solver.
Qed.

Lemma C4_goal_test_timing_witness :
  let this := search_args PRESETS.nonAdmissible AStar (mkOptions true Preset) in
  let hist := history_of (new_GraphSearch codeUnitCompare intFloorDistance this) in
  (∀ i s, hist !! i = Some s → Snapshot.status s = found → S i = length hist) ∧
  (is_priority (type this) = true →
     (∀ i s, hist !! i = Some s → Snapshot.status s = exploring →
        (Snapshot.current s = Some (endId this) ↔
         ∃ t, hist !! S i = Some t ∧ Snapshot.status t = found)) ∧
     (∀ j t, hist !! j = Some t → Snapshot.status t = found →
        ∃ i s it, j = S i ∧ hist !! i = Some s ∧
          Snapshot.status s = exploring ∧ Snapshot.current s = Some (endId this) ∧
          Snapshot.current t = Some (endId this) ∧
          Item.id it = endId this ∧ Snapshot.queue s = EItem it :: Snapshot.queue t)) ∧
  (is_priority (type this) = false →
     ∀ i t, hist !! i = Some t →
        (Snapshot.status t = found ↔
         ∃ it, EItem it ∈ Snapshot.queue t ∧ Item.id it = endId this) ∧
        (Snapshot.status t = found →
         Snapshot.current t = Some (endId this) ∧
         ∃ q it, Snapshot.queue t = q ++ [EItem it] ∧ Item.id it = endId this ∧
                 goal_free (endId this) q)).
Proof.
  apply (C4_goal_test_timing codeUnitCompare intFloorDistance
           (search_args PRESETS.nonAdmissible AStar (mkOptions true Preset))).
  - discriminate.
  - discriminate.
  - vm_compute. reflexivity.
Defined.

(** ** The parents map of the shared loop *)

Lemma hist_ok_snoc guard start hist s :
  hist_ok guard start hist → snap_ok guard start hist s →
  hist_ok guard start (hist ++ [s]).
Proof.
  intros Hh Hs i s' [Hi|[Hlen Hi]]%lookup_app_Some.
  - apply lookup_lt_Some in Hi as Hlt. rewrite take_app_le by lia. by apply Hh.
  - apply list_lookup_singleton_Some in Hi as [Hi <-].
    assert (i = length hist) as -> by lia.
    rewrite take_app_length. done.
Qed.

Lemma values_ok_mono vis vis' hist hist' par :
  vis ⊆ vis' → hist ⊆ hist' → values_ok vis hist par → values_ok vis' hist' par.
Proof.
  intros Hv Hh Hok k v Hkv. destruct (Hok k v Hkv) as (Hin & s & Hs & Hc).
  split; [by apply Hv|]. exists s. split; [by apply Hh|done].
Qed.

Lemma values_ok_insert vis hist par k v s :
  v ∈ vis → s ∈ hist →
  Snapshot.current s = Some v ∧ Snapshot.status s = exploring →
  values_ok vis hist par → values_ok vis hist (<[k := v]> par).
Proof.
  intros Hv Hs Hc Hok k' v' Hkv.
  destruct (decide (k = k')) as [->|Hne].
  - rewrite lookup_insert_eq in Hkv. simplify_eq. eauto.
  - rewrite lookup_insert_ne in Hkv by done. by eapply Hok.
Qed.

Section Parents.
Context (lc : string → string → Z) (fd : Node.t → Node.t → Z) (this : GraphSearch).

Lemma run_iteration_parents st :
  parents_inv this st → queue st ≠ [] →
  match run_iteration lc fd this st with
  | Continue st' => parents_inv this st'
  | Return hist => parents_post this (Ok hist)
  | Raise err => True
  end.
Proof.
  intros (Hhist & Hval & Hstart) Hq.
  assert (snap_ok (checkDuplicates (options this) = true) (startId this)
            (history st)
            (Snapshot.mk (EItem <$> sorted_queue this st) (visited st) (parents st)
               None limit_reached None None)) as Hsnap0.
  { split; simpl; [|done]. intros Hcd. by apply Hstart. }
  destruct (run_iteration_cases lc fd this st Hq) as
    [[Hlim ->]|(Hit & cur & Hcur & [(Hcd & Hv & ->)|(Hns & Hrest)])].
  - intros hist [= <-]. apply hist_ok_snoc; [done|].
    split; simpl; [|done]. intros Hcd. by apply Hstart.
  - (* the popped node is skipped *)
    assert (hist_ok (checkDuplicates (options this) = true) (startId this)
              (snapshot (history st) (sorted_queue this st) (visited st) (parents st)
                 (Some (Item.id cur)) exploring)) as Hh1.
    { apply hist_ok_snoc; [done|]. split; simpl; [|done]. intros ?. by apply Hstart. }
    split; [done|]. split; simpl.
    + eapply values_ok_mono; [done| |done]. unfold snapshot. set_solver.
    + intros _. destruct (Hstart Hcd) as [Hnone [Hin|(it & Hqit & Hid)]].
      * split; [done|]. by left.
      * split; [done|]. left.
        pose proof (sorted_queue_perm this st) as Hp. rewrite Hqit in Hp.
        apply Permutation_singleton_r in Hp. rewrite Hp in Hcur.
        assert (cur = it) as -> by (destruct (is_dfs _); by simplify_eq/=).
        by rewrite <- Hid.
  - (* the popped node is marked visited *)
    set (history1 := snapshot (history st) (sorted_queue this st) (visited st) (parents st)
                       (Some (Item.id cur)) exploring) in *.
    set (visited' := visited st ∪ {[Item.id cur]}) in *.
    assert (hist_ok (checkDuplicates (options this) = true) (startId this) history1)
      as Hh1.
    { apply hist_ok_snoc; [done|]. split; simpl; [|done]. intros ?. by apply Hstart. }
    assert (values_ok visited' history1 (parents st)) as Hval1.
    { eapply values_ok_mono; [| |done]; unfold visited', history1, snapshot; set_solver. }
    assert (∃ s, s ∈ history1 ∧
              (Snapshot.current s = Some (Item.id cur) ∧ Snapshot.status s = exploring))
      as (s1 & Hs1 & Hc1).
    { eexists. split; [|shelve]. unfold history1, snapshot.
      apply elem_of_app. right. apply list_elem_of_singleton. reflexivity.
      Unshelve. done. }
    assert (checkDuplicates (options this) = true →
            parents st !! startId this = None ∧ startId this ∈ visited') as Hstart1.
    { intros Hcd. destruct (Hstart Hcd) as [Hnone [Hin|(it & Hqit & Hid)]].
      - split; [done|]. unfold visited'. set_solver.
      - split; [done|].
        pose proof (sorted_queue_perm this st) as Hp. rewrite Hqit in Hp.
        apply Permutation_singleton_r in Hp. rewrite Hp in Hcur.
        assert (cur = it) as -> by (destruct (is_dfs _); by simplify_eq/=).
        unfold visited'. set_solver. }
    destruct Hrest as [(Hpq & Hend & ->)|(Hnf & [(err & Hsn & ->)|(nb & adj' & Hsn & ->)])];
      [| done |].
    + intros hist [= <-]. apply hist_ok_snoc; [done|].
      split; simpl; [|done]. intros ?. by apply Hstart1.
    + match goal with |- context [visit_neighbors fd this cur nb ?s] =>
        pose proof (visit_neighbors_rule fd this
          (λ st1, history st1 = history1 ∧ visited st1 = visited' ∧
                  values_ok visited' history1 (parents st1) ∧
                  (checkDuplicates (options this) = true →
                   parents st1 !! startId this = None)) cur nb s) as Hr;
        destruct (visit_neighbors fd this cur nb s) as [st'|hist|err] end; [| |done].
      * destruct Hr as (Hh' & Hv' & Hval' & Hst').
        { simpl. split; [done|]. split; [done|]. split; [done|].
          intros ?. by apply Hstart1. }
        { intros st1 e hv (Hh' & Hv' & Hval' & Hst') _ Hskip _ _. simpl.
          split; [done|]. split; [done|]. split.
          - eapply values_ok_insert; [|done|done|done]. unfold visited'. set_solver.
          - intros Hcd. rewrite lookup_insert_ne; [by apply Hst'|].
            intros Heq. unfold skips, has in Hskip. rewrite Hcd, Hv', Heq in Hskip.
            rewrite bool_decide_eq_true_2 in Hskip; [done|]. by apply Hstart1. }
        split; [by rewrite Hh'|]. split; [by rewrite Hh', Hv'|].
        intros Hcd. split; [by apply Hst'|]. left. rewrite Hv'. by apply Hstart1.
      * destruct Hr as (st1 & e & (Hh' & Hv' & Hval' & Hst') & _ & Hskip & _ & He & ->).
        { simpl. split; [done|]. split; [done|]. split; [done|].
          intros ?. by apply Hstart1. }
        { intros st1 e hv (Hh' & Hv' & Hval' & Hst') _ Hskip _ _. simpl.
          split; [done|]. split; [done|]. split.
          - eapply values_ok_insert; [|done|done|done]. unfold visited'. set_solver.
          - intros Hcd. rewrite lookup_insert_ne; [by apply Hst'|].
            intros Heq. unfold skips, has in Hskip. rewrite Hcd, Hv', Heq in Hskip.
            rewrite bool_decide_eq_true_2 in Hskip; [done|]. by apply Hstart1. }
        intros hist [= <-]. unfold snapshot at 1. rewrite Hh'.
        apply hist_ok_snoc; [done|]. split; simpl.
        -- intros Hcd. rewrite lookup_insert_ne; [by apply Hst'|].
           intros Heq. unfold skips, has in Hskip. rewrite Hcd, Hv', He, Heq in Hskip.
           rewrite bool_decide_eq_true_2 in Hskip; [done|]. by apply Hstart1.
        -- rewrite Hv'. eapply values_ok_insert; [|done|done|done].
           unfold visited'. set_solver.
Qed.

Lemma run_loop_parents fuel st r :
  parents_inv this st → run_loop lc fd this fuel st = Some r → parents_post this r.
Proof.
  apply (run_loop_rule lc fd this (parents_inv this) (parents_post this)).
  - intros st' (Hhist & Hval & Hstart) _ hist [= <-].
    apply hist_ok_snoc; [done|]. split; simpl; [|done]. intros ?. by apply Hstart.
  - intros st' Hinv Hq'. pose proof (run_iteration_parents st' Hinv Hq') as H.
    destruct (run_iteration lc fd this st'); [done|done|]. by intros ? [=].
Qed.

Lemma parents_inv_initial a :
  parents_inv this (mkRunState [Item.mk (startId this) 0 0 None 0] ∅ ∅ 0 a []).
Proof.
  split; [by intros i s Hi|]. split; [by intros k v Hkv|].
  intros _. simpl. split; [done|]. right. eauto.
Qed.

End Parents.

(** ** Proof rules for the bidirectional loop *)

Lemma expand_side_cons curr e l q v (p : gmap Z Z) :
  expand_side curr (e :: l) (q, v, p) =
  expand_side curr l
    (if has v (Adj.to e) then (q, v, p)
     else (q ++ [Adj.to e], v ∪ {[Adj.to e]}, <[Adj.to e := curr]> p)).
Proof. reflexivity. Qed.

(** What the expansion of one node does to a side: the neighbours not yet
    visited there, each once and in adjacency order, join the queue and
    the visited set and get [curr] as parent. *)
Lemma expand_side_spec curr l q v (p : gmap Z Z) q' v' p' :
  expand_side curr l (q, v, p) = (q', v', p') →
  ∃ new,
    q' = q ++ new ∧ v' = v ∪ list_to_set new ∧ NoDup new ∧
    (∀ x, x ∈ new ↔ x ∈ Adj.to <$> l ∧ x ∉ v) ∧
    (∀ k, p' !! k = if decide (k ∈ new) then Some curr else p !! k).
Proof.
  revert q v p. induction l as [|e l IH]; intros q v p.
  - intros [= <- <- <-]. exists []. rewrite app_nil_r. simpl.
    split; [done|]. split; [set_solver|]. split; [constructor|].
    split; [set_solver|]. done.
  - rewrite expand_side_cons. unfold has. case_bool_decide as Hv.
    + intros H. destruct (IH _ _ _ H) as (new & -> & -> & Hnd & Hnew & Hp).
      exists new. split; [done|]. split; [done|]. split; [done|]. split; [|done].
      intros x. rewrite Hnew. simpl. rewrite elem_of_cons.
      split; [intros [? ?]; auto|]. intros [[->|?] ?]; done.
    + intros H. destruct (IH _ _ _ H) as (new & -> & -> & Hnd & Hnew & Hp).
      exists (Adj.to e :: new). rewrite <- app_assoc. simpl.
      split; [done|]. split; [set_solver|]. split.
      { constructor; [|done]. rewrite Hnew. set_solver. }
      split.
      * intros x. simpl. rewrite !elem_of_cons, Hnew.
        destruct (decide (x = Adj.to e)) as [->|Hne]; [naive_solver|].
        rewrite elem_of_union, elem_of_singleton. naive_solver.
      * intros k. rewrite Hp. destruct (decide (k = Adj.to e)) as [->|Hne].
        -- rewrite lookup_insert_eq. rewrite (decide_True (P := _ ∈ _ :: _)) by (by left).
           by case_decide.
        -- rewrite lookup_insert_ne by done.
           destruct (decide (k ∈ new)) as [Hin|Hin].
           ++ by rewrite decide_True by (by right).
           ++ rewrite decide_False; [done|]. by intros [?|?]%elem_of_cons.
Qed.

(** The ways through one pass of the bidirectional loop body. *)
Lemma bibfs_iteration_cases adj st cs qS1 ce qE1 :
  qStart st = cs :: qS1 → qEnd st = ce :: qE1 →
  let snap1 := bi_snapshot qS1 (qEnd st) (visitedStart st) (visitedEnd st)
                 (parentStart st) (parentEnd st) cs SideStart in
  (cs ∈ visitedEnd st ∧
   bibfs_iteration adj st = Return (bi_history st ++ [mark_found cs snap1]))
  ∨
  ((cs ∉ visitedEnd st) ∧
   ∃ qS2 vS2 pS2,
     expand_side cs (default [] (adj !! cs)) (qS1, visitedStart st, parentStart st)
       = (qS2, vS2, pS2) ∧
     let snap2 := bi_snapshot qS2 qE1 vS2 (visitedEnd st) pS2 (parentEnd st) ce SideEnd in
     ( (ce ∈ vS2 ∧
        bibfs_iteration adj st =
          Return (bi_history st ++ [snap1; mark_found ce snap2]))
     ∨ ((ce ∉ vS2) ∧
        ∃ qE2 vE2 pE2,
          expand_side ce (default [] (adj !! ce)) (qE1, visitedEnd st, parentEnd st)
            = (qE2, vE2, pE2) ∧
          bibfs_iteration adj st =
            Continue (mkBiState qS2 qE2 vS2 vE2 pS2 pE2 (bi_iterations st + 1)
                        (bi_history st ++ [snap1; snap2]))))).
Proof.
  intros HqS HqE snap1. unfold bibfs_iteration. rewrite HqS, HqE. fold snap1.
  rewrite <- HqE. unfold has. case_bool_decide as Hcs.
  { left. by rewrite amend_last_snoc. }
  right. split; [done|].
  destruct (expand_side cs _ _) as [[qS2 vS2] pS2] eqn:HeS.
  exists qS2, vS2, pS2. split; [done|]. simpl.
  case_bool_decide as Hce.
  { left. split; [done|]. by rewrite amend_last_snoc, <- app_assoc. }
  right. split; [done|].
  destruct (expand_side ce _ _) as [[qE2 vE2] pE2] eqn:HeE.
  exists qE2, vE2, pE2. split; [done|]. by rewrite <- app_assoc.
Qed.

(** Invariant rule for the bidirectional loop. *)
Lemma bibfs_loop_rule adj (I : BiState → Prop) (Q : result History → Prop) :
  (∀ st, I st → qStart st = [] ∨ qEnd st = [] → Q (Ok (bi_history st))) →
  (∀ st, I st → qStart st ≠ [] → qEnd st ≠ [] →
         match bibfs_iteration adj st with
         | Continue st' => I st'
         | Return hist => Q (Ok hist)
         | Raise err => Q (Throw err)
         end) →
  ∀ fuel st r, I st → bibfs_loop adj fuel st = Some r → Q r.
Proof.
  intros Hexit Hbody fuel. induction fuel as [|fuel IH]; intros st r HI Hrun.
  - simpl in Hrun. destruct (qStart st) eqn:HqS; [simplify_eq; auto|].
    destruct (qEnd st) eqn:HqE; [simplify_eq; auto|done].
  - simpl in Hrun. destruct (qStart st) eqn:HqS; [simplify_eq; auto|].
    destruct (qEnd st) eqn:HqE; [simplify_eq; auto|].
    assert (qStart st ≠ []) as H1 by (by rewrite HqS).
    assert (qEnd st ≠ []) as H2 by (by rewrite HqE).
    specialize (Hbody st HI H1 H2).
    destruct (bibfs_iteration adj st); simplify_eq; eauto.
Qed.

Lemma bibfs_iteration_no_throw adj st :
  qStart st ≠ [] → qEnd st ≠ [] →
  ∀ err, bibfs_iteration adj st ≠ Raise err.
Proof.
  intros HqS HqE err.
  destruct (qStart st) as [|cs qS1] eqn:H1; [done|].
  destruct (qEnd st) as [|ce qE1] eqn:H2; [done|].
  destruct (bibfs_iteration_cases adj st cs qS1 ce qE1 H1 H2) as
    [[_ ->]|(_ & ? & ? & ? & _ & [[_ ->]|(_ & ? & ? & ? & _ & ->)])]; done.
Qed.

(** ** The bidirectional loop ends *)

Lemma buildAdjacency_targets this adj k i :
  buildAdjacency this = Ok adj → i ∈ targets adj k → i ∈ endpoints (edges this).
Proof.
  unfold buildAdjacency. fold (empty_adjacency (nodes this)). intros Hb. revert k i.
  revert Hb. apply (add_edges_rule (λ a,
    ∀ k i, i ∈ targets a k → i ∈ endpoints (edges this))).
  - intros k i. rewrite targets_empty_adjacency. by intros ?%elem_of_nil.
  - intros a e l1 l2 IH He H1 H2 k i.
    assert (Edge.source e ∈ endpoints (edges this) ∧
            Edge.target e ∈ endpoints (edges this)) as [Hs Ht].
    { unfold endpoints. rewrite !list_elem_of_bind.
      split; exists e; (split; [|done]); set_solver. }
    rewrite targets_push by done. case_decide.
    + rewrite elem_of_app, targets_push by done. simpl. rewrite list_elem_of_singleton.
      intros [Hi| ->]; [|done]. revert Hi. case_decide.
      * rewrite elem_of_app. simpl. rewrite list_elem_of_singleton.
        intros [Hi| ->]; [by eapply IH|done].
      * apply IH.
    + rewrite targets_push by done. case_decide.
      * rewrite elem_of_app. simpl. rewrite list_elem_of_singleton.
        intros [Hi| ->]; [by eapply IH|done].
      * apply IH.
Qed.

Lemma size_list_to_set_le (l : list Z) : (size (list_to_set l : gset Z) ≤ length l)%nat.
Proof.
  induction l as [|x l IH].
  - rewrite list_to_set_nil, size_empty. done.
  - rewrite list_to_set_cons, size_union_alt, size_singleton. simpl.
    assert (size (list_to_set l ∖ {[x]} : gset Z) ≤ size (list_to_set l : gset Z))%nat;
      [|lia].
    apply subseteq_size. set_solver.
Qed.

Lemma length_endpoints es : length (endpoints es) = (2 * length es)%nat.
Proof.
  unfold endpoints. induction es as [|e es IH]; [done|].
  rewrite bind_cons, length_app, IH. simpl. lia.
Qed.

Lemma size_new_nodes (U v : gset Z) (new : list Z) :
  NoDup new → (∀ x, x ∈ new → x ∈ U ∧ x ∉ v) →
  (size (U ∖ (v ∪ list_to_set new)) + length new = size (U ∖ v))%nat.
Proof.
  intros Hnd Hnew.
  assert (U ∖ v = (U ∖ (v ∪ list_to_set new)) ∪ list_to_set new) as ->.
  { apply set_eq. intros x.
    rewrite elem_of_union, !elem_of_difference, elem_of_union, elem_of_list_to_set.
    split.
    - intros [HU Hv]. destruct (decide (x ∈ new)); [by right|left].
      split; [done|]. by intros [?|?].
    - intros [[HU Hv]|Hin]; [|by apply Hnew]. split; [done|]. intros ?. apply Hv. by left. }
  rewrite (size_union (U ∖ (v ∪ list_to_set new)) (list_to_set new)).
  - by rewrite (size_list_to_set new).
  - intros y [_ Hy]%elem_of_difference Hin. apply Hy. by apply elem_of_union_r.
Qed.

Section BibfsFuel.
Context (this : GraphSearch) (adj : gmap Z (list Adj.t)).
Hypothesis adj_in_universe : ∀ k i, i ∈ targets adj k → i ∈ universe this.

Lemma bibfs_iteration_potential st :
  visitedStart st ⊆ universe this →
  qStart st ≠ [] → qEnd st ≠ [] →
  match bibfs_iteration adj st with
  | Continue st' =>
      visitedStart st' ⊆ universe this ∧ S (potential this st') = potential this st
  | _ => True
  end.
Proof.
  intros HU HqS HqE.
  destruct (qStart st) as [|cs qS1] eqn:H1; [done|].
  destruct (qEnd st) as [|ce qE1] eqn:H2; [done|].
  destruct (bibfs_iteration_cases adj st cs qS1 ce qE1 H1 H2) as
    [[_ ->]|(_ & qS2 & vS2 & pS2 & HeS & [[_ ->]|(_ & qE2 & vE2 & pE2 & _ & ->)])];
    [done|done|].
  apply expand_side_spec in HeS as (new & -> & -> & Hnd & Hnew & _).
  assert (∀ y, y ∈ new → y ∈ universe this ∧ y ∉ visitedStart st) as Hnew'.
  { intros y [Hy ?]%Hnew. split; [|done]. apply (adj_in_universe cs).
    unfold targets. done. }
  unfold potential. simpl. rewrite H1. simpl. split.
  - intros y [?|Hy%elem_of_list_to_set]%elem_of_union; [by apply HU|by apply Hnew'].
  - rewrite length_app. rewrite <- (size_new_nodes _ _ new Hnd Hnew'). lia.
Qed.

Lemma bibfs_loop_fuel fuel st :
  visitedStart st ⊆ universe this →
  (potential this st ≤ fuel)%nat →
  ∃ hist, bibfs_loop adj fuel st = Some (Ok hist).
Proof.
  revert st. induction fuel as [|fuel IH]; intros st HU Hpot.
  - assert (qStart st = []) as Hq.
    { unfold potential in Hpot. destruct (qStart st); [done|]. simpl in Hpot. lia. }
    simpl. rewrite Hq. eauto.
  - simpl. destruct (qStart st) as [|cs qS1] eqn:H1; [eauto|].
    destruct (qEnd st) as [|ce qE1] eqn:H2; [eauto|].
    assert (qStart st ≠ []) as HqS by (by rewrite H1).
    assert (qEnd st ≠ []) as HqE by (by rewrite H2).
    pose proof (bibfs_iteration_potential st HU HqS HqE) as Hstep.
    pose proof (bibfs_iteration_no_throw adj st HqS HqE) as Hnt.
    destruct (bibfs_iteration adj st) as [st'|hist|err]; [|eauto|by destruct (Hnt err)].
    destruct Hstep as [HU' Hpot']. apply IH; [done|lia].
Qed.

End BibfsFuel.

(** A bidirectional construction returns a history whenever the adjacency
    builds; the fuel given by [runBiBFS] is never used up. *)
Lemma runBiBFS_returns this adj :
  buildAdjacency this = Ok adj → ∃ hist, runBiBFS this adj = Some (Ok hist).
Proof.
  intros Hb. unfold runBiBFS. apply (bibfs_loop_fuel this).
  - intros k i Hi. apply elem_of_union. right. apply elem_of_list_to_set.
    by eapply buildAdjacency_targets.
  - simpl. unfold universe. set_solver.
  - unfold potential, bibfs_fuel, universe. simpl.
    assert (size (({[startId this]} ∪ list_to_set (endpoints (edges this)))
                    ∖ {[startId this]} : gset Z)
            ≤ size (list_to_set (endpoints (edges this)) : gset Z))%nat as H1.
    { apply subseteq_size. set_solver. }
    pose proof (size_list_to_set_le (endpoints (edges this))) as H2.
    rewrite length_endpoints in H2. lia.
Qed.

(** Every construction ends: it throws or returns a history. *)
Lemma new_GraphSearch_total lc fd this :
  ∃ r, new_GraphSearch lc fd this = Some r.
Proof.
  destruct (decide (type this = BiBFS)) as [Hty|Hty].
  - unfold new_GraphSearch, run.
    destruct (buildAdjacency this) as [adj|err] eqn:Hb; [|eauto].
    rewrite decide_True by done.
    destruct (runBiBFS_returns this adj Hb) as [hist ->]. eauto.
  - destruct (new_GraphSearch_shared lc fd this Hty) as (r & Hr & _). eauto.
Qed.

(** ** The two sides of the bidirectional loop *)

Lemma buildAdjacency_symmetric this adj :
  buildAdjacency this = Ok adj → adj_symmetric adj.
Proof.
  unfold buildAdjacency. fold (empty_adjacency (nodes this)).
  apply (add_edges_rule adj_symmetric).
  - intros a b. rewrite targets_empty_adjacency. by intros ?%elem_of_nil.
  - intros a e l1 l2 IH _ H1 H2 x y.
    rewrite !(targets_push _ (Edge.target e)) by done.
    rewrite !(targets_push _ (Edge.source e)) by done. simpl.
    unfold adj_symmetric in IH. clear H1 H2. destruct e as [s t w]. simpl.
    repeat case_decide; subst;
      rewrite ?elem_of_app, ?list_elem_of_singleton; naive_solver.
Qed.

Lemma reaches_ext p p' root x n :
  (∀ k y, p !! k = Some y → p' !! k = Some y) →
  reaches p root x n → reaches p' root x n.
Proof.
  intros Hext. induction 1 as [|x y n Hxy _ IH]; [constructor|].
  econstructor; [by apply Hext|done].
Qed.

Lemma sides_inv_swap adj rA rB qA vA pA qB vB pB :
  sides_inv adj rA rB qA vA pA qB vB pB → sides_inv adj rB rA qB vB pB qA vA pA.
Proof. intros (?&?&?&?). done. Qed.

Section Sides.
Context (adj : gmap Z (list Adj.t)).
Hypothesis adj_sym : adj_symmetric adj.

(** Expanding the head [c] of side A, which side B has not visited, keeps
    the invariant of the two sides. *)
Lemma sides_inv_expand rA rB c qA1 vA pA qB vB pB qA' vA' pA' :
  sides_inv adj rA rB (c :: qA1) vA pA qB vB pB →
  c ∉ vB →
  expand_side c (default [] (adj !! c)) (qA1, vA, pA) = (qA', vA', pA') →
  sides_inv adj rA rB qA' vA' pA' qB vB pB.
Proof.
  intros ((Hnd & Hq & Hroot & Hdom & Hval & Hclosed) & HB & HapA & HapB) Hc Hexp.
  apply expand_side_spec in Hexp as (new & -> & -> & Hndnew & Hnew & Hp).
  fold (targets adj c) in Hnew.
  apply NoDup_cons in Hnd as [Hc1 Hnd1].
  assert (c ∈ vA) as HcA by (apply Hq; by left).
  assert (∀ x, x ∈ new → x ∉ vA) as Hfresh by (intros x Hx; by apply Hnew in Hx as [_ ?]).
  assert (∀ k y, pA !! k = Some y → pA' !! k = Some y) as Hext.
  { intros k y Hk. rewrite Hp. rewrite decide_False; [done|].
    intros Hin. apply (Hfresh k Hin). apply Hdom. eauto. }
  assert (∃ n, reaches pA' rA c n) as Hreach.
  { destruct (decide (c = rA)) as [->|Hne]; [exists 0%nat; constructor|].
    destruct (proj2 (Hdom c) (conj HcA Hne)) as [y Hy].
    destruct (Hval c y Hy) as (_ & _ & n & Hn).
    exists (S n). econstructor; [by apply Hext|]. by eapply reaches_ext. }
  split; [|split; [done|split]].
  - split; [|split; [|split; [|split; [|split]]]].
    + apply NoDup_app. split; [done|]. split; [|done].
      intros x Hx1 Hx2. apply (Hfresh x Hx2). apply Hq. by right.
    + intros x [Hx|Hx]%elem_of_app.
      * apply elem_of_union_l. apply Hq. by right.
      * apply elem_of_union_r. by apply elem_of_list_to_set.
    + by apply elem_of_union_l.
    + intros k. rewrite Hp, elem_of_union, elem_of_list_to_set. case_decide as Hk.
      * split; [intros _|eauto]. split; [by right|].
        intros ->. by apply (Hfresh rA).
      * rewrite Hdom. split; [intros [? ?]; auto|]. intros [[?|?] ?]; done.
    + intros k x. rewrite Hp. case_decide as Hk.
      * intros [= <-]. split; [by apply elem_of_union_l|]. split; [|done].
        intros [?|Hx]%elem_of_app; [done|]. by apply (Hfresh c).
      * intros Hkx. destruct (Hval k x Hkx) as (Hx1 & Hx2 & n & Hn).
        split; [by apply elem_of_union_l|]. split.
        -- intros [?|Hx]%elem_of_app; [apply Hx2; by right|]. by apply (Hfresh x).
        -- exists n. by eapply reaches_ext.
    + intros y Hy Hyq n Hn.
      assert ((y ∉ qA1) ∧ y ∉ new) as [Hy1 Hy2].
      { split; intros ?; apply Hyq, elem_of_app; auto. }
      apply elem_of_union in Hy as [Hy|Hy]; [|by apply elem_of_list_to_set in Hy].
      destruct (decide (n ∈ vA)) as [|Hnv]; [by apply elem_of_union_l|].
      destruct (decide (y = c)) as [->|Hyc].
      * apply elem_of_union_r, elem_of_list_to_set, Hnew. done.
      * apply elem_of_union_l. apply (Hclosed y Hy); [|done].
        by intros [?|?]%elem_of_cons.
  - intros y Hy Hyq.
    assert ((y ∉ qA1) ∧ y ∉ new) as [Hy1 Hy2].
    { split; intros ?; apply Hyq, elem_of_app; auto. }
    apply elem_of_union in Hy as [Hy|Hy]; [|by apply elem_of_list_to_set in Hy].
    destruct (decide (y = c)) as [->|Hyc]; [done|].
    apply HapA; [done|]. by intros [?|?]%elem_of_cons.
  - intros z Hz Hzq [Hin|Hin%elem_of_list_to_set]%elem_of_union.
    + by apply (HapB z).
    + apply Hnew in Hin as [Hin _]. apply adj_sym in Hin.
      destruct HB as (_ & _ & _ & _ & _ & HclosedB).
      apply Hc. by apply (HclosedB z).
Qed.

End Sides.

(** ** The walk of [getPath] through the merged parents *)

Lemma walk_bibfs_shape fuel m start c path r :
  walk_bibfs fuel m start c path = Some r →
  ∃ pre, r = pre ++ path ∧ linked m pre ∧
         (c = start → pre = []) ∧ (c ≠ start → last pre = Some c).
Proof.
  revert c path r. induction fuel as [|fuel IH]; intros c path r; simpl.
  - destruct (c =? start) eqn:E; [|done]. apply Z.eqb_eq in E. intros [= <-].
    exists []. split; [done|]. split; [by intros j u v ?|]. done.
  - destruct (c =? start) eqn:E.
    { apply Z.eqb_eq in E. intros [= <-].
      exists []. split; [done|]. split; [by intros j u v ?|]. done. }
    apply Z.eqb_neq in E.
    assert (∃ pre, c :: path = pre ++ path ∧ linked m pre ∧
              (c = start → pre = []) ∧ (c ≠ start → last pre = Some c)) as Hstop.
    { exists [c]. split; [done|]. split; [|done]. by intros [|j] u v ? ?. }
    destruct (m !! c) as [p|] eqn:Hp; [|by intros [= <-]].
    destruct (p =? 0); [by intros [= <-]|].
    intros Hw. destruct (IH _ _ _ Hw) as (pre & -> & Hl & Hs & Hns).
    exists (pre ++ [c]). rewrite <- app_assoc. split; [done|].
    split; [|split; [done|intros _; by rewrite last_snoc]].
    intros j u v Hu Hv.
    apply lookup_app_Some in Hv as [Hv|[Hlen Hv]].
    + apply lookup_lt_Some in Hv as Hlt. rewrite lookup_app_l in Hu by lia.
      by eapply Hl.
    + apply list_lookup_singleton_Some in Hv as [Hj <-].
      assert (j = pred (length pre) ∧ (0 < length pre)%nat) as [-> Hpos] by lia.
      rewrite lookup_app_l in Hu by lia.
      rewrite <- last_lookup in Hu.
      destruct (decide (p = start)) as [->|Hne].
      * rewrite (Hs eq_refl) in Hpos. simpl in Hpos. lia.
      * rewrite (Hns Hne) in Hu. by simplify_eq.
Qed.

Lemma walk_bibfs_more fuel fuel' m start c path r :
  (fuel ≤ fuel')%nat →
  walk_bibfs fuel m start c path = Some r →
  walk_bibfs fuel' m start c path = Some r.
Proof.
  revert fuel' c path. induction fuel as [|fuel IH]; intros fuel' c path Hle; simpl.
  - destruct (c =? start) eqn:E; [|done]. intros [= <-].
    destruct fuel'; simpl; by rewrite E.
  - destruct fuel' as [|fuel']; [lia|]. simpl.
    destruct (c =? start); [done|].
    destruct (m !! c) as [p|]; [|done].
    destruct (p =? 0); [done|]. apply IH. lia.
Qed.

Section Walk.
Context (adj : gmap Z (list Adj.t)) (start goal : Z).
Context (qS : list Z) (vS : gset Z) (pS : gmap Z Z).
Context (qE : list Z) (vE : gset Z) (pE : gmap Z Z).
Hypothesis sides : sides_inv adj start goal qS vS pS qE vE pE.

Lemma parent_start_only k x : pS !! k = Some x → pE !! x = None.
Proof.
  destruct sides as ((_ & _ & _ & _ & HvalS & _) & (_ & _ & _ & HdomE & _) & HapS & _).
  intros Hk. destruct (HvalS k x Hk) as (Hx1 & Hx2 & _).
  apply eq_None_not_Some. intros [Hin _]%HdomE. by apply (HapS x).
Qed.

(** From a node without parent on the goal side the walk follows the start
    side, whose chains lead to the start. *)
Lemma walk_start_chain n x :
  reaches pS start x n → pE !! x = None →
  ∀ path, is_Some (walk_bibfs (S n) (pE ∪ pS) start x path).
Proof.
  induction 1 as [|x y n Hxy Hr IH]; intros HxE path.
  - simpl. rewrite Z.eqb_refl. eauto.
  - cbn [walk_bibfs]. destruct (x =? start); [eauto|].
    rewrite lookup_union_r by done. rewrite Hxy.
    destruct (y =? 0); [eauto|]. apply IH. by eapply parent_start_only.
Qed.

(** On the goal side the walk follows the chain to the goal and goes on,
    if the goal has a parent on the start side, along the start side. *)
Lemma walk_goal_chain n x :
  reaches pE goal x n →
  ∃ fuel, ∀ path, is_Some (walk_bibfs fuel (pE ∪ pS) start x path).
Proof.
  destruct sides as ((_ & _ & _ & _ & HvalS & _) & (_ & _ & _ & HdomE & _) & _).
  induction 1 as [|x z n Hxz Hr [fuel IH]].
  - assert (pE !! goal = None) as HgE.
    { apply eq_None_not_Some. by intros [_ ?]%HdomE. }
    destruct (pS !! goal) as [y|] eqn:Hy.
    + destruct (HvalS goal y Hy) as (_ & _ & ny & Hny).
      exists (S (S ny)). intros path. cbn [walk_bibfs].
      destruct (goal =? start); [eauto|].
      rewrite lookup_union_r, Hy by done.
      destruct (y =? 0); [eauto|].
      apply walk_start_chain; [done|]. by eapply parent_start_only.
    + exists 1%nat. intros path. cbn [walk_bibfs].
      destruct (goal =? start); [eauto|].
      rewrite lookup_union_r, Hy by done. eauto.
  - exists (S fuel). intros path. cbn [walk_bibfs].
    destruct (x =? start); [eauto|].
    rewrite (lookup_union_Some_l _ _ _ _ Hxz).
    destruct (z =? 0); [eauto|]. apply IH.
Qed.

Lemma walk_from_intersection i :
  i ∈ vE →
  ∃ fuel, ∀ path, is_Some (walk_bibfs fuel (pE ∪ pS) start i path).
Proof.
  intros Hi.
  destruct sides as (_ & (_ & _ & _ & HdomE & HvalE & _) & _).
  destruct (decide (i = goal)) as [->|Hne].
  - apply (walk_goal_chain 0). constructor.
  - destruct (proj2 (HdomE i) (conj Hi Hne)) as [z Hz].
    destruct (HvalE i z Hz) as (_ & _ & n & Hn).
    apply (walk_goal_chain (S n)). by econstructor.
Qed.

(** With the start out of its queue, or the goal side untouched, the
    start has no parent on either side. *)
Lemma start_has_no_parent :
  start ∉ qS ∨ vE = {[goal]} → (pE ∪ pS) !! start = None.
Proof.
  destruct sides as ((_ & _ & HrootS & HdomS & _) & (_ & _ & _ & HdomE & _) & HapS & _).
  intros Hor. apply lookup_union_None. split.
  - apply eq_None_not_Some. intros [Hin Hne]%HdomE.
    destruct Hor as [Hq| ->]; [by apply (HapS start)|].
    by apply elem_of_singleton in Hin.
  - apply eq_None_not_Some. by intros [_ ?]%HdomS.
Qed.

End Walk.

(** ** Invariant of the bidirectional loop *)

Lemma snoc_two {A} (l : list A) a b : l ++ [a; b] = (l ++ [a]) ++ [b].
Proof. by rewrite <- app_assoc. Qed.

Lemma snap_ok_mark_found guard start before i s :
  snap_ok guard start before s → snap_ok guard start before (mark_found i s).
Proof. done. Qed.

Section BiInv.
Context (adj : gmap Z (list Adj.t)) (this : GraphSearch).
Hypothesis adj_sym : adj_symmetric adj.

Lemma bi_snapshot_ok hist qS vS pS qE vE pE q1 q2 c side :
  sides_inv adj (startId this) (endId this) qS vS pS qE vE pE →
  startId this ∉ qS ∨ vE = {[endId this]} →
  (∀ k x, (pE ∪ pS) !! k = Some x →
          ∃ s, s ∈ hist ∧ Snapshot.current s = Some x ∧ Snapshot.status s = exploring) →
  snap_ok True (startId this) hist (bi_snapshot q1 q2 vS vE pS pE c side).
Proof.
  intros Hsides Hor Hcur. split; simpl.
  - intros _. by eapply start_has_no_parent.
  - intros k x Hk. split; [|by eapply Hcur].
    destruct Hsides as ((_ & _ & _ & _ & HvalS & _) & (_ & _ & _ & _ & HvalE & _) & _).
    apply lookup_union_Some_raw in Hk as [Hk|[_ Hk]].
    + apply elem_of_union_r. by apply (HvalE k x).
    + apply elem_of_union_l. by apply (HvalS k x).
Qed.

Lemma bibfs_iteration_inv st :
  bi_inv adj this st → qStart st ≠ [] → qEnd st ≠ [] →
  match bibfs_iteration adj st with
  | Continue st' => bi_inv adj this st'
  | Return hist => bi_post this (Ok hist)
  | Raise _ => False
  end.
Proof.
  intros (Hsides & Hextra & Hhist & Hexpl & Hcur) HqS HqE.
  destruct (qStart st) as [|cs qS1] eqn:H1; [done|].
  destruct (qEnd st) as [|ce qE1] eqn:H2; [done|].
  assert (startId this ∉ cs :: qS1 ∨ visitedEnd st = {[endId this]}) as Hextra'.
  { destruct Hextra as [?|[_ ?]]; auto. }
  pose proof (λ q1 q2 c side,
    bi_snapshot_ok (bi_history st) _ _ _ _ _ _ q1 q2 c side Hsides Hextra' Hcur) as Hsnap1.
  assert (ce ∈ visitedEnd st) as HceE.
  { destruct Hsides as (_ & (_ & Hq & _) & _). apply Hq. by left. }
  assert (cs ∈ visitedStart st) as HcsS.
  { destruct Hsides as ((_ & Hq & _) & _). apply Hq. by left. }
  destruct (bibfs_iteration_cases adj st cs qS1 ce qE1 H1 H2) as
    [[Hcs ->]|(Hcs & qS2 & vS2 & pS2 & HeS & Hrest)].
  - (* the start side meets the goal side *)
    intros hist [= <-]. split.
    + apply hist_ok_snoc; [done|]. apply snap_ok_mark_found, Hsnap1.
    + exists (bi_history st). split; [done|]. right. eexists. split; [done|].
      split; [done|]. exists cs. simpl. split; [done|]. split; [done|].
      split; [by apply elem_of_union_l|].
      by eapply walk_from_intersection.
  - pose proof (sides_inv_expand adj adj_sym _ _ _ _ _ _ _ _ _ _ _ _
                  Hsides Hcs HeS) as Hsides2.
    apply expand_side_spec in HeS as (new & -> & -> & _ & Hnew & HpS2).
    assert (startId this ∉ qS1 ++ new) as Hstart2.
    { destruct Hsides as ((_ & _ & Hroot & _) & _).
      intros [Hin|Hin]%elem_of_app.
      - destruct Hextra as [Hout|[Hq _]].
        + apply Hout. by right.
        + simplify_eq. by apply elem_of_nil in Hin.
      - apply Hnew in Hin as [_ ?]. done. }
    set (snap1 := bi_snapshot qS1 (qEnd st) (visitedStart st) (visitedEnd st)
                    (parentStart st) (parentEnd st) cs SideStart) in *.
    assert (∀ k x, (parentEnd st ∪ pS2) !! k = Some x →
              ∃ s, s ∈ bi_history st ++ [snap1] ∧ Snapshot.current s = Some x ∧
                   Snapshot.status s = exploring) as Hcur2.
    { intros k x Hk.
      assert ((parentEnd st ∪ parentStart st) !! k = Some x ∨ x = cs) as [Hold| ->].
      { apply lookup_union_Some_raw in Hk as [Hk|[Hn Hk]].
        - left. by apply lookup_union_Some_l.
        - rewrite HpS2 in Hk. case_decide; [right; by simplify_eq|].
          left. by rewrite lookup_union_r. }
      - destruct (Hcur k x Hold) as (s & Hs & Hc). exists s. split; [|done].
        by apply elem_of_app; left.
      - exists snap1. split; [|done]. apply elem_of_app. right. by left. }
    assert (hist_ok True (startId this) (bi_history st ++ [snap1])) as Hhist1.
    { apply hist_ok_snoc; [done|]. apply Hsnap1. }
    pose proof (λ q1 q2 c side,
      bi_snapshot_ok (bi_history st ++ [snap1]) _ _ _ _ _ _ q1 q2 c side
        Hsides2 (or_introl Hstart2) Hcur2) as Hsnap2.
    assert (Forall (λ s, Snapshot.status s = exploring) (bi_history st ++ [snap1]))
      as Hexpl1.
    { apply Forall_app. split; [done|]. by repeat constructor. }
    cbv zeta in Hrest.
    destruct Hrest as [[Hce ->]|(Hce & qE2 & vE2 & pE2 & HeE & ->)].
    + (* the goal side meets the start side *)
      intros hist [= <-].
      rewrite snoc_two. split.
      * apply hist_ok_snoc; [done|]. apply snap_ok_mark_found, Hsnap2.
      * eexists. split; [exact Hexpl1|]. right. eexists. split; [done|].
        split; [done|]. exists ce. simpl. split; [done|]. split; [done|].
        split; [by apply elem_of_union_r|].
        by eapply walk_from_intersection.
    + pose proof (sides_inv_swap _ _ _ _ _ _ _ _ _
                    (sides_inv_expand adj adj_sym _ _ _ _ _ _ _ _ _ _ _ _
                       (sides_inv_swap _ _ _ _ _ _ _ _ _ Hsides2) Hce HeE)) as Hsides3.
      apply expand_side_spec in HeE as (newE & -> & -> & _ & HnewE & HpE2).
      set (snap2 := bi_snapshot (qS1 ++ new) qE1 (visitedStart st ∪ list_to_set new)
                      (visitedEnd st) pS2 (parentEnd st) ce SideEnd) in *.
      split; [exact Hsides3|]. split; [by left|]. simpl.
      rewrite snoc_two. split; [|split].
      * apply hist_ok_snoc; [done|]. apply Hsnap2.
      * apply Forall_app. split; [done|]. by repeat constructor.
      * intros k x Hk.
        assert ((parentEnd st ∪ pS2) !! k = Some x ∨ x = ce) as [Hold| ->].
        { apply lookup_union_Some_raw in Hk as [Hk|[Hn Hk]].
          - rewrite HpE2 in Hk. case_decide; [right; by simplify_eq|].
            left. by apply lookup_union_Some_l.
          - rewrite HpE2 in Hn. case_decide; [done|].
            left. by rewrite lookup_union_r. }
        -- destruct (Hcur2 k x Hold) as (s & Hs & Hc). exists s. split; [|done].
           by apply elem_of_app; left.
        -- exists snap2. split; [|done]. apply elem_of_app. right. by left.
Qed.

Lemma bibfs_loop_inv fuel st r :
  bi_inv adj this st → bibfs_loop adj fuel st = Some r → bi_post this r.
Proof.
  apply (bibfs_loop_rule adj (bi_inv adj this) (bi_post this)).
  - intros st' (_ & _ & Hhist & Hexpl & _) _ hist [= <-].
    split; [done|]. exists (bi_history st'). split; [done|]. by left.
  - intros st' Hinv H1 H2. pose proof (bibfs_iteration_inv st' Hinv H1 H2) as H.
    destruct (bibfs_iteration adj st'); done.
Qed.

Lemma bi_inv_initial :
  bi_inv adj this
    (mkBiState [startId this] [endId this] {[startId this]} {[endId this]} ∅ ∅ 0 []).
Proof.
  assert (∀ root, side_inv adj root [root] {[root]} ∅) as Hside.
  { intros root. split; [apply NoDup_singleton|].
    split; [intros x ->%list_elem_of_singleton; by apply elem_of_singleton|].
    split; [by apply elem_of_singleton|].
    split; [|split].
    - intros k. rewrite lookup_empty, elem_of_singleton.
      split; [by intros [? [=]]|]. by intros [-> ?].
    - intros k x. by rewrite lookup_empty.
    - intros y ->%elem_of_singleton Hy. exfalso. apply Hy. by left. }
  split; [|split; [|split; [|split]]]; simpl.
  - split; [apply Hside|]. split; [apply Hside|].
    split; intros y ->%elem_of_singleton Hy; exfalso; apply Hy; by left.
  - by right.
  - by intros i s Hi.
  - constructor.
  - intros k x. rewrite lookup_union_Some_raw, !lookup_empty. by intros [?|[_ ?]].
Qed.

End BiInv.

(** The history of a bidirectional construction. *)
Lemma new_GraphSearch_bibfs lc fd this :
  type this = BiBFS →
  ∃ r, new_GraphSearch lc fd this = Some r ∧ bi_post this r.
Proof.
  intros Hty. unfold new_GraphSearch, run.
  destruct (buildAdjacency this) as [adj|err] eqn:Hb;
    [|eexists; split; [done|by intros ? [=]]].
  rewrite decide_True by done.
  destruct (runBiBFS_returns this adj Hb) as [hist Hrun].
  exists (Ok hist). split; [done|]. revert Hrun. unfold runBiBFS.
  apply bibfs_loop_inv.
  - by eapply buildAdjacency_symmetric.
  - apply bi_inv_initial.
Qed.

(** ** The parents map in the snapshots *)

Lemma hist_ok_lookup guard start hist i s :
  hist_ok guard start hist → hist !! i = Some s →
  (guard → Snapshot.parents s !! start = None) ∧
  (∀ k v, Snapshot.parents s !! k = Some v →
     v ∈ Snapshot.visited s ∧
     ∃ j s', (j < i)%nat ∧ hist !! j = Some s' ∧
             Snapshot.current s' = Some v ∧ Snapshot.status s' = exploring).
Proof.
  intros Hok Hi. destruct (Hok i s Hi) as [Hstart Hval]. split; [done|].
  intros k v Hkv. destruct (Hval k v Hkv) as (Hv & s' & Hs' & Hc).
  split; [done|]. apply list_elem_of_lookup in Hs' as [j Hj].
  apply lookup_take_Some in Hj as [Hj Hlt]. eauto 10.
Qed.

Lemma hist_ok_weaken (guard guard' : Prop) start hist :
  (guard' → guard) → hist_ok guard start hist → hist_ok guard' start hist.
Proof.
  intros Hg Hok i s Hi. destruct (Hok i s Hi) as [Hs Hv]. split; [auto|done].
Qed.

(** C6 (as the code has it): in every snapshot of a run with duplicate
    suppression enabled, and of every bidirectional run, the parents map
    has no entry for the start node; in every snapshot of every run, the
    value of every entry is a visited node that is the current node of an
    earlier pop snapshot of the same run. *)
Theorem C6_parents lc fd this hist :
  new_GraphSearch lc fd this = Some (Ok hist) →
  ∀ i s, hist !! i = Some s →
    (checkDuplicates (options this) = true ∨ type this = BiBFS →
     Snapshot.parents s !! startId this = None) ∧
    (∀ k v, Snapshot.parents s !! k = Some v →
       v ∈ Snapshot.visited s ∧
       ∃ j s', (j < i)%nat ∧ hist !! j = Some s' ∧
               Snapshot.current s' = Some v ∧ Snapshot.status s' = exploring).
Proof.
  intros Hrun.
  assert (hist_ok (checkDuplicates (options this) = true ∨ type this = BiBFS)
            (startId this) hist) as Hok.
  { destruct (decide (type this = BiBFS)) as [Hty|Hty].
    - destruct (new_GraphSearch_bibfs lc fd this Hty) as (r & Hr & Hpost).
      rewrite Hrun in Hr. simplify_eq.
      destruct (Hpost hist eq_refl) as [Hok _].
      by eapply hist_ok_weaken; [|exact Hok].
    - eapply (hist_ok_weaken (checkDuplicates (options this) = true)).
      { by intros [?|?]. }
      revert Hrun. unfold new_GraphSearch, run.
      destruct (buildAdjacency this) as [a|]; [|done].
      rewrite decide_False by done.
      destruct (startId this =? endId this).
      + intros [= <-]. intros [|i] s Hi; simplify_eq/=.
        split; [done|]. by intros k v Hkv.
      + intros Hloop.
        by apply (run_loop_parents lc fd this _ _ _ (parents_inv_initial this a) Hloop). }
  intros i s Hi. by apply (hist_ok_lookup _ _ _ _ _ Hok).
Qed.

Lemma C6_parents_witness :
  let this := search_args Examples.path4 BFS (mkOptions true Euclidean) in
  let hist := history_of (new_GraphSearch codeUnitCompare intFloorDistance this) in
  let s := default (Snapshot.mk [] ∅ ∅ None exploring None None) (hist !! 2%nat) in
  (checkDuplicates (options this) = true ∨ type this = BiBFS →
   Snapshot.parents s !! startId this = None) ∧
  (∀ k v, Snapshot.parents s !! k = Some v →
     v ∈ Snapshot.visited s ∧
     ∃ j s', (j < 2)%nat ∧ hist !! j = Some s' ∧
             Snapshot.current s' = Some v ∧ Snapshot.status s' = exploring).
Proof.
  apply (C6_parents codeUnitCompare intFloorDistance
           (search_args Examples.path4 BFS (mkOptions true Euclidean))).
  - vm_compute. reflexivity.
  - vm_compute. reflexivity.
Defined.

(** C6, counterexample: BFS without duplicate suppression on S - A; the
    third snapshot records A as the parent of the start S. *)
Lemma C6_start_gets_parent :
  ∃ s,
    history_of (Examples.search Examples.ping_pong BFS (mkOptions false Euclidean))
      !! 2%nat = Some s ∧
    Snapshot.parents s !! g_start Examples.ping_pong = Some 2.
Proof. eexists. split; vm_compute; reflexivity. Qed.

(** ** Path reconstruction after a bidirectional run *)

(** C9 (as the code has it): after a BiBFS run that ends [found] with
    intersection node i, [getPath] walks from i through the single merged
    parents map of the snapshot until it meets the start or a node without
    (truthy) parent, puts the start in front and returns that sequence. The
    walk ends; the sequence begins with the start, ends with i, and its
    nodes after the start are linked by the merged map. Nothing is
    reconstructed from i to the goal. *)
Theorem C9_bibfs_path lc fd this hist s :
  type this = BiBFS →
  new_GraphSearch lc fd this = Some (Ok hist) →
  last hist = Some s →
  Snapshot.status s = found →
  ∃ i fuel chain,
    Snapshot.intersect s = Some i ∧
    (∀ fuel', (fuel ≤ fuel')%nat →
       getPath fuel' BiBFS (graph_of this) s = Some (startId this :: chain)) ∧
    last (startId this :: chain) = Some i ∧
    linked (Snapshot.parents s) chain.
Proof.
  intros Hty Hrun Hlast Hfound.
  destruct (new_GraphSearch_bibfs lc fd this Hty) as (r & Hr & Hpost).
  rewrite Hrun in Hr. simplify_eq.
  destruct (Hpost hist eq_refl) as (_ & pre & Hpre & [->|(t & -> & Hok)]).
  { apply last_Some_elem_of in Hlast.
    eapply Forall_forall in Hpre; [|done]. congruence. }
  rewrite last_snoc in Hlast. simplify_eq.
  destruct Hok as (_ & i & Hi & _ & _ & fuel & Hwalk).
  destruct (Hwalk []) as [r Hr].
  destruct (walk_bibfs_shape _ _ _ _ _ _ Hr) as (chain & -> & Hlinked & Hs & Hns).
  rewrite app_nil_r in Hr.
  exists i, fuel, chain. split; [done|]. split; [|split; [|done]].
  - intros fuel' Hle. unfold getPath. rewrite decide_True by done.
    rewrite Hi. simpl. by rewrite (walk_bibfs_more _ _ _ _ _ _ _ Hle Hr).
  - destruct (decide (i = startId this)) as [->|Hne].
    + by rewrite (Hs eq_refl).
    + specialize (Hns Hne). destruct chain; [done|].
      by rewrite last_cons, Hns.
Qed.

Lemma C9_bibfs_path_witness :
  let this := search_args Examples.path4 BiBFS (mkOptions true Euclidean) in
  let hist := history_of (new_GraphSearch codeUnitCompare intFloorDistance this) in
  let s := default (Snapshot.mk [] ∅ ∅ None exploring None None) (last hist) in
  ∃ i fuel chain,
    Snapshot.intersect s = Some i ∧
    (∀ fuel', (fuel ≤ fuel')%nat →
       getPath fuel' BiBFS (graph_of this) s = Some (startId this :: chain)) ∧
    last (startId this :: chain) = Some i ∧
    linked (Snapshot.parents s) chain.
Proof.
  apply (C9_bibfs_path codeUnitCompare intFloorDistance
           (search_args Examples.path4 BiBFS (mkOptions true Euclidean))
           (history_of (new_GraphSearch codeUnitCompare intFloorDistance
              (search_args Examples.path4 BiBFS (mkOptions true Euclidean))))).
  - reflexivity.
  - vm_compute. reflexivity.
  - vm_compute. reflexivity.
  - reflexivity.
Defined.

(** C9, counterexample: on the path S - A - B - E the run ends [found] at
    B; the merged map gives B the parent E, and [getPath] returns S, E, B:
    the sequence does not end at the goal E and S, E is not an edge. *)
Lemma C9_path_not_complete :
  ∃ s,
    last (history_of (Examples.search Examples.path4 BiBFS (mkOptions true Euclidean)))
      = Some s ∧
    Snapshot.status s = found ∧
    Snapshot.intersect s = Some 3 ∧
    Snapshot.parents s !! 3 = Some 4 ∧
    getPath 4 BiBFS Examples.path4 s = Some [1; 4; 3] ∧
    last [1; 4; 3] ≠ Some (g_end Examples.path4) ∧
    find_edge (g_edges Examples.path4) 1 4 = None.
Proof.
  eexists. split; [vm_compute; reflexivity|].
  repeat split; try (vm_compute; reflexivity). discriminate.
Qed.

(** ** The nonAdmissible preset *)

(** C8 (as the code has it): A* with duplicate suppression on the
    nonAdmissible preset ends [found]; the goal is popped with accumulated
    cost 103; the path read from the parents is G, C, B, S, through B and
    not through A, and its cost is 103 = 2 + 100 + 1, against 4 = 1 + 2 + 1
    for the path through A. *)
Theorem C8_nonAdmissible_path :
  ∃ hist before s,
    Examples.search PRESETS.nonAdmissible AStar (mkOptions true Preset) = Some (Ok hist) ∧
    hist !! 3%nat = Some before ∧
    head (Snapshot.queue before) = Some (EItem (Item.mk 4 103 103 (Some 0) 3)) ∧
    Snapshot.current before = Some 4 ∧
    last hist = Some s ∧
    Snapshot.status s = found ∧
    getPath 5 AStar PRESETS.nonAdmissible s = Some [4; 3; 2; 0] ∧
    currentCost (g_edges PRESETS.nonAdmissible) [4; 3; 2; 0] = 103 ∧
    currentCost (g_edges PRESETS.nonAdmissible) [4; 3; 1; 0] = 4.
Proof.
  eexists _, _, _. split; [vm_compute; reflexivity|].
  repeat split; vm_compute; reflexivity.
Qed.

(** C8, counterexample: the cost of the path found is not 102. *)
Lemma C8_cost_is_not_102 :
  ∃ hist s path,
    Examples.search PRESETS.nonAdmissible AStar (mkOptions true Preset) = Some (Ok hist) ∧
    last hist = Some s ∧
    Snapshot.status s = found ∧
    getPath 5 AStar PRESETS.nonAdmissible s = Some path ∧
    currentCost (g_edges PRESETS.nonAdmissible) path ≠ 102.
Proof.
  eexists _, _, _. split; [vm_compute; reflexivity|].
  split; [vm_compute; reflexivity|]. split; [reflexivity|].
  split; [vm_compute; reflexivity|]. vm_compute. discriminate.
Qed.

(** ** Bidirectional BFS and the options *)

(** C10: a BiBFS construction does not depend on the options; in
    particular the history is the same with duplicate suppression on and
    off. The visited set of a side does the suppression: expanding a node
    appends to the queue of its side only neighbours that side has not
    visited, each of them once. *)
Theorem C10_bibfs_ignores_options lc fd ns es s e (opts1 opts2 : Options) :
  new_GraphSearch lc fd (mkGraphSearch ns es s e BiBFS opts1) =
  new_GraphSearch lc fd (mkGraphSearch ns es s e BiBFS opts2)
  ∧
  ∀ curr l q v (p : gmap Z Z),
    ∃ new,
      (expand_side curr l (q, v, p)).1.1 = q ++ new ∧
      NoDup new ∧
      ∀ x, x ∈ new → x ∈ Adj.to <$> l ∧ x ∉ v.
Proof.
  split; [reflexivity|].
  intros curr l q v p.
  destruct (expand_side curr l (q, v, p)) as [[q' v'] p'] eqn:Hexp.
  apply expand_side_spec in Hexp as (new & -> & _ & Hnd & Hnew & _).
  exists new. split; [done|]. split; [done|]. intros x Hx. by apply Hnew.
Qed.

Lemma C10_bibfs_ignores_options_witness :
  Examples.search Examples.path4 BiBFS (mkOptions true Euclidean) =
  Examples.search Examples.path4 BiBFS (mkOptions false Preset)
  ∧
  ∃ new,
    (expand_side 1 [Adj.mk 2 1; Adj.mk 3 1; Adj.mk 2 1] ([], {[1; 3]}, ∅)).1.1
      = [] ++ new ∧
    NoDup new ∧
    ∀ x, x ∈ new → x ∈ Adj.to <$> [Adj.mk 2 1; Adj.mk 3 1; Adj.mk 2 1] ∧ x ∉ ({[1; 3]} : gset Z).
Proof.
  destruct (C10_bibfs_ignores_options codeUnitCompare intFloorDistance
              (g_nodes Examples.path4) (g_edges Examples.path4) 1 4
              (mkOptions true Euclidean) (mkOptions false Preset)) as [H1 H2].
  split; [exact H1|]. apply H2.
Defined.

(** On the path S - A - B - E the two settings of the option give the same
    four snapshots. *)
Lemma path4_bibfs_same_history :
  Examples.search Examples.path4 BiBFS (mkOptions true Euclidean) =
  Examples.search Examples.path4 BiBFS (mkOptions false Preset)
  ∧
  statuses (history_of (Examples.search Examples.path4 BiBFS (mkOptions false Preset)))
    = [exploring; exploring; exploring; found].
Proof. split; [reflexivity|]. vm_compute. reflexivity. Qed.

(** ** Terminal snapshots *)

(** Every history of the shared loop is [exploring* terminal]. *)
Lemma shared_loop_well_terminated lc fd this hist :
  type this ≠ BiBFS →
  new_GraphSearch lc fd this = Some (Ok hist) →
  well_terminated (statuses hist).
Proof.
  intros Hty Hrun. destruct (new_GraphSearch_shared lc fd this Hty) as (r & Hr & Hpost).
  rewrite Hrun in Hr. simplify_eq. by apply shape_post_statuses.
Qed.

(** A bidirectional history is [exploring*], followed by [found] when the
    two sides met; no other terminal snapshot is ever recorded. *)
Lemma bibfs_statuses lc fd this hist :
  type this = BiBFS →
  new_GraphSearch lc fd this = Some (Ok hist) →
  ∃ n, statuses hist = replicate n exploring ∨
       statuses hist = replicate n exploring ++ [found].
Proof.
  intros Hty Hrun. destruct (new_GraphSearch_bibfs lc fd this Hty) as (r & Hr & Hpost).
  rewrite Hrun in Hr. simplify_eq.
  destruct (Hpost hist eq_refl) as (_ & pre & Hpre & Hhist).
  assert (statuses pre = replicate (length pre) exploring) as Hst.
  { clear Hhist. induction Hpre as [|s pre Hs _ IH]; simpl; [done|].
    unfold statuses in *. by rewrite Hs, IH. }
  exists (length pre). destruct Hhist as [->|(t & -> & Hfound & _)]; [by left|right].
  unfold statuses in *. by rewrite fmap_app, Hst; simpl; rewrite Hfound.
Qed.

(** C1, at the failing input: on two nodes without an edge the BiBFS
    history is two [exploring] snapshots and nothing else; the last
    snapshot is not terminal. The shared loop on the same graph ends with
    [failed]. *)
Theorem C1_bibfs_ends_exploring :
  statuses (history_of (Examples.search Examples.apart BiBFS (mkOptions true Euclidean)))
    = [exploring; exploring] ∧
  ¬ well_terminated [exploring; exploring] ∧
  statuses (history_of (Examples.search Examples.apart BFS (mkOptions true Euclidean)))
    = [exploring; failed].
Proof.
  split; [reflexivity|]. split; [|reflexivity].
  intros (n & t & Heq & Ht).
  destruct n as [|[|[|n]]]; simplify_eq/=.
Qed.

(** * Further properties *)

(** ** What the adjacency holds *)

Lemma neighbors_of_push adj k l a x :
  adj !! k = Some l →
  neighbors_of (<[k := l ++ [a]]> adj) x =
  if decide (x = k) then neighbors_of adj k ++ [a] else neighbors_of adj x.
Proof.
  intros Hk. unfold neighbors_of. case_decide as Hx.
  - subst x. by rewrite lookup_insert_eq, Hk.
  - by rewrite lookup_insert_ne.
Qed.

Lemma add_edges_entries es adj adj' :
  add_edges es adj = Ok adj' →
  ∀ x a, a ∈ neighbors_of adj' x ↔
         a ∈ neighbors_of adj x ∨
         ∃ e, e ∈ es ∧
              ((x = Edge.source e ∧ a = Adj.mk (Edge.target e) (Edge.weight e)) ∨
               (x = Edge.target e ∧ a = Adj.mk (Edge.source e) (Edge.weight e))).
Proof.
  revert adj. induction es as [|e es IH]; intros adj; simpl.
  - intros [= <-] x a. split; [auto|]. intros [?|(e & He & _)]; [done|].
    by apply elem_of_nil in He.
  - destruct (adj_push adj _ _) as [adj1|] eqn:H1; [|done].
    destruct (adj_push adj1 _ _) as [adj2|] eqn:H2; [|done].
    apply adj_push_Ok in H1 as (l1 & Hl1 & ->).
    apply adj_push_Ok in H2 as (l2 & Hl2 & ->).
    intros Hadd x a. rewrite (IH _ Hadd x a).
    rewrite (neighbors_of_push _ _ _ _ x Hl2), (neighbors_of_push _ _ _ _ x Hl1).
    rewrite (neighbors_of_push _ _ _ _ (Edge.target e) Hl1).
    clear Hl1 Hl2 Hadd IH. setoid_rewrite elem_of_cons.
    destruct e as [s t w]. simpl.
    repeat case_decide; subst;
      rewrite ?elem_of_app, ?list_elem_of_singleton;
      (split;
       [ intros [Hin|(e' & He' & Hor)];
         [ destruct_or?;
           [ by left
           | right; eexists (Edge.mk _ _ _); split; [left; reflexivity|simpl; auto] .. ]
         | right; exists e'; split; [by right|done] ]
       | intros [Hin|(e' & [->|He'] & Hor)]; simpl in *; naive_solver ]).
Qed.

Lemma neighbors_of_empty_adjacency ns k : neighbors_of (empty_adjacency ns) k = [].
Proof.
  unfold neighbors_of. rewrite empty_adjacency_lookup. by destruct (find_node ns k).
Qed.

Lemma buildAdjacency_entries this adj x b w :
  buildAdjacency this = Ok adj →
  Adj.mk b w ∈ neighbors_of adj x ↔
  ∃ e, e ∈ edges this ∧ Edge.weight e = w ∧ joins e x b.
Proof.
  unfold buildAdjacency. fold (empty_adjacency (nodes this)). intros Hb.
  rewrite (add_edges_entries _ _ _ Hb), neighbors_of_empty_adjacency.
  split.
  - intros [?%elem_of_nil|(e & He & Hor)]; [done|]. exists e. split; [done|].
    unfold joins. destruct Hor as [[-> [= -> ->]]|[-> [= -> ->]]]; auto.
  - intros (e & He & <- & Hj). right. exists e. split; [done|].
    destruct Hj as [[<- <-]|[<- <-]]; auto.
Qed.

Lemma buildAdjacency_targets_iff this adj a b :
  buildAdjacency this = Ok adj →
  b ∈ targets adj a ↔ adjacent (edges this) a b.
Proof.
  intros Hb. unfold targets. fold (neighbors_of adj a). rewrite list_elem_of_fmap.
  split.
  - intros ([b' w] & -> & Hin). simpl.
    apply (buildAdjacency_entries this adj a b' w Hb) in Hin as (e & He & _ & Hj).
    by exists e.
  - intros (e & He & Hj). exists (Adj.mk b (Edge.weight e)). split; [done|].
    apply (buildAdjacency_entries this adj a b _ Hb). eauto.
Qed.

Lemma forallb_false_elem {A} (f : A → bool) (l : list A) :
  forallb f l = false → ∃ x, x ∈ l ∧ f x = false.
Proof.
  induction l as [|x l IH]; simpl; [done|].
  destruct (f x) eqn:Hx; simpl.
  - intros (y & Hy & Hf)%IH. exists y. split; [by right|done].
  - intros _. exists x. split; [by left|done].
Qed.

(** X1: the adjacency builds exactly when every edge mentions ids of
    nodes; otherwise the constructor throws a TypeError. *)
Theorem X1_buildAdjacency_succeeds_iff this :
  ((∃ adj, buildAdjacency this = Ok adj) ↔ edges_wellformed this = true) ∧
  (buildAdjacency this = Throw TypeError ↔ edges_wellformed this = false).
Proof.
  assert (edges_wellformed this = false → buildAdjacency this = Throw TypeError) as Hbad.
  { unfold edges_wellformed. intros (e & He & Hfalse)%forallb_false_elem.
    apply (buildAdjacency_Throw this e); [done|].
    apply andb_false_iff in Hfalse as [H|H]; [left|right];
      unfold has_node in H; by destruct (find_node _ _). }
  split; split.
  - intros [adj Hadj]. destruct (edges_wellformed this) eqn:E; [done|].
    rewrite (Hbad eq_refl) in Hadj. done.
  - intros Hwf. by apply buildAdjacency_Ok, edges_wellformed_spec.
  - intros Hthrow. destruct (edges_wellformed this) eqn:E; [|done].
    destruct (buildAdjacency_Ok this (edges_wellformed_spec this E)) as [adj Hadj].
    congruence.
  - apply Hbad.
Qed.

(** X2: in a built adjacency the keys are the node ids, and the list of a
    node [a] holds the entry [{to: b, weight: w}] exactly when an edge of
    weight [w] joins [a] and [b] in either direction; so the entry for [b]
    under [a] comes with the entry for [a] under [b]. *)
Theorem X2_adjacency_contents this adj :
  buildAdjacency this = Ok adj →
  (∀ k, is_Some (adj !! k) ↔ is_Some (find_node (nodes this) k)) ∧
  (∀ a b w, Adj.mk b w ∈ neighbors_of adj a ↔
            ∃ e, e ∈ edges this ∧ Edge.weight e = w ∧ joins e a b) ∧
  (∀ a b w, Adj.mk b w ∈ neighbors_of adj a → Adj.mk a w ∈ neighbors_of adj b).
Proof.
  intros Hb. split; [intros k; by apply buildAdjacency_dom|]. split.
  - intros a b w. by apply buildAdjacency_entries.
  - intros a b w. rewrite !(buildAdjacency_entries this adj _ _ _ Hb).
    intros (e & He & Hw & Hj). exists e. split; [done|]. split; [done|].
    unfold joins in *. tauto.
Qed.

Lemma X2_adjacency_contents_witness :
  let this := search_args Examples.same BFS (mkOptions true Euclidean) in
  let adj : gmap Z (list Adj.t) :=
    <[2 := [Adj.mk 1 1]]> (<[1 := [Adj.mk 2 1]]> (<[2 := []]> (<[1 := []]> ∅))) in
  (∀ k, is_Some (adj !! k) ↔ is_Some (find_node (nodes this) k)) ∧
  (∀ a b w, Adj.mk b w ∈ neighbors_of adj a ↔
            ∃ e, e ∈ edges this ∧ Edge.weight e = w ∧ joins e a b) ∧
  (∀ a b w, Adj.mk b w ∈ neighbors_of adj a → Adj.mk a w ∈ neighbors_of adj b).
Proof.
  apply (X2_adjacency_contents (search_args Examples.same BFS (mkOptions true Euclidean))).
  reflexivity.
Defined.

(** ** Found and failed against reachability *)

Lemma final_status_snapshot hist q v p c s :
  final_status (snapshot hist q v p c s) = Some s.
Proof. unfold final_status, snapshot. by rewrite last_snoc. Qed.

Section Reach.
Context (lc : string → string → Z) (fd : Node.t → Node.t → Z) (this : GraphSearch).
Context (adj0 : gmap Z (list Adj.t)).
Hypothesis adj0_edges : ∀ a b, b ∈ targets adj0 a ↔ adjacent (edges this) a b.

(** After the neighbour loop every neighbour is visited or queued, and
    nothing has left the queue. *)
Lemma visit_neighbors_covers cur nb st :
  match visit_neighbors fd this cur nb st with
  | Continue st' =>
      (∀ i, i ∈ queue_ids (queue st) → i ∈ queue_ids (queue st')) ∧
      (∀ e, e ∈ nb → Adj.to e ∈ visited st ∨ Adj.to e ∈ queue_ids (queue st'))
  | _ => True
  end.
Proof.
  revert st. induction nb as [|edge nb IH]; intros st; simpl.
  { split; [done|]. by intros e ?%elem_of_nil. }
  fold (skips this st edge).
  assert (∀ st1,
    (∀ i, i ∈ queue_ids (queue st) → i ∈ queue_ids (queue st1)) →
    visited st1 = visited st →
    Adj.to edge ∈ visited st ∨ Adj.to edge ∈ queue_ids (queue st1) →
    match visit_neighbors fd this cur nb st1 with
    | Continue st' =>
        (∀ i, i ∈ queue_ids (queue st) → i ∈ queue_ids (queue st')) ∧
        (∀ e, e ∈ edge :: nb →
              Adj.to e ∈ visited st ∨ Adj.to e ∈ queue_ids (queue st'))
    | _ => True
    end) as Hnext.
  { intros st1 Hsub Hvis Hedge. specialize (IH st1).
    destruct (visit_neighbors fd this cur nb st1) as [st'| |]; [|done|done].
    destruct IH as [IH1 IH2]. split; [auto|].
    intros e [->|He]%elem_of_cons.
    - destruct Hedge as [?|?]; auto.
    - rewrite <- Hvis. auto. }
  destruct (skips this st edge) eqn:Hskip.
  - apply Hnext; [done|done|].
    unfold skips in Hskip. apply andb_prop in Hskip as [_ Hor].
    apply orb_prop in Hor as [Hv|Hq].
    + left. unfold has in Hv. by apply bool_decide_eq_true in Hv.
    + right. apply existsb_exists in Hq as (it & Hit & Heq).
      apply Z.eqb_eq in Heq. rewrite <- Heq.
      apply list_elem_of_fmap_2. by apply list_elem_of_In.
  - destruct (negb (is_priority (type this)) && (Adj.to edge =? endId this)); [done|].
    destruct (if decide (type this = AStar) then _ else _) as [hValue|err]; [|done].
    apply Hnext; simpl.
    + intros i Hi. unfold queue_ids. rewrite fmap_app. apply elem_of_app. by left.
    + done.
    + right. unfold queue_ids. rewrite fmap_app. apply elem_of_app. right. by left.
Qed.

Lemma popped_ids st cur :
  (if is_dfs (type this) then last (sorted_queue this st)
   else head (sorted_queue this st)) = Some cur →
  queue_ids (queue st) ≡ₚ
  Item.id cur :: queue_ids (if is_dfs (type this)
                            then removelast (sorted_queue this st)
                            else tail (sorted_queue this st)).
Proof.
  intros Hcur. apply pick_pop in Hcur. unfold queue_ids.
  etrans; [apply fmap_Permutation; symmetry; apply (sorted_queue_perm this st)|].
  etrans; [apply fmap_Permutation, Hcur|]. done.
Qed.

Lemma neighbours_adjacent st cur nb adj' :
  (∀ k, targets (adj st) k ≡ₚ targets adj0 k) →
  sorted_neighbors lc this (adj st) cur = Ok (nb, adj') →
  (∀ k, targets adj' k ≡ₚ targets adj0 k) ∧
  (∀ w, w ∈ Adj.to <$> nb ↔ adjacent (edges this) cur w).
Proof.
  intros Hperm Hsn. apply sorted_neighbors_perm in Hsn as [Hnb Hadj].
  split; [intros k; by rewrite Hadj|].
  intros w. rewrite <- adj0_edges, <- Hperm. unfold targets. by rewrite Hnb.
Qed.

Lemma run_iteration_reach st :
  reach_inv this adj0 st → queue st ≠ [] →
  match run_iteration lc fd this st with
  | Continue st' => reach_inv this adj0 st'
  | Return hist => reach_post this (Ok hist)
  | Raise err => True
  end.
Proof.
  intros (Hq & Hv & Hstart & Hclosed & Hperm & Hgoal & Hgq) Hne.
  destruct (run_iteration_cases lc fd this st Hne) as
    [[Hlim ->]|(Hit & cur & Hcur & Hrest)].
  { intros hist [= <-]. rewrite final_status_snapshot. by split. }
  pose proof (popped_ids st cur Hcur) as Hids. cbv zeta in Hrest.
  set (queue2 := if is_dfs (type this) then removelast (sorted_queue this st)
                 else tail (sorted_queue this st)) in *.
  assert (∀ i, i ∈ queue_ids (queue st) ↔ i = Item.id cur ∨ i ∈ queue_ids queue2) as Hin.
  { intros i. by rewrite Hids, elem_of_cons. }
  assert (connected (edges this) (startId this) (Item.id cur)) as Hcc.
  { apply Hq, Hin. by left. }
  destruct Hrest as [(Hcd & Hvis & ->)|(Hns & [(Hpq & Hend & ->)|
         (Hnf & [(err & Hsn & ->)|(nb & adj' & Hsn & ->)])])].
  - (* skipped *)
    split; [|split; [|split; [|split; [|split; [|split]]]]]; simpl; try done.
    + intros i Hi. apply Hq, Hin. by right.
    + destruct Hstart as [?|[->|?]%Hin]; auto.
    + intros u w Hu Hadj. destruct (Hclosed u w Hu Hadj) as [?|[->|?]%Hin]; auto.
    + intros Hpq Hg. apply (Hgq Hpq), Hin. by right.
  - (* the goal is popped *)
    intros hist [= <-]. rewrite final_status_snapshot. split; [|done].
    intros _. by rewrite <- Hend.
  - done.
  - (* expansion *)
    assert (Item.id cur ≠ endId this) as Hcg.
    { destruct (is_priority (type this)) eqn:Hpq; [by intros ?; apply Hnf|].
      intros Heq. apply (Hgq eq_refl), Hin. by left. }
    destruct (neighbours_adjacent st (Item.id cur) nb adj' Hperm Hsn) as [Hperm' Hnb].
    match goal with |- context [visit_neighbors fd this cur nb ?s] =>
      pose proof (visit_neighbors_covers cur nb s) as Hcov;
      pose proof (visit_neighbors_frame fd this cur nb s) as Hfr;
      pose proof (visit_neighbors_rule fd this
        (λ st1, (∀ i, i ∈ queue_ids (queue st1) →
                      connected (edges this) (startId this) i) ∧
                (is_priority (type this) = false →
                 endId this ∉ queue_ids (queue st1))) cur nb s) as Hr;
      destruct (visit_neighbors fd this cur nb s) as [st'|hist|err] end; [| |done].
    + simpl in *. destruct Hfr as (_ & Hv' & _ & Ha'). destruct Hcov as [Hsub Hcov].
      destruct Hr as [Hq' Hgq'].
      { split.
        - intros i Hi. apply Hq, Hin. by right.
        - intros Hpq Hg. apply (Hgq Hpq), Hin. by right. }
      { intros st1 e hv [Hq1 Hg1] He _ Hor _. simpl. unfold queue_ids.
        split.
        - intros i. rewrite fmap_app, elem_of_app. simpl.
          rewrite list_elem_of_singleton. intros [Hi| ->]; [by apply Hq1|].
          eapply rtc_r; [exact Hcc|]. apply Hnb. by apply list_elem_of_fmap_2.
        - intros Hpq. rewrite fmap_app, elem_of_app. simpl.
          rewrite list_elem_of_singleton. intros [Hi|Heq]; [by apply Hg1|].
          destruct Hor as [?|?]; congruence. }
      split; [done|]. rewrite Hv', Ha'.
      split; [|split; [|split; [|split; [done|split; [|done]]]]].
      * intros v [?| ->%elem_of_singleton]%elem_of_union; auto.
      * destruct Hstart as [?|[->|?]%Hin].
        -- left. by apply elem_of_union_l.
        -- left. by apply elem_of_union_r, elem_of_singleton.
        -- right. by apply Hsub.
      * intros u w [Hu| ->%elem_of_singleton]%elem_of_union Hadj.
        -- destruct (Hclosed u w Hu Hadj) as [?|[->|?]%Hin].
           ++ left. by apply elem_of_union_l.
           ++ left. by apply elem_of_union_r, elem_of_singleton.
           ++ right. by apply Hsub.
        -- apply Hnb in Hadj. apply list_elem_of_fmap in Hadj as (e & -> & He).
           by apply Hcov.
      * intros [?|?%elem_of_singleton]%elem_of_union; [done|congruence].
    + destruct Hr as (st1 & e & _ & He & _ & _ & Hto & ->).
      { split.
        - intros i Hi. apply Hq, Hin. by right.
        - intros Hpq Hg. apply (Hgq Hpq), Hin. by right. }
      { intros st1 e hv [Hq1 Hg1] He _ Hor _. simpl. unfold queue_ids.
        split.
        - intros i. rewrite fmap_app, elem_of_app. simpl.
          rewrite list_elem_of_singleton. intros [Hi| ->]; [by apply Hq1|].
          eapply rtc_r; [exact Hcc|]. apply Hnb. by apply list_elem_of_fmap_2.
        - intros Hpq. rewrite fmap_app, elem_of_app. simpl.
          rewrite list_elem_of_singleton. intros [Hi|Heq]; [by apply Hg1|].
          destruct Hor as [?|?]; congruence. }
      intros hist [= <-]. rewrite final_status_snapshot. split; [|done].
      intros _. eapply rtc_r; [exact Hcc|]. apply Hnb. rewrite <- Hto.
      by apply list_elem_of_fmap_2.
Qed.

Lemma run_loop_reach fuel st r :
  reach_inv this adj0 st → run_loop lc fd this fuel st = Some r → reach_post this r.
Proof.
  apply (run_loop_rule lc fd this (reach_inv this adj0) (reach_post this)).
  - intros st' (Hq & Hv & Hstart & Hclosed & _ & Hgoal & _) Hnil hist [= <-].
    rewrite final_status_snapshot. split; [done|]. intros _ Hconn.
    rewrite Hnil in Hstart, Hclosed.
    assert (∀ x, connected (edges this) (startId this) x → x ∈ visited st') as Hall.
    { unfold connected. apply (rtc_ind_r (λ x, x ∈ visited st')).
      - destruct Hstart as [?|?%elem_of_nil]; done.
      - intros x y _ Hadj IH.
        destruct (Hclosed x y IH Hadj) as [?|?%elem_of_nil]; done. }
    by apply Hgoal, Hall.
  - intros st' Hinv Hq'. pose proof (run_iteration_reach st' Hinv Hq') as H.
    destruct (run_iteration lc fd this st'); [done|done|]. by intros ? [=].
Qed.

End Reach.

(** What the last status of a run on the shared loop says about the graph. *)
Lemma shared_run_reachability lc fd this hist :
  type this ≠ BiBFS →
  new_GraphSearch lc fd this = Some (Ok hist) →
  (final_status hist = Some found →
   connected (edges this) (startId this) (endId this)) ∧
  (final_status hist = Some failed →
   ¬ connected (edges this) (startId this) (endId this)).
Proof.
  intros Hty. unfold new_GraphSearch, run.
  destruct (buildAdjacency this) as [a|] eqn:Hb; [|done].
  rewrite decide_False by done.
  destruct (startId this =? endId this) eqn:Heq.
  - apply Z.eqb_eq in Heq. intros [= <-]. rewrite final_status_snapshot.
    split; [|done]. intros _. rewrite Heq. apply rtc_refl.
  - apply Z.eqb_neq in Heq. intros Hloop.
    apply (run_loop_reach lc fd this a (λ x y, buildAdjacency_targets_iff this a x y Hb)
             _ _ _) in Hloop; [by apply Hloop|].
    split; [|split; [|split; [|split; [|split; [|split]]]]]; simpl.
    + intros i ->%list_elem_of_singleton. apply rtc_refl.
    + by intros v ?%elem_of_empty.
    + right. by left.
    + by intros u w ?%elem_of_empty.
    + done.
    + by intros ?%elem_of_empty.
    + intros _ ?%list_elem_of_singleton. done.
Qed.

(** X3: a BFS/DFS/Dijkstra/A* run, whatever its options, ends [found] only
    when the goal can be reached from the start along edges, and ends
    [failed] only when it cannot. *)
Theorem X3_found_failed_reachability lc fd this hist :
  type this ≠ BiBFS →
  new_GraphSearch lc fd this = Some (Ok hist) →
  (final_status hist = Some found →
   connected (edges this) (startId this) (endId this)) ∧
  (final_status hist = Some failed →
   ¬ connected (edges this) (startId this) (endId this)).
Proof. apply shared_run_reachability. Qed.

(** ** Levels of the breadth-first tree *)

Lemma reaches_insert_fresh p root k c x n :
  p !! k = None → reaches p root x n → reaches (<[k := c]> p) root x n.
Proof.
  intros Hk. apply reaches_ext. intros k' y Hk'.
  rewrite lookup_insert_ne; [done|]. intros ->. congruence.
Qed.

Lemma reaches_unique p root x n m :
  p !! root = None → reaches p root x n → reaches p root x m → n = m.
Proof.
  intros Hroot Hn. revert m. induction Hn as [|x y n Hxy Hn IH]; intros m Hm.
  - inversion Hm as [|? ? ? Hp]; [done|congruence].
  - inversion Hm as [|? y' m' Hp Hm']; subst; [congruence|].
    f_equal. apply IH. congruence.
Qed.

Section Levels.
Context (this : GraphSearch) (q : list Item.t) (V : gset Z) (p : gmap Z Z).
Hypothesis core : tree_core this q V p.

Lemma core_root_None : p !! startId this = None.
Proof.
  destruct core as (Hdom & _). apply eq_None_not_Some. by intros [_ ?]%Hdom.
Qed.

Lemma core_has_level v :
  v ∈ V ∨ v ∈ queue_ids q → ∃ n, reaches p (startId this) v n.
Proof.
  destruct core as (Hdom & _ & Hval & _). intros Hv.
  destruct (decide (v = startId this)) as [->|Hne]; [exists 0%nat; constructor|].
  destruct (proj2 (Hdom v) (conj Hv Hne)) as [u Hu].
  destruct (Hval v u Hu) as (_ & _ & n & Hn). exists (S n). by econstructor.
Qed.

Lemma core_level_known v n :
  reaches p (startId this) v n → v ∈ V ∨ v ∈ queue_ids q.
Proof.
  destruct core as (Hdom & Hst & _). intros Hn.
  inversion Hn as [|? y ? Hp]; subst; [done|].
  by destruct (proj1 (Hdom v) (mk_is_Some _ _ Hp)).
Qed.

Lemma core_queue_level it n :
  it ∈ q → reaches p (startId this) (Item.id it) n → Z.of_nat n = Item.pathLength it.
Proof.
  destruct core as (_ & _ & _ & Hlen). intros Hit Hn.
  destruct (Hlen it Hit) as [H0 Hr].
  rewrite (reaches_unique _ _ _ _ _ core_root_None Hn Hr). lia.
Qed.

Lemma core_fresh_key x : x ∉ V → x ∉ queue_ids q → p !! x = None ∧ x ≠ startId this.
Proof.
  destruct core as (Hdom & Hst & _). intros HV HQ. split.
  - apply eq_None_not_Some. intros [[?|?] _]%Hdom; done.
  - intros ->. by destruct Hst.
Qed.

(** A fresh key does not change the level of a known node. *)
Lemma core_level_stable x c v n :
  x ∉ V → x ∉ queue_ids q → v ∈ V ∨ v ∈ queue_ids q →
  reaches (<[x := c]> p) (startId this) v n → reaches p (startId this) v n.
Proof.
  intros HV HQ Hv Hn. destruct (core_fresh_key x HV HQ) as [Hx Hxs].
  destruct (core_has_level v Hv) as [n0 Hn0].
  assert (n = n0) as ->; [|done].
  apply (reaches_unique (<[x := c]> p) (startId this) v); [|done|].
  - rewrite lookup_insert_ne by done. apply core_root_None.
  - by apply reaches_insert_fresh.
Qed.

Lemma level_mid_exit cur :
  level_mid this cur q V p →
  0 ≤ Item.pathLength cur →
  reaches p (startId this) (Item.id cur) (Z.to_nat (Item.pathLength cur)) →
  (∀ w, adjacent (edges this) (Item.id cur) w → w ∈ V ∨ w ∈ queue_ids q) →
  level_inv this q V p.
Proof.
  intros (Hsort & Hrange & Hvis & Hnb) H0 Hcur Hcov.
  split; [done|]. split; [|split].
  - intros a b Ha Hb. pose proof (Hrange a Ha). pose proof (Hrange b Hb). lia.
  - intros v n it Hv Hn Hit. pose proof (Hvis v n Hv Hn). pose proof (Hrange it Hit). lia.
  - intros u w m Hu Hadj Hm. destruct (decide (u = Item.id cur)) as [->|Hne].
    + rewrite (reaches_unique _ _ _ _ _ core_root_None Hm Hcur).
      destruct (core_has_level w (Hcov w Hadj)) as [n Hn]. exists n. split; [done|].
      destruct (Hcov w Hadj) as [Hw|(it & -> & Hit)%list_elem_of_fmap].
      * pose proof (Hvis w n Hw Hn). lia.
      * pose proof (core_queue_level it n Hit Hn). pose proof (Hrange it Hit). lia.
    + by apply (Hnb u w m).
Qed.

(** While [cur] is expanded, a walk from the start either stays on known
    levels or is longer than the level of [cur]. *)
Lemma level_mid_walk cur k x :
  level_mid this cur q V p →
  reaches p (startId this) (Item.id cur) (Z.to_nat (Item.pathLength cur)) →
  nsteps (adjacent (edges this)) k (startId this) x →
  (∃ n, reaches p (startId this) x n ∧ (n ≤ k)%nat) ∨
  (Z.to_nat (Item.pathLength cur) + 1 ≤ k)%nat.
Proof.
  intros (Hsort & Hrange & Hvis & Hnb) Hcur. revert x.
  induction k as [|k IH]; intros x Hwalk.
  - inversion Hwalk; subst. left. exists 0%nat. split; [constructor|done].
  - apply nsteps_inv_r in Hwalk as (y & Hy & Hyx).
    destruct (IH y Hy) as [(n & Hn & Hle)|?]; [|right; lia].
    destruct (decide (y = Item.id cur)) as [->|Hne].
    { right. rewrite (reaches_unique _ _ _ _ _ core_root_None Hcur Hn). lia. }
    destruct (core_level_known y n Hn) as [HyV|(it & -> & Hit)%list_elem_of_fmap].
    + destruct (Hnb y x n HyV Hne Hyx Hn) as (n' & Hn' & Hle'). left. exists n'.
      split; [done|lia].
    + right. pose proof (core_queue_level it n Hit Hn). pose proof (Hrange it Hit). lia.
Qed.

Lemma level_mid_found cur g k :
  level_mid this cur q V p →
  reaches p (startId this) (Item.id cur) (Z.to_nat (Item.pathLength cur)) →
  g ∉ V → g ∉ queue_ids q →
  nsteps (adjacent (edges this)) k (startId this) g →
  (S (Z.to_nat (Item.pathLength cur)) ≤ k)%nat.
Proof.
  intros Hmid Hcur HV HQ Hwalk.
  destruct (level_mid_walk cur k g Hmid Hcur Hwalk) as [(n & Hn & _)|?]; [|lia].
  by destruct (core_level_known g n Hn).
Qed.

End Levels.

Lemma by_level_snoc q it :
  by_level q → (∀ a, a ∈ q → Item.pathLength a ≤ Item.pathLength it) →
  by_level (q ++ [it]).
Proof.
  intros Hsort Hmax i j a b Hij Ha Hb.
  apply lookup_snoc_Some in Hb as [[Hj Hb]|[Hj <-]].
  - apply lookup_snoc_Some in Ha as [[_ Ha]|[Hi _]]; [|lia]. by apply (Hsort i j).
  - apply lookup_snoc_Some in Ha as [[_ Ha]|[_ <-]]; [|done].
    apply Hmax. by eapply list_elem_of_lookup_2.
Qed.

Lemma level_mid_enter this st cur q2 :
  tree_core this (queue st) (visited st) (parents st) →
  level_inv this (queue st) (visited st) (parents st) →
  queue st = cur :: q2 →
  level_mid this cur q2 (visited st ∪ {[Item.id cur]}) (parents st).
Proof.
  intros Hcore (Hsort & Hspread & Hvis & Hnb) Hq.
  assert (cur ∈ queue st) as Hcur by (rewrite Hq; by left).
  assert (∀ it, it ∈ q2 → it ∈ queue st) as Hsub by (intros it ?; rewrite Hq; by right).
  split; [|split; [|split]].
  - intros i j a b Hij Ha Hb. apply (Hsort (S i) (S j)); [lia| |]; by rewrite Hq.
  - intros it Hit. split; [|by apply Hspread; auto].
    apply list_elem_of_lookup_1 in Hit as [i Hi].
    apply (Hsort 0%nat (S i)); [lia| |]; by rewrite Hq.
  - intros v n [Hv| ->%elem_of_singleton]%elem_of_union Hn.
    + by apply (Hvis v n cur).
    + by rewrite (core_queue_level this _ _ _ Hcore cur n Hcur Hn).
  - intros u w m [Hu|?%elem_of_singleton]%elem_of_union Hne Hadj Hm; [|done].
    by apply (Hnb u w m).
Qed.

Lemma level_mid_push this cur q V p x it :
  tree_core this q V p →
  level_mid this cur q V p →
  x ∉ V → x ∉ queue_ids q →
  Item.pathLength it = Item.pathLength cur + 1 →
  level_mid this cur (q ++ [it]) V (<[x := Item.id cur]> p).
Proof.
  intros Hcore (Hsort & Hrange & Hvis & Hnb) HV HQ Hpl.
  destruct (core_fresh_key this q V p Hcore x HV HQ) as [Hx Hxs].
  split; [|split; [|split]].
  - apply by_level_snoc; [done|]. intros a Ha. pose proof (Hrange a Ha). lia.
  - intros a [Ha| ->%list_elem_of_singleton]%elem_of_app; [by apply Hrange|lia].
  - intros v n Hv Hn. apply (Hvis v n Hv).
    apply (core_level_stable this q V p Hcore x (Item.id cur)); auto.
  - intros u w m Hu Hne Hadj Hm.
    destruct (Hnb u w m Hu Hne Hadj) as (n & Hn & Hle).
    { apply (core_level_stable this q V p Hcore x (Item.id cur)); auto. }
    exists n. split; [|done]. by apply reaches_insert_fresh.
Qed.

(** ** The search tree under duplicate suppression *)

Lemma entry_ids_items (q : list Item.t) : entry_ids (EItem <$> q) = queue_ids q.
Proof. unfold entry_ids, queue_ids. by rewrite <- list_fmap_compose. Qed.

Lemma pop_currents_snoc hist q v p c s :
  pop_currents (snapshot hist q v p (Some c) s) =
  pop_currents hist ++ (if decide (s = exploring) then [c] else []).
Proof.
  unfold pop_currents, snapshot. rewrite filter_app, omap_app. f_equal.
  rewrite (filter_cons _ _ []). simpl. by case_decide.
Qed.

Lemma pop_currents_snoc_None hist q v p s :
  s ≠ exploring → pop_currents (snapshot hist q v p None s) = pop_currents hist.
Proof.
  intros Hs. unfold pop_currents, snapshot. rewrite filter_app, omap_app.
  rewrite (filter_cons_False _ _ []) by done. simpl. by rewrite app_nil_r.
Qed.

Lemma frontier_ok_snapshot hist q v p c s :
  Forall frontier_ok hist → NoDup (queue_ids q) → (∀ i, i ∈ queue_ids q → i ∉ v) →
  Forall frontier_ok (snapshot hist q v p c s).
Proof.
  intros Hh Hnd Hdisj. unfold snapshot. apply Forall_app. split; [done|].
  apply Forall_singleton. split; simpl; by rewrite entry_ids_items.
Qed.

Lemma pops_snapshot hist q v p c s :
  Forall (λ s, Snapshot.status s = exploring) hist → s ≠ exploring →
  pops (snapshot hist q v p c s) = length hist.
Proof.
  intros Hall Hs. unfold pops, snapshot. rewrite filter_app, length_app.
  rewrite (filter_cons_False _ _ []) by done. simpl. rewrite Nat.add_0_r. f_equal.
  induction Hall as [|x l Hx _ IH]; [done|]. by rewrite filter_cons_True, IH.
Qed.

Lemma adjacent_endpoints es a b : adjacent es a b → b ∈ endpoints es.
Proof.
  intros (e & He & Hj). unfold endpoints. apply list_elem_of_bind. exists e.
  split; [|done]. destruct Hj as [[_ <-]|[<- _]]; set_solver.
Qed.

(** A terminal snapshot closes a history of pops. *)
Lemma tree_post_intro this hist q v p c s :
  Forall frontier_ok hist →
  Forall (λ s, Snapshot.status s = exploring) hist →
  NoDup (pop_currents hist) →
  length (pop_currents hist) = length hist →
  (∀ c, c ∈ pop_currents hist → c ∈ universe this) →
  s ≠ exploring →
  NoDup (queue_ids q) → (∀ i, i ∈ queue_ids q → i ∉ v) →
  (s = found → tree_found_ok this (Snapshot.mk (EItem <$> q) v p c s None None)) →
  tree_post this (Ok (snapshot hist q v p c s)).
Proof.
  intros Hfr Hexp Hnd Hlen Huni Hs Hq1 Hq2 Hfound hist' [= <-].
  assert (pop_currents (snapshot hist q v p c s) = pop_currents hist) as Hpc.
  { unfold pop_currents, snapshot. rewrite filter_app, omap_app.
    rewrite (filter_cons_False _ _ []) by done. simpl. by rewrite app_nil_r. }
  rewrite Hpc. split; [by apply frontier_ok_snapshot|]. split; [done|].
  split; [by rewrite pops_snapshot|]. split; [done|].
  intros s'. unfold snapshot. rewrite last_snoc. intros [= <-]. simpl. done.
Qed.

Section Tree.
Context (lc : string → string → Z) (fd : Node.t → Node.t → Z) (this : GraphSearch).
Context (adj0 : gmap Z (list Adj.t)).
Hypothesis adj0_edges : ∀ a b, b ∈ targets adj0 a ↔ adjacent (edges this) a b.
Hypothesis suppress : checkDuplicates (options this) = true.

Lemma not_skipped_fresh st edge :
  skips this st edge = false →
  Adj.to edge ∉ visited st ∧ Adj.to edge ∉ queue_ids (queue st).
Proof.
  unfold skips. rewrite suppress. simpl. intros [Hv Hq]%orb_false_elim. split.
  - unfold has in Hv. by apply bool_decide_eq_false in Hv.
  - intros (it & Heq & Hit)%list_elem_of_fmap.
    assert (existsb (λ item, Item.id item =? Adj.to edge) (queue st) = true); [|congruence].
    apply existsb_exists. exists it. split; [by apply list_elem_of_In|].
    by apply Z.eqb_eq.
Qed.

Lemma run_iteration_tree st :
  tree_inv this adj0 st → queue st ≠ [] →
  match run_iteration lc fd this st with
  | Continue st' => tree_inv this adj0 st'
  | Return hist => tree_post this (Ok hist)
  | Raise err => True
  end.
Proof.
  intros (Hnd & Hdisj & Hdom & Hstart & Hval & Hperm & Hlen & Hfr & Hexp & Hpnd & Hpc
          & Hplen & Hlev) Hne.
  assert (tree_core this (queue st) (visited st) (parents st)) as Hcore.
  { unfold tree_core. split_and!; done. }
  assert (∀ k, k ∈ visited st ∨ k ∈ queue_ids (queue st) → k ∈ universe this) as Huni.
  { intros k Hk. unfold universe. destruct (decide (k = startId this)) as [->|Hks].
    - by apply elem_of_union_l, elem_of_singleton.
    - destruct (proj2 (Hdom k) (conj Hk Hks)) as [v Hkv].
      destruct (Hval k v Hkv) as (_ & Hadj & _).
      apply elem_of_union_r, elem_of_list_to_set. by eapply adjacent_endpoints. }
  destruct (run_iteration_cases lc fd this st Hne) as
    [[Hlim ->]|(Hit & cur & Hcur & Hrest)].
  { apply tree_post_intro; try done.
    intros c Hc. apply Huni. left. by apply Hpc. }
  pose proof (popped_ids this st cur Hcur) as Hids. cbv zeta in Hrest.
  set (queue2 := if is_dfs (type this) then removelast (sorted_queue this st)
                 else tail (sorted_queue this st)) in *.
  set (history1 := snapshot (history st) (sorted_queue this st) (visited st) (parents st)
                     (Some (Item.id cur)) exploring) in *.
  assert (∀ i, i ∈ queue_ids (queue st) ↔ i = Item.id cur ∨ i ∈ queue_ids queue2) as Hin.
  { intros i. by rewrite Hids, elem_of_cons. }
  assert (Item.id cur ∉ queue_ids queue2 ∧ NoDup (queue_ids queue2)) as [Hcur2 Hnd2].
  { rewrite Hids in Hnd. by apply NoDup_cons in Hnd. }
  assert (Item.id cur ∉ visited st) as Hcv by (apply Hdisj, Hin; by left).
  assert (cur ∈ queue st) as Hcq.
  { rewrite <- (sorted_queue_perm this st).
    destruct (is_dfs (type this)).
    - apply last_Some in Hcur as [q' ->]. apply elem_of_app. right. by left.
    - destruct (sorted_queue this st); simplify_eq/=. by left. }
  assert (∀ it, it ∈ queue2 → it ∈ queue st) as Hq2.
  { intros it Hi2. rewrite <- (sorted_queue_perm this st).
    apply pick_pop in Hcur. rewrite Hcur. by right. }
  destruct (Hlen cur Hcq) as [Hpl0 Hreach].
  assert (Forall frontier_ok history1) as Hfr1.
  { apply frontier_ok_snapshot; [done| |]; unfold queue_ids.
    - by rewrite (sorted_queue_perm this st).
    - intros i. rewrite (sorted_queue_perm this st). apply Hdisj. }
  assert (pop_currents history1 = pop_currents (history st) ++ [Item.id cur]) as Hpc1.
  { unfold history1. by rewrite pop_currents_snoc, decide_True. }
  assert (NoDup (pop_currents history1)) as Hpnd1.
  { rewrite Hpc1. apply NoDup_app. split; [done|]. split; [|apply NoDup_singleton].
    intros c Hc ->%list_elem_of_singleton. by apply Hcv, Hpc. }
  assert (∀ c, c ∈ pop_currents history1 ↔ c ∈ visited st ∪ {[Item.id cur]}) as Hpcv.
  { intros c. rewrite Hpc1, elem_of_app, list_elem_of_singleton, elem_of_union,
      elem_of_singleton, Hpc. done. }
  assert (Forall (λ s, Snapshot.status s = exploring) history1) as Hexp1.
  { unfold history1, snapshot. apply Forall_app. split; [done|].
    by apply Forall_singleton. }
  assert (length (pop_currents history1) = length history1) as Hplen1.
  { rewrite Hpc1. unfold history1, snapshot. rewrite !length_app, Hplen. done. }
  assert (∀ c, c ∈ pop_currents history1 → c ∈ universe this) as Huni1.
  { intros c [Hc| ->%elem_of_singleton]%Hpcv%elem_of_union; apply Huni; [by left|].
    right. apply Hin. by left. }
  destruct Hrest as [(_ & Hvis & _)|(Hns & [(Hpq & Hend & ->)|
         (Hnf & [(err & Hsn & ->)|(nb & adj' & Hsn & ->)])])]; [done| |done|].
  - (* the goal is popped *)
    apply tree_post_intro; try done.
    + intros i Hi [?| ->%elem_of_singleton]%elem_of_union; [|done].
      apply (Hdisj i); [|done]. apply Hin. by right.
    + intros _. split; [|split]; simpl.
      * apply eq_None_not_Some. intros [_ ?]%Hdom. done.
      * intros k v Hkv. by apply (Hval k v).
      * exists (Z.to_nat (Item.pathLength cur)). rewrite <- Hend. split; [done|].
        rewrite Hpq. split; [done|]. intros Hb. by rewrite Hb in Hpq.
  - (* expansion *)
    destruct (neighbours_adjacent lc this adj0 adj0_edges st (Item.id cur) nb adj'
                Hperm Hsn) as [Hperm' Hnb].
    set (mid := λ st1 : RunState,
      history st1 = history1 ∧ visited st1 = visited st ∪ {[Item.id cur]} ∧
      adj st1 = adj' ∧
      NoDup (queue_ids (queue st1)) ∧
      (∀ i, i ∈ queue_ids (queue st1) → i ∉ visited st ∪ {[Item.id cur]}) ∧
      (∀ k, is_Some (parents st1 !! k) ↔
            (k ∈ visited st ∪ {[Item.id cur]} ∨ k ∈ queue_ids (queue st1)) ∧
            k ≠ startId this) ∧
      (startId this ∈ visited st ∪ {[Item.id cur]} ∨
       startId this ∈ queue_ids (queue st1)) ∧
      (∀ k v, parents st1 !! k = Some v →
              v ∈ visited st ∪ {[Item.id cur]} ∧ adjacent (edges this) v k ∧
              ∃ n, reaches (parents st1) (startId this) v n) ∧
      (∀ it, it ∈ queue st1 →
             0 ≤ Item.pathLength it ∧
             reaches (parents st1) (startId this) (Item.id it)
               (Z.to_nat (Item.pathLength it))) ∧
      reaches (parents st1) (startId this) (Item.id cur)
        (Z.to_nat (Item.pathLength cur)) ∧
      (type this = BFS →
       level_mid this cur (queue st1) (visited st ∪ {[Item.id cur]}) (parents st1))).
    assert (startId this ∈ visited st ∪ {[Item.id cur]} ∨
            startId this ∈ queue_ids queue2) as Hstart'.
    { destruct Hstart as [?|[->|?]%Hin]; [left|left|by right].
      - by apply elem_of_union_l.
      - by apply elem_of_union_r, elem_of_singleton. }
    assert (∀ s, mid s → ∀ e hv, e ∈ nb → skips this s e = false →
              mid (mkRunState
                     (queue s ++ [Item.mk (Adj.to e) (Item.cost cur + Adj.weight e)
                                    (Item.cost cur + Adj.weight e + hv) (Some hv)
                                    (Item.pathLength cur + 1)])
                     (visited s) (<[Adj.to e := Item.id cur]> (parents s))
                     (iterations s) (adj s) (history s)) ∧
              reaches (<[Adj.to e := Item.id cur]> (parents s)) (startId this)
                (Adj.to e) (S (Z.to_nat (Item.pathLength cur))) ∧
              (∀ k v, <[Adj.to e := Item.id cur]> (parents s) !! k = Some v →
                      adjacent (edges this) v k) ∧
              Adj.to e ∉ queue_ids (queue s) ∧
              Adj.to e ∉ visited st ∪ {[Item.id cur]}) as Hpush.
    { intros s (Hh & Hv & Ha & Hnd' & Hdisj' & Hdom' & Hst' & Hval' & Hlen' & Hcr & Hlm)
        e hv He Hskip.
      assert (tree_core this (queue s) (visited st ∪ {[Item.id cur]}) (parents s))
        as Hcore'.
      { unfold tree_core. split_and!; done. }
      apply not_skipped_fresh in Hskip as [Hfv Hfq]. rewrite Hv in Hfv.
      assert (parents s !! Adj.to e = None) as Hnone.
      { apply eq_None_not_Some. intros [[?|?] _]%Hdom'; done. }
      assert (Adj.to e ≠ startId this) as Hns'.
      { intros Heq. rewrite Heq in Hfv, Hfq. by destruct Hst'. }
      assert (adjacent (edges this) (Item.id cur) (Adj.to e)) as Hadj.
      { apply Hnb. by apply list_elem_of_fmap_2. }
      assert (reaches (<[Adj.to e := Item.id cur]> (parents s)) (startId this)
                (Item.id cur) (Z.to_nat (Item.pathLength cur))) as Hcr'.
      { by apply reaches_insert_fresh. }
      split; [|split; [|split; [|done]]].
      - unfold mid. simpl. unfold queue_ids in *. rewrite fmap_app. simpl.
        split; [done|]. split; [done|]. split; [done|]. split.
        { apply NoDup_app. split; [done|]. split; [|apply NoDup_singleton].
          by intros i Hi ->%list_elem_of_singleton. }
        split.
        { intros i [Hi| ->%list_elem_of_singleton]%elem_of_app; [by apply Hdisj'|done]. }
        split.
        { intros k. rewrite elem_of_app, list_elem_of_singleton.
          destruct (decide (k = Adj.to e)) as [->|Hk].
          - rewrite lookup_insert_eq. split; [intros _|eauto]. split; [|done]. auto.
          - rewrite lookup_insert_ne by done. rewrite Hdom'.
            split; [intros [[?|?] ?]; auto|]. intros [[?|[?|?]] ?]; auto. done. }
        split.
        { destruct Hst' as [?|?]; [by left|right]. apply elem_of_app. by left. }
        split.
        { intros k v. destruct (decide (k = Adj.to e)) as [->|Hk].
          - rewrite lookup_insert_eq. intros [= <-].
            split; [by apply elem_of_union_r, elem_of_singleton|]. split; [done|]. eauto.
          - rewrite lookup_insert_ne by done. intros Hkv.
            destruct (Hval' k v Hkv) as (? & ? & n & Hn).
            split; [done|]. split; [done|]. exists n. by apply reaches_insert_fresh. }
        split; [|split; [done|]].
        { intros it [Hi2| ->%list_elem_of_singleton]%elem_of_app.
          + destruct (Hlen' it Hi2) as [? ?]. split; [done|]. by apply reaches_insert_fresh.
          + simpl. split; [lia|]. rewrite Z2Nat.inj_add by lia. simpl.
            rewrite Nat.add_1_r. econstructor; [apply lookup_insert_eq|done]. }
        intros Hb. apply level_mid_push; auto.
      - econstructor; [apply lookup_insert_eq|done].
      - intros k v. destruct (decide (k = Adj.to e)) as [->|Hk].
        + rewrite lookup_insert_eq. by intros [= <-].
        + rewrite lookup_insert_ne by done. intros Hkv. by apply (Hval' k v). }
    match goal with |- context [visit_neighbors fd this cur nb ?s] =>
      assert (mid s) as Hmid0 end.
    { unfold mid. simpl. split; [done|]. split; [done|]. split; [done|].
      split; [done|]. split.
      { intros i Hi [?| ->%elem_of_singleton]%elem_of_union; [|done].
        apply (Hdisj i); [|done]. apply Hin. by right. }
      split.
      { intros k. rewrite Hdom, elem_of_union, elem_of_singleton, Hin. tauto. }
      split; [done|]. split.
      { intros k v Hkv. destruct (Hval k v Hkv) as (? & ? & ?).
        split; [by apply elem_of_union_l|]. done. }
      split; [intros it Hi2; by apply Hlen, Hq2|]. split; [done|].
      intros Hb. apply level_mid_enter; [done|by apply Hlev|].
      unfold queue2. revert Hcur. unfold sorted_queue. rewrite Hb. simpl.
      destruct (queue st); simpl; [done|]. by intros [= ->]. }
    match goal with |- context [visit_neighbors fd this cur nb ?s] =>
      pose proof (visit_neighbors_rule fd this mid cur nb s Hmid0) as Hr;
      pose proof (visit_neighbors_covers fd this cur nb s) as Hcov;
      destruct (visit_neighbors fd this cur nb s) as [st'|hist|err] end; [| |done].
    + destruct Hr as (Hh & Hv & Ha & Hnd' & Hdisj' & Hdom' & Hst' & Hval' & Hlen' & Hcr'
                      & Hlm').
      { intros st1 e hv Hm He Hskip _ _. by apply (Hpush st1 Hm e hv He Hskip). }
      unfold tree_inv. rewrite Hh, Hv, Ha.
      split; [done|]. split; [done|]. split; [done|]. split; [done|].
      split; [done|]. split; [done|]. split; [done|]. split; [done|].
      split; [done|]. split; [done|]. split; [done|]. split; [done|].
      intros Hb. apply (level_mid_exit this _ _ _) with (cur := cur); [|by apply Hlm'|done|done|].
      { unfold tree_core. split_and!; done. }
      intros w Hw. apply Hnb in Hw as (e & -> & He)%list_elem_of_fmap.
      destruct Hcov as [_ Hcov]. by apply (Hcov e).
    + destruct Hr as (st1 & e & Hm & He & Hskip & Hpq & Hto & ->).
      { intros st1 e hv Hm He Hskip _ _. by apply (Hpush st1 Hm e hv He Hskip). }
      destruct (Hpush st1 Hm e 0 He Hskip) as (_ & Hgr & Hge & Hfq & Hfv).
      destruct Hm as (Hh & Hv & Ha & Hnd' & Hdisj' & Hdom' & Hst' & Hval' & Hlen' & Hcr
                      & Hlm).
      rewrite Hto in Hgr, Hge, Hfq, Hfv.
      rewrite Hh, Hv. apply tree_post_intro; try done.
      * unfold queue_ids in *. rewrite fmap_app. simpl.
        apply NoDup_app. split; [done|]. split; [|apply NoDup_singleton].
        by intros i Hi ->%list_elem_of_singleton.
      * unfold queue_ids in *. rewrite fmap_app. simpl.
        intros i [Hi| ->%list_elem_of_singleton]%elem_of_app; [by apply Hdisj'|done].
      * intros _. split; [|split]; simpl; [|done|].
        { rewrite lookup_insert_ne.
          - apply eq_None_not_Some. intros [_ ?]%Hdom'. done.
          - intros Heq. rewrite <- Heq in Hst'. destruct Hst'; done. }
        exists (S (Z.to_nat (Item.pathLength cur))). split; [done|]. split.
        { intros _. rewrite fmap_app. simpl. eexists _, _. split; [done|]. simpl.
          split; [done|]. lia. }
        intros Hb k Hk.
        apply (level_mid_found this (queue st1) (visited st ∪ {[Item.id cur]})
                 (parents st1)) with (g := endId this); [|by apply Hlm|done|done|done|done].
        unfold tree_core. split_and!; done.
Qed.

Lemma run_loop_tree fuel st r :
  tree_inv this adj0 st → run_loop lc fd this fuel st = Some r → tree_post this r.
Proof.
  apply (run_loop_rule lc fd this (tree_inv this adj0) (tree_post this)).
  - intros st' (Hnd & Hdisj & Hdom & Hstart & Hval & _ & _ & Hfr & Hexp & Hpnd & Hpc
                & Hplen & _) Hnil.
    apply tree_post_intro; try done.
    intros c Hc%Hpc. unfold universe.
    destruct (decide (c = startId this)) as [->|Hcs].
    + by apply elem_of_union_l, elem_of_singleton.
    + destruct (proj2 (Hdom c) (conj (or_introl Hc) Hcs)) as [v Hkv].
      destruct (Hval c v Hkv) as (_ & Hadj & _).
      apply elem_of_union_r, elem_of_list_to_set. by eapply adjacent_endpoints.
  - intros st' Hinv Hq'. pose proof (run_iteration_tree st' Hinv Hq') as H.
    destruct (run_iteration lc fd this st'); [done|done|]. by intros ? [=].
Qed.

Lemma tree_inv_initial :
  tree_inv this adj0 (mkRunState [Item.mk (startId this) 0 0 None 0] ∅ ∅ 0 adj0 []).
Proof.
  unfold tree_inv. simpl.
  split; [apply NoDup_singleton|]. split; [by intros i _ ?%elem_of_empty|].
  split.
  { intros k. rewrite lookup_empty, list_elem_of_singleton.
    split; [by intros [? [=]]|]. intros [[?%elem_of_empty| ->] ?]; done. }
  split; [right; by left|]. split; [by intros k v; rewrite lookup_empty|].
  split; [done|]. split.
  { intros it ->%list_elem_of_singleton. simpl. split; [done|]. constructor. }
  split; [constructor|]. split; [constructor|]. split; [constructor|].
  split; [intros c; split; [by intros ?%elem_of_nil|by intros ?%elem_of_empty]|].
  split; [done|]. intros _. split; [|split; [|split]].
  - intros i j a b _ Ha%list_elem_of_lookup_2 Hb%list_elem_of_lookup_2.
    apply list_elem_of_singleton in Ha, Hb. by subst.
  - intros a b ->%list_elem_of_singleton ->%list_elem_of_singleton. simpl. lia.
  - by intros v n it ?%elem_of_empty.
  - by intros u w m ?%elem_of_empty.
Qed.

End Tree.

(** ** Consequences for runs with duplicate suppression *)

Lemma size_universe this : (size (universe this) ≤ S (2 * length (edges this)))%nat.
Proof.
  unfold universe. rewrite size_union_alt, size_singleton.
  assert (size (list_to_set (endpoints (edges this)) ∖ {[startId this]} : gset Z)
          ≤ size (list_to_set (endpoints (edges this)) : gset Z))%nat as H1.
  { apply subseteq_size. set_solver. }
  pose proof (size_list_to_set_le (endpoints (edges this))) as H2.
  rewrite length_endpoints in H2. lia.
Qed.

Lemma size_universe_nodes this :
  edges_wellformed this = true →
  (size (universe this) ≤ S (length (nodes this)))%nat.
Proof.
  intros Hwf.
  assert (universe this ⊆ {[startId this]} ∪ list_to_set (Node.id <$> nodes this)) as Hsub.
  { unfold universe. apply union_mono_l. intros x Hx%elem_of_list_to_set.
    apply elem_of_list_to_set. unfold endpoints in Hx.
    apply list_elem_of_bind in Hx as (e & Hx & He).
    destruct (edges_wellformed_spec this Hwf e He) as [Hs Ht].
    apply find_node_is_Some in Hs, Ht.
    apply elem_of_cons in Hx as [->|Hx]; [done|].
    apply list_elem_of_singleton in Hx as ->. done. }
  apply subseteq_size in Hsub. rewrite size_union_alt, size_singleton in Hsub.
  assert (size (list_to_set (Node.id <$> nodes this) ∖ {[startId this]} : gset Z)
          ≤ size (list_to_set (Node.id <$> nodes this) : gset Z))%nat as H1.
  { apply subseteq_size. set_solver. }
  pose proof (size_list_to_set_le (Node.id <$> nodes this)) as H2.
  rewrite length_fmap in H2. lia.
Qed.

Lemma NoDup_length_le_size (l : list Z) (U : gset Z) :
  NoDup l → (∀ x, x ∈ l → x ∈ U) → (length l ≤ size U)%nat.
Proof.
  intros Hnd Hsub. rewrite <- (size_list_to_set (C:=gset Z) l Hnd).
  apply subseteq_size. intros x Hx%elem_of_list_to_set. by apply Hsub.
Qed.

(** The history of a construction on the shared loop with duplicate
    suppression. *)
Lemma new_GraphSearch_tree lc fd this hist :
  type this ≠ BiBFS →
  checkDuplicates (options this) = true →
  new_GraphSearch lc fd this = Some (Ok hist) →
  startId this ≠ endId this →
  tree_post this (Ok hist).
Proof.
  intros Hty Hcd Hrun Hne. revert Hrun. unfold new_GraphSearch, run.
  destruct (buildAdjacency this) as [a|] eqn:Hb; [|done].
  rewrite decide_False by done. apply Z.eqb_neq in Hne. rewrite Hne.
  apply (run_loop_tree lc fd this a); [|done|].
  - intros x y. by apply buildAdjacency_targets_iff.
  - apply tree_inv_initial.
Qed.

(** The [found] snapshot of a construction with duplicate suppression,
    also when the start is the goal. *)
Lemma found_snapshot_tree lc fd this hist s :
  type this ≠ BiBFS →
  checkDuplicates (options this) = true →
  new_GraphSearch lc fd this = Some (Ok hist) →
  last hist = Some s →
  Snapshot.status s = found →
  tree_found_ok this s.
Proof.
  intros Hty Hcd Hrun Hlast Hst.
  destruct (decide (startId this = endId this)) as [Heq|Hne].
  - revert Hrun. unfold new_GraphSearch, run.
    destruct (buildAdjacency this) as [a|]; [|done].
    rewrite decide_False by done. pose proof Heq as Heqb. apply Z.eqb_eq in Heqb.
    rewrite Heqb. intros [= <-]. injection Hlast as <-.
    split; [apply lookup_empty|]. split; [intros k v; simpl; by rewrite lookup_empty|].
    exists 0%nat. simpl. split; [rewrite <- Heq; constructor|]. split; [|intros; lia].
    intros _. by exists [], (Item.mk (startId this) 0 0 None 0).
  - destruct (new_GraphSearch_tree lc fd this hist Hty Hcd Hrun Hne hist eq_refl)
      as (_ & _ & _ & _ & Hfound). by apply Hfound.
Qed.

(** Frontiers and pops of a run with duplicate suppression. *)
Lemma suppression_pops_once lc fd this hist :
  type this ≠ BiBFS →
  checkDuplicates (options this) = true →
  new_GraphSearch lc fd this = Some (Ok hist) →
  Forall frontier_ok hist ∧
  NoDup (pop_currents hist) ∧
  length (pop_currents hist) = pops hist ∧
  (pops hist ≤ S (2 * length (edges this)))%nat ∧
  (edges_wellformed this = true → (pops hist ≤ S (length (nodes this)))%nat).
Proof.
  intros Hty Hcd Hrun.
  assert (Forall frontier_ok hist ∧ NoDup (pop_currents hist) ∧
          length (pop_currents hist) = pops hist ∧
          (∀ c, c ∈ pop_currents hist → c ∈ universe this)) as (H1 & H2 & H3 & H4).
  { destruct (decide (startId this = endId this)) as [Heq|Hne].
    - revert Hrun. unfold new_GraphSearch, run.
      destruct (buildAdjacency this) as [a|]; [|done].
      rewrite decide_False by done. apply Z.eqb_eq in Heq. rewrite Heq.
      intros [= <-]. split; [|split; [constructor|split; [done|]]].
      + apply Forall_singleton. split; simpl.
        * apply NoDup_singleton.
        * by intros i _ ?%elem_of_empty.
      + by intros c ?%elem_of_nil.
    - destruct (new_GraphSearch_tree lc fd this hist Hty Hcd Hrun Hne hist eq_refl)
        as (? & ? & ? & ? & _). done. }
  split; [done|]. split; [done|]. split; [done|].
  pose proof (NoDup_length_le_size _ _ H2 H4) as Hle. rewrite H3 in Hle.
  split.
  - pose proof (size_universe this). lia.
  - intros Hwf. pose proof (size_universe_nodes this Hwf). lia.
Qed.

(** X4: with duplicate suppression every recorded frontier of a
    BFS/DFS/Dijkstra/A* run holds pairwise distinct nodes, none of them
    visited; no node is popped twice; so the run makes at most one pop per
    node id it can meet: at most 2|E| + 1 pops, and at most |nodes| + 1 on
    a graph whose edges mention only nodes. *)
Theorem X4_suppression_pops_once lc fd this hist :
  type this ≠ BiBFS →
  checkDuplicates (options this) = true →
  new_GraphSearch lc fd this = Some (Ok hist) →
  Forall frontier_ok hist ∧
  NoDup (pop_currents hist) ∧
  length (pop_currents hist) = pops hist ∧
  (pops hist ≤ S (2 * length (edges this)))%nat ∧
  (edges_wellformed this = true → (pops hist ≤ S (length (nodes this)))%nat).
Proof. apply suppression_pops_once. Qed.

Lemma X4_suppression_pops_once_witness :
  let this := search_args PRESETS.inconsistent AStar (mkOptions true Preset) in
  let hist := history_of (new_GraphSearch codeUnitCompare intFloorDistance this) in
  Forall frontier_ok hist ∧
  NoDup (pop_currents hist) ∧
  length (pop_currents hist) = pops hist ∧
  (pops hist ≤ S (2 * length (edges this)))%nat ∧
  (edges_wellformed this = true → (pops hist ≤ S (length (nodes this)))%nat).
Proof.
  apply (X4_suppression_pops_once codeUnitCompare intFloorDistance
           (search_args PRESETS.inconsistent AStar (mkOptions true Preset))).
  - discriminate.
  - reflexivity.
  - vm_compute. reflexivity.
Defined.

(** A construction on the shared loop over a well-formed graph returns a
    history of the form [exploring* terminal]. *)
Lemma shared_run_returns lc fd this :
  type this ≠ BiBFS →
  wellformed this = true →
  ∃ hist, new_GraphSearch lc fd this = Some (Ok hist) ∧ shape_post (Ok hist).
Proof.
  intros Hty [Hes Hgoal]%andb_prop. apply has_node_true in Hgoal.
  destruct (buildAdjacency_Ok this (edges_wellformed_spec this Hes)) as [a Hadj].
  destruct (new_GraphSearch_shared lc fd this Hty) as (r & Hr & Hshape).
  assert (∃ hist, r = Ok hist) as [hist ->]; [|eauto].
  revert Hr. unfold new_GraphSearch, run. rewrite Hadj. rewrite decide_False by done.
  destruct (startId this =? endId this); [intros [= <-]; eauto|].
  apply run_loop_no_throw; [|done]. simpl. by apply buildAdjacency_closed.
Qed.

(** A suppressed run on a small well-formed graph: its history is a row
    of pops closed by a [found] or a [failed] snapshot, which tells
    whether the goal can be reached. *)
Lemma suppressed_run_decides lc fd this :
  type this ≠ BiBFS →
  checkDuplicates (options this) = true →
  wellformed this = true →
  (length (nodes this) < 999)%nat →
  ∃ pre t,
    new_GraphSearch lc fd this = Some (Ok (pre ++ [t])) ∧
    Forall (λ s, Snapshot.status s = exploring) pre ∧
    ((Snapshot.status t = found ∧
      connected (edges this) (startId this) (endId this)) ∨
     (Snapshot.status t = failed ∧
      ¬ connected (edges this) (startId this) (endId this))).
Proof.
  intros Hty Hcd Hwf Hsmall.
  destruct (shared_run_returns lc fd this Hty Hwf) as (hist & Hrun & Hshape).
  destruct (shared_run_reachability lc fd this hist Hty Hrun) as [Hfound Hfailed].
  destruct (suppression_pops_once lc fd this hist Hty Hcd Hrun) as (_ & _ & _ & _ & Hpops).
  apply andb_prop in Hwf as [Hes _]. specialize (Hpops Hes).
  destruct (shape_post_statuses hist Hshape) as (_ & _ & Hlim).
  destruct (Hshape hist eq_refl) as (pre & t & -> & Hpre & Ht & _ & _).
  exists pre, t. split; [done|]. split; [done|].
  unfold final_status in Hfound, Hfailed. rewrite last_snoc in Hfound, Hfailed.
  simpl in Hfound, Hfailed.
  unfold statuses in Hlim. rewrite fmap_app in Hlim. simpl in Hlim.
  rewrite last_snoc in Hlim.
  destruct (Snapshot.status t) eqn:Hs; [done|left|right|].
  - split; [done|]. by apply Hfound.
  - split; [done|]. by apply Hfailed.
  - specialize (Hlim eq_refl).
    change (Z.to_nat MAX_ITERATIONS) with 1000%nat in Hlim. lia.
Qed.

(** X5: with duplicate suppression, on a well-formed graph of fewer than
    999 nodes, a BFS/DFS/Dijkstra/A* run returns a history that ends
    [found] exactly when the goal can be reached from the start, and
    [failed] exactly when it cannot; it never ends [limit_reached]. *)
Theorem X5_suppression_decides_reachability lc fd this :
  type this ≠ BiBFS →
  checkDuplicates (options this) = true →
  wellformed this = true →
  (length (nodes this) < 999)%nat →
  ∃ hist,
    new_GraphSearch lc fd this = Some (Ok hist) ∧
    (final_status hist = Some found ↔
     connected (edges this) (startId this) (endId this)) ∧
    (final_status hist = Some failed ↔
     ¬ connected (edges this) (startId this) (endId this)) ∧
    final_status hist ≠ Some limit_reached.
Proof.
  intros Hty Hcd Hwf Hsmall.
  destruct (suppressed_run_decides lc fd this Hty Hcd Hwf Hsmall)
    as (pre & t & Hrun & _ & Hcases).
  exists (pre ++ [t]). split; [done|].
  unfold final_status. rewrite last_snoc. simpl.
  destruct Hcases as [[Hs Hc]|[Hs Hc]]; rewrite Hs.
  - split; [done|]. split; [|done]. split; [done|]. intros Hn. by destruct Hn.
  - split; [|done]. split; [done|]. intros Hn. by destruct Hc.
Qed.

Lemma X5_suppression_decides_reachability_witness :
  let this := search_args Examples.ping_pong DFS (mkOptions true Euclidean) in
  ∃ hist,
    new_GraphSearch codeUnitCompare intFloorDistance this = Some (Ok hist) ∧
    (final_status hist = Some found ↔
     connected (edges this) (startId this) (endId this)) ∧
    (final_status hist = Some failed ↔
     ¬ connected (edges this) (startId this) (endId this)) ∧
    final_status hist ≠ Some limit_reached.
Proof.
  apply (X5_suppression_decides_reachability codeUnitCompare intFloorDistance
           (search_args Examples.ping_pong DFS (mkOptions true Euclidean))).
  - discriminate.
  - reflexivity.
  - reflexivity.
  - simpl. lia.
Defined.

Lemma X3_found_failed_reachability_witness :
  let this := search_args Examples.ping_pong BFS (mkOptions true Euclidean) in
  let hist := history_of (new_GraphSearch codeUnitCompare intFloorDistance this) in
  (final_status hist = Some found →
   connected (edges this) (startId this) (endId this)) ∧
  (final_status hist = Some failed →
   ¬ connected (edges this) (startId this) (endId this)).
Proof.
  apply (X3_found_failed_reachability codeUnitCompare intFloorDistance
           (search_args Examples.ping_pong BFS (mkOptions true Euclidean))).
  - discriminate.
  - vm_compute. reflexivity.
Defined.

(** ** The standard walk of [getPath] on a parent tree *)

Lemma walk_back_reaches p start x n :
  p !! start = None →
  reaches p start x n →
  ∃ chain,
    (∀ fuel path, (n ≤ fuel)%nat →
       walk_back fuel p start (Some x) path = Some (path ++ chain)) ∧
    length chain = n ∧
    head (chain ++ [start]) = Some x ∧
    (∀ j u v, (chain ++ [start]) !! j = Some u → (chain ++ [start]) !! S j = Some v →
              p !! u = Some v) ∧
    (∀ j u, (chain ++ [start]) !! j = Some u → reaches p start u (n - j)).
Proof.
  intros Hroot. induction 1 as [|x y n Hxy Hn (chain & Hwalk & Hlen & Hhd & Hlink & Hre)].
  - exists []. split; [|split; [done|split; [done|split]]].
    + intros fuel path _. rewrite app_nil_r.
      destruct fuel; simpl; by rewrite Z.eqb_refl.
    + intros j u v _. by destruct j.
    + intros [|j] u; [|by destruct j]. intros [= <-]. constructor.
  - assert (x ≠ start) as Hx by congruence.
    exists (x :: chain). split; [|split; [simpl; by rewrite Hlen|split; [done|split]]].
    + intros [|fuel] path Hle; [lia|]. simpl.
      apply Z.eqb_neq in Hx. rewrite Hx, Hxy.
      rewrite Hwalk by lia. by rewrite <- app_assoc.
    + intros [|j] u v; simpl.
      * intros [= <-] Hv. rewrite <- head_lookup, Hhd in Hv. congruence.
      * apply Hlink.
    + intros [|j] u; simpl.
      * intros [= <-]. by econstructor.
      * apply Hre.
Qed.

Lemma chain_NoDup p start n (l : list Z) :
  p !! start = None →
  length l = n →
  (∀ j u, l !! j = Some u → reaches p start u (n - S j)) →
  NoDup l.
Proof.
  intros Hroot Hlen Hre. apply NoDup_alt. intros i j u Hi Hj.
  pose proof (lookup_lt_Some _ _ _ Hi). pose proof (lookup_lt_Some _ _ _ Hj).
  pose proof (reaches_unique p start u _ _ Hroot (Hre i u Hi) (Hre j u Hj)). lia.
Qed.

(** What the standard branch of [getPath] returns on the [found] snapshot
    of a run with duplicate suppression. *)
Lemma getPath_tree this ty s :
  ty ≠ BiBFS →
  Snapshot.status s = found →
  Snapshot.parents s !! startId this = None →
  (∀ k v, Snapshot.parents s !! k = Some v → adjacent (edges this) v k) →
  ∀ n, reaches (Snapshot.parents s) (startId this) (endId this) n →
  ∃ path,
    (∀ fuel, (n ≤ fuel)%nat → getPath fuel ty (graph_of this) s = Some path) ∧
    length path = S n ∧
    head path = Some (endId this) ∧
    last path = Some (startId this) ∧
    NoDup path ∧
    (∀ j u v, path !! j = Some u → path !! S j = Some v →
              Snapshot.parents s !! u = Some v ∧ adjacent (edges this) v u).
Proof.
  intros Hty Hst Hroot Hadj n Hn.
  destruct (walk_back_reaches _ _ _ _ Hroot Hn) as (chain & Hwalk & Hlen & Hhd & Hlink & Hre).
  exists (chain ++ [startId this]).
  split; [|split; [|split; [done|split; [by rewrite last_snoc|split]]]].
  - intros fuel Hle. unfold getPath. rewrite decide_True by done.
    assert (walk_back fuel (Snapshot.parents s) (g_start (graph_of this))
              (Some (g_end (graph_of this))) [] = Some chain) as ->
      by (by apply (Hwalk fuel [])).
    by destruct ty, (Snapshot.intersect s).
  - rewrite length_app, Hlen. simpl. lia.
  - apply (chain_NoDup (Snapshot.parents s) (startId this) (S n)); [done| |].
    + rewrite length_app, Hlen. simpl. lia.
    + intros j u Hj. replace (S n - S j)%nat with (n - j)%nat by lia. by apply Hre.
  - intros j u v Hu Hv. pose proof (Hlink j u v Hu Hv). split; [done|]. by apply Hadj.
Qed.

Lemma reaches_nsteps es p root x n :
  (∀ k v, p !! k = Some v → adjacent es v k) →
  reaches p root x n → nsteps (adjacent es) n root x.
Proof.
  intros Hadj. induction 1 as [|x y n Hxy _ IH]; [constructor|].
  eapply nsteps_r; [done|]. by apply Hadj.
Qed.

(** The path of [getPath] on the [found] snapshot of a run with duplicate
    suppression. *)
Lemma getPath_on_found lc fd this hist s :
  type this ≠ BiBFS →
  checkDuplicates (options this) = true →
  new_GraphSearch lc fd this = Some (Ok hist) →
  last hist = Some s →
  Snapshot.status s = found →
  ∃ n path,
    ((∀ fuel, (n ≤ fuel)%nat →
        getPath fuel (type this) (graph_of this) s = Some path) ∧
     length path = S n ∧
     head path = Some (endId this) ∧
     last path = Some (startId this) ∧
     NoDup path ∧
     (∀ j u v, path !! j = Some u → path !! S j = Some v →
               Snapshot.parents s !! u = Some v ∧ adjacent (edges this) v u)) ∧
    (is_priority (type this) = false →
     ∃ q it, Snapshot.queue s = q ++ [EItem it] ∧ Item.id it = endId this ∧
             Item.pathLength it = Z.of_nat n) ∧
    nsteps (adjacent (edges this)) n (startId this) (endId this) ∧
    (type this = BFS →
     ∀ k, nsteps (adjacent (edges this)) k (startId this) (endId this) → (n ≤ k)%nat).
Proof.
  intros Hty Hcd Hrun Hlast Hst.
  destruct (found_snapshot_tree lc fd this hist s Hty Hcd Hrun Hlast Hst)
    as (Hroot & Hadj & n & Hn & Hq & Hmin).
  destruct (getPath_tree this (type this) s Hty Hst Hroot Hadj n Hn) as (path & Hpath).
  exists n, path. split; [done|]. split; [done|].
  split; [by eapply reaches_nsteps|done].
Qed.

(** X6: on the [found] snapshot of a BFS/DFS/Dijkstra/A* run with duplicate
    suppression, the walk of [getPath] ends (for every fuel from the
    length of the chain on) and returns a path without repetition from the
    goal to the start whose consecutive nodes are child and recorded
    parent and are joined by an edge of the graph; for BFS and DFS the
    number of its edges is the path length recorded in the goal's queue
    entry. *)
Theorem X6_getPath_standard lc fd this hist s :
  type this ≠ BiBFS →
  checkDuplicates (options this) = true →
  new_GraphSearch lc fd this = Some (Ok hist) →
  last hist = Some s →
  Snapshot.status s = found →
  ∃ n path,
    (∀ fuel, (n ≤ fuel)%nat →
       getPath fuel (type this) (graph_of this) s = Some path) ∧
    length path = S n ∧
    head path = Some (endId this) ∧
    last path = Some (startId this) ∧
    NoDup path ∧
    (∀ j u v, path !! j = Some u → path !! S j = Some v →
              Snapshot.parents s !! u = Some v ∧ adjacent (edges this) v u) ∧
    (is_priority (type this) = false →
     ∃ q it, Snapshot.queue s = q ++ [EItem it] ∧ Item.id it = endId this ∧
             Item.pathLength it = Z.of_nat n).
Proof.
  intros Hty Hcd Hrun Hlast Hst.
  destruct (getPath_on_found lc fd this hist s Hty Hcd Hrun Hlast Hst)
    as (n & path & (? & ? & ? & ? & ? & ?) & ? & _).
  exists n, path. do 6 (split; [done|]). done.
Qed.

Lemma X6_getPath_standard_witness :
  let this := search_args PRESETS.nonAdmissible DFS (mkOptions true Preset) in
  let hist := history_of (new_GraphSearch codeUnitCompare intFloorDistance this) in
  let s := default (Snapshot.mk [] ∅ ∅ None exploring None None) (last hist) in
  ∃ n path,
    (∀ fuel, (n ≤ fuel)%nat →
       getPath fuel (type this) (graph_of this) s = Some path) ∧
    length path = S n ∧
    head path = Some (endId this) ∧
    last path = Some (startId this) ∧
    NoDup path ∧
    (∀ j u v, path !! j = Some u → path !! S j = Some v →
              Snapshot.parents s !! u = Some v ∧ adjacent (edges this) v u) ∧
    (is_priority (type this) = false →
     ∃ q it, Snapshot.queue s = q ++ [EItem it] ∧ Item.id it = endId this ∧
             Item.pathLength it = Z.of_nat n).
Proof.
  apply (X6_getPath_standard codeUnitCompare intFloorDistance
           (search_args PRESETS.nonAdmissible DFS (mkOptions true Preset))
           (history_of (new_GraphSearch codeUnitCompare intFloorDistance
              (search_args PRESETS.nonAdmissible DFS (mkOptions true Preset))))).
  - discriminate.
  - reflexivity.
  - vm_compute. reflexivity.
  - vm_compute. reflexivity.
  - vm_compute. reflexivity.
Defined.

(** X7: breadth-first search with duplicate suppression finds a shortest
    path: on its [found] snapshot [getPath] returns a path of [n] edges,
    the goal is [n] steps along edges from the start, and no walk from the
    start to the goal has fewer than [n] steps. *)
Theorem X7_bfs_fewest_edges lc fd this hist s :
  type this = BFS →
  checkDuplicates (options this) = true →
  new_GraphSearch lc fd this = Some (Ok hist) →
  last hist = Some s →
  Snapshot.status s = found →
  ∃ n path,
    (∀ fuel, (n ≤ fuel)%nat → getPath fuel BFS (graph_of this) s = Some path) ∧
    length path = S n ∧
    nsteps (adjacent (edges this)) n (startId this) (endId this) ∧
    (∀ k, nsteps (adjacent (edges this)) k (startId this) (endId this) → (n ≤ k)%nat).
Proof.
  intros Hty Hcd Hrun Hlast Hst.
  destruct (getPath_on_found lc fd this hist s) as
    (n & path & (Hp & Hlen & _) & _ & Hwalk & Hmin); [by rewrite Hty|done..|].
  exists n, path. rewrite <- Hty. auto.
Qed.

Lemma X7_bfs_fewest_edges_witness :
  let this := search_args PRESETS.nonAdmissible BFS (mkOptions true Preset) in
  let hist := history_of (new_GraphSearch codeUnitCompare intFloorDistance this) in
  let s := default (Snapshot.mk [] ∅ ∅ None exploring None None) (last hist) in
  ∃ n path,
    (∀ fuel, (n ≤ fuel)%nat → getPath fuel BFS (graph_of this) s = Some path) ∧
    length path = S n ∧
    nsteps (adjacent (edges this)) n (startId this) (endId this) ∧
    (∀ k, nsteps (adjacent (edges this)) k (startId this) (endId this) → (n ≤ k)%nat).
Proof.
  apply (X7_bfs_fewest_edges codeUnitCompare intFloorDistance
           (search_args PRESETS.nonAdmissible BFS (mkOptions true Preset))
           (history_of (new_GraphSearch codeUnitCompare intFloorDistance
              (search_args PRESETS.nonAdmissible BFS (mkOptions true Preset))))).
  - reflexivity.
  - reflexivity.
  - vm_compute. reflexivity.
  - vm_compute. reflexivity.
  - vm_compute. reflexivity.
Defined.

(** ** The oracle [getGroundTruth] *)

Lemma find_found_closed pre t :
  Forall (λ s, Snapshot.status s = exploring) pre →
  find_found (pre ++ [t]) = if decide (Snapshot.status t = found) then Some t else None.
Proof.
  intros Hpre. unfold find_found.
  induction Hpre as [|s pre Hs _ IH]; simpl.
  - case_bool_decide; by case_decide.
  - rewrite bool_decide_eq_false_2 by congruence. done.
Qed.

Lemma find_edge_adjacent es u v :
  adjacent es u v → ∃ e, find_edge es u v = Some e ∧ e ∈ es ∧ joins e u v.
Proof.
  intros (e0 & He0 & Hj0). unfold find_edge.
  destruct (List.find _ es) as [e|] eqn:Hfind.
  - apply find_some in Hfind as [Hin Hp]. exists e. split; [done|].
    split; [by apply list_elem_of_In|].
    apply orb_prop in Hp as [[?%Z.eqb_eq ?%Z.eqb_eq]%andb_prop|
                              [?%Z.eqb_eq ?%Z.eqb_eq]%andb_prop]; [by left|by right].
  - exfalso. apply list_elem_of_In in He0.
    pose proof (find_none _ _ Hfind e0 He0) as Hp. simpl in Hp.
    apply orb_false_elim in Hp as [H1 H2].
    destruct Hj0 as [[<- <-]|[<- <-]].
    + by rewrite !Z.eqb_refl in H1.
    + by rewrite !Z.eqb_refl in H2.
Qed.

Lemma metrics_walk_count es p start x n :
  p !! start = None →
  reaches p start x n →
  ∀ fuel count cost, (n ≤ fuel)%nat →
    metrics_walk fuel es p start false x count cost
    = Some (Ok (Finite (count + Z.of_nat n))).
Proof.
  intros Hroot. induction 1 as [|x y n Hxy _ IH]; intros fuel count cost Hle.
  - destruct fuel; simpl; rewrite Z.eqb_refl; do 3 f_equal; lia.
  - assert (x ≠ start) as Hx by congruence. apply Z.eqb_neq in Hx.
    destruct fuel as [|fuel]; [lia|]. simpl. rewrite Hx, Hxy.
    rewrite IH by lia. do 3 f_equal. lia.
Qed.

Lemma metrics_walk_cost es p start x n :
  p !! start = None →
  (∀ k v, p !! k = Some v → adjacent es v k) →
  reaches p start x n →
  ∃ c, walk es start x n c ∧
    ∀ fuel count cost, (n ≤ fuel)%nat →
      metrics_walk fuel es p start true x count cost = Some (Ok (Finite (cost + c))).
Proof.
  intros Hroot Hadj. induction 1 as [|x y n Hxy _ (c & Hwalk & IH)].
  - exists 0. split; [constructor|]. intros fuel count cost _.
    destruct fuel; simpl; rewrite Z.eqb_refl; do 3 f_equal; lia.
  - assert (x ≠ start) as Hx by congruence. apply Z.eqb_neq in Hx.
    destruct (find_edge_adjacent es y x (Hadj x y Hxy)) as (e & Hfind & He & Hj).
    exists (c + Edge.weight e). split; [by econstructor|].
    intros [|fuel] count cost Hle; [lia|]. simpl. rewrite Hx, Hxy, Hfind.
    rewrite IH by lia. do 3 f_equal. lia.
Qed.

Lemma walk_nsteps es a b n c : walk es a b n c → nsteps (adjacent es) n a b.
Proof.
  induction 1 as [|b x n cost e _ IH He Hj]; [constructor|].
  eapply nsteps_r; [done|]. by exists e.
Qed.

(** What the oracle returns on a well-formed graph of fewer than 999
    nodes. *)
Lemma getGroundTruth_spec lc fd ns es s e :
  wellformed (mkGraphSearch ns es s e BFS (mkOptions true Euclidean)) = true →
  (length ns < 999)%nat →
  ∃ m1 m2 f0,
    (∀ fuel, (f0 ≤ fuel)%nat →
       getGroundTruth lc fd fuel ns es s e = Some (Ok (m1, m2))) ∧
    (connected es s e →
     ∃ n k c, m1 = Finite (Z.of_nat n) ∧
              nsteps (adjacent es) n s e ∧
              (∀ j, nsteps (adjacent es) j s e → (n ≤ j)%nat) ∧
              m2 = Finite c ∧ walk es s e k c) ∧
    (¬ connected es s e → m1 = Infinity ∧ m2 = Infinity).
Proof.
  intros Hwf Hsmall.
  set (bfs := mkGraphSearch ns es s e BFS (mkOptions true Euclidean)).
  set (dij := mkGraphSearch ns es s e Dijkstra (mkOptions true Euclidean)).
  destruct (suppressed_run_decides lc fd bfs) as (pre1 & t1 & Hrun1 & Hpre1 & Hc1);
    [done..|].
  destruct (suppressed_run_decides lc fd dij) as (pre2 & t2 & Hrun2 & Hpre2 & Hc2);
    [done..|].
  simpl in Hc1, Hc2.
  assert (∀ fuel, getGroundTruth lc fd fuel ns es s e =
    match getMetrics fuel es s e (Snapshot.parents <$> find_found (pre1 ++ [t1])) false with
    | None => None
    | Some (Throw err) => Some (Throw err)
    | Some (Ok trueMinEdges) =>
        match getMetrics fuel es s e (Snapshot.parents <$> find_found (pre2 ++ [t2])) true with
        | None => None
        | Some (Throw err) => Some (Throw err)
        | Some (Ok trueMinCost) => Some (Ok (trueMinEdges, trueMinCost))
        end
    end) as Hgt.
  { intros fuel. unfold getGroundTruth. fold bfs dij. by rewrite Hrun1, Hrun2. }
  rewrite !find_found_closed in Hgt by done.
  destruct Hc1 as [[Hs1 Hconn]|[Hs1 Hnc]].
  - destruct Hc2 as [[Hs2 _]|[_ Hnc]]; [|done].
    rewrite !decide_True in Hgt by done. simpl in Hgt.
    destruct (found_snapshot_tree lc fd bfs (pre1 ++ [t1]) t1)
      as (Hroot1 & _ & n & Hn & _ & Hmin); [done|done|done|by rewrite last_snoc|done|].
    destruct (found_snapshot_tree lc fd dij (pre2 ++ [t2]) t2)
      as (Hroot2 & Hadj2 & k & Hk & _); [done|done|done|by rewrite last_snoc|done|].
    simpl in *.
    destruct (metrics_walk_cost es _ s e k Hroot2 Hadj2 Hk) as (c & Hwalk & Hcost).
    exists (Finite (Z.of_nat n)), (Finite c), (n `max` k)%nat.
    split; [|split; [|done]].
    + intros fuel Hle. rewrite Hgt.
      rewrite (metrics_walk_count es _ s e n Hroot1 Hn) by lia.
      rewrite Hcost by lia. done.
    + intros _. exists n, k, c. split; [done|]. split; [|split; [by apply Hmin|done]].
      destruct (found_snapshot_tree lc fd bfs (pre1 ++ [t1]) t1)
        as (_ & Hadj1 & n' & Hn' & _); [done|done|done|by rewrite last_snoc|done|].
      simpl in *. rewrite (reaches_unique _ _ _ _ _ Hroot1 Hn Hn').
      by eapply reaches_nsteps.
  - destruct Hc2 as [[_ Hconn]|[Hs2 _]]; [done|].
    rewrite !decide_False in Hgt by congruence. simpl in Hgt.
    exists Infinity, Infinity, 0%nat. split; [by intros fuel _|]. split; [done|done].
Qed.

(** X8: on a graph whose edges join nodes, whose goal is a node and which
    has fewer than 999 nodes, [getGroundTruth] ends without an error; both
    metrics are [Infinity] when the goal cannot be reached; when it can,
    [trueMinEdges] is the least number of edges of a walk from the start
    to the goal, and [trueMinCost] is the weight of some walk from the
    start to the goal. *)
Theorem X8_ground_truth lc fd ns es s e :
  wellformed (mkGraphSearch ns es s e BFS (mkOptions true Euclidean)) = true →
  (length ns < 999)%nat →
  ∃ m1 m2 f0,
    (∀ fuel, (f0 ≤ fuel)%nat →
       getGroundTruth lc fd fuel ns es s e = Some (Ok (m1, m2))) ∧
    (connected es s e →
     ∃ n k c, m1 = Finite (Z.of_nat n) ∧
              nsteps (adjacent es) n s e ∧
              (∀ j, nsteps (adjacent es) j s e → (n ≤ j)%nat) ∧
              m2 = Finite c ∧ walk es s e k c) ∧
    (¬ connected es s e → m1 = Infinity ∧ m2 = Infinity).
Proof. apply getGroundTruth_spec. Qed.

Lemma X8_ground_truth_witness :
  let g := PRESETS.nonAdmissible in
  ∃ m1 m2 f0,
    (∀ fuel, (f0 ≤ fuel)%nat →
       getGroundTruth codeUnitCompare intFloorDistance fuel
         (g_nodes g) (g_edges g) (g_start g) (g_end g) = Some (Ok (m1, m2))) ∧
    (connected (g_edges g) (g_start g) (g_end g) →
     ∃ n k c, m1 = Finite (Z.of_nat n) ∧
              nsteps (adjacent (g_edges g)) n (g_start g) (g_end g) ∧
              (∀ j, nsteps (adjacent (g_edges g)) j (g_start g) (g_end g) → (n ≤ j)%nat) ∧
              m2 = Finite c ∧ walk (g_edges g) (g_start g) (g_end g) k c) ∧
    (¬ connected (g_edges g) (g_start g) (g_end g) → m1 = Infinity ∧ m2 = Infinity).
Proof.
  apply (X8_ground_truth codeUnitCompare intFloorDistance
           (g_nodes PRESETS.nonAdmissible) (g_edges PRESETS.nonAdmissible)
           (g_start PRESETS.nonAdmissible) (g_end PRESETS.nonAdmissible)).
  - reflexivity.
  - simpl. lia.
Defined.

(** ** What the oracle and the path walk do not guarantee *)

Lemma walk_back_cycle p start a b :
  p !! a = Some b → p !! b = Some a → a ≠ start → b ≠ start →
  ∀ fuel path, walk_back fuel p start (Some a) path = None.
Proof.
  intros Hab Hba Ha Hb fuel. revert a b Hab Hba Ha Hb.
  induction fuel as [|fuel IH]; intros a b Hab Hba Ha Hb path; simpl;
    pose proof Ha as Hne; apply Z.eqb_neq in Hne; rewrite Hne; [done|].
  rewrite Hab. by apply (IH b a).
Qed.

Lemma getPath_cycle ty g s a b :
  ty ≠ BiBFS →
  Snapshot.status s = found →
  Snapshot.parents s !! g_end g = Some a →
  Snapshot.parents s !! a = Some b →
  Snapshot.parents s !! b = Some a →
  g_end g ≠ g_start g → a ≠ g_start g → b ≠ g_start g →
  ∀ fuel, getPath fuel ty g s = None.
Proof.
  intros Hty Hst Hga Hab Hba Hg Ha Hb fuel. unfold getPath.
  rewrite decide_True by done.
  assert (walk_back fuel (Snapshot.parents s) (g_start g) (Some (g_end g)) [] = None)
    as Hwalk.
  { destruct fuel as [|fuel]; simpl; apply Z.eqb_neq in Hg; rewrite Hg; [done|].
    rewrite Hga. by apply (walk_back_cycle _ _ a b). }
  rewrite Hwalk. by destruct ty, (Snapshot.intersect s).
Qed.

(** X9: [trueMinCost] is not always the least cost. On the graph
    S - A - B - G with unit weights and a direct edge S - B of weight 5
    the oracle reports the cost 6, although the walk S, A, B, G weighs 3:
    the Dijkstra run behind it suppresses B, which is already queued at
    cost 5, when A offers it at cost 2. *)
Theorem X9_true_min_cost_overestimates :
  ∃ g c c' n,
    wellformed (search_args g Dijkstra (mkOptions true Euclidean)) = true ∧
    (∀ e, e ∈ g_edges g → 0 < Edge.weight e) ∧
    (∀ fuel, (3 ≤ fuel)%nat →
       getGroundTruth codeUnitCompare intFloorDistance fuel
         (g_nodes g) (g_edges g) (g_start g) (g_end g)
       = Some (Ok (Finite 2, Finite c))) ∧
    walk (g_edges g) (g_start g) (g_end g) n c' ∧
    c' < c.
Proof.
  exists detour, 6, 3, 3%nat. split; [reflexivity|]. split; [|split; [|split; [|lia]]].
  - intros e He. simpl in He. set_solver by lia.
  - intros [|[|[|fuel]]] Hle; [lia..|]. vm_compute. reflexivity.
  - change 3 with (0 + Edge.weight (Edge.mk 1 2 1) + Edge.weight (Edge.mk 2 3 1)
                     + Edge.weight (Edge.mk 3 4 1)).
    eapply (walk_step _ _ 3 4); [eapply (walk_step _ _ 2 3);
      [eapply (walk_step _ _ 1 2); [constructor| |]| |]| |];
      first [by left | set_solver].
Qed.

(** X10: without duplicate suppression the parent links can form a cycle
    that the walk of [getPath] never leaves. On the path S - A - B - E the
    breadth-first run ends [found] with the parents A -> B and B -> A
    (each was pushed again as a neighbour of the other), and from the goal
    the walk [curr = parents[curr]] never reaches the start. *)
Theorem X10_getPath_cycles_without_suppression :
  ∃ g hist s,
    new_GraphSearch codeUnitCompare intFloorDistance
      (search_args g BFS (mkOptions false Euclidean)) = Some (Ok hist) ∧
    last hist = Some s ∧
    Snapshot.status s = found ∧
    ∀ fuel, getPath fuel BFS g s = None.
Proof.
  exists Examples.path4,
    (history_of (Examples.search Examples.path4 BFS (mkOptions false Euclidean))),
    (default (Snapshot.mk [] ∅ ∅ None exploring None None)
       (last (history_of (Examples.search Examples.path4 BFS
                            (mkOptions false Euclidean))))).
  split; [by vm_compute|]. split; [by vm_compute|]. split; [by vm_compute|].
  apply (getPath_cycle BFS Examples.path4 _ 3 2);
    first [done | by vm_compute].
Qed.

(** ** Dijkstra is A* with the zero heuristic *)

Section ZeroHeuristic.
Context (lc : string → string → Z) (fd : Node.t → Node.t → Z).
Context (ns : list Node.t) (es : list Edge.t) (s e : Z) (cd : bool) (ht : HeuristicType).

Let astar := mkGraphSearch ns es s e AStar (mkOptions cd Zero).
Let dijkstra := mkGraphSearch ns es s e Dijkstra (mkOptions cd ht).

Lemma visit_neighbors_zero cur nb st :
  visit_neighbors fd astar cur nb st = visit_neighbors fd dijkstra cur nb st.
Proof.
  revert st. induction nb as [|edge nb IH]; intros st; [done|].
  simpl. destruct (cd && _); [apply IH|]. apply IH.
Qed.

Lemma run_iteration_zero st :
  run_iteration lc fd astar st = run_iteration lc fd dijkstra st.
Proof.
  unfold run_iteration. simpl.
  destruct (iterations st + 1 >? MAX_ITERATIONS); [done|].
  destruct (head _) as [current|]; [|done].
  destruct (cd && _); [done|].
  destruct (Item.id current =? e); [done|].
  change (sorted_neighbors lc astar (adj st) (Item.id current))
    with (sorted_neighbors lc dijkstra (adj st) (Item.id current)).
  destruct (sorted_neighbors lc dijkstra (adj st) (Item.id current)) as [[nb adj']|];
    [|done].
  apply visit_neighbors_zero.
Qed.

Lemma run_loop_zero fuel st :
  run_loop lc fd astar fuel st = run_loop lc fd dijkstra fuel st.
Proof.
  revert st. induction fuel as [|fuel IH]; intros st; simpl; [done|].
  destruct (queue st); [done|]. rewrite run_iteration_zero.
  destruct (run_iteration lc fd dijkstra st); [apply IH|done|done].
Qed.

Lemma new_GraphSearch_zero :
  new_GraphSearch lc fd astar = new_GraphSearch lc fd dijkstra.
Proof.
  unfold new_GraphSearch.
  change (buildAdjacency astar) with (buildAdjacency dijkstra).
  destruct (buildAdjacency dijkstra) as [a|]; [|done].
  unfold run. rewrite !decide_False by done.
  change (startId dijkstra) with (startId astar).
  change (endId dijkstra) with (endId astar).
  destruct (startId astar =? endId astar); [done|]. apply run_loop_zero.
Qed.

End ZeroHeuristic.

(** X11: an A* search with the heuristic type [zero] records the same
    history, snapshot by snapshot, as a Dijkstra search on the same graph
    with the same duplicate suppression, whatever heuristic type the
    Dijkstra search is given; and both throw on the same graphs. *)
Theorem X11_astar_zero_is_dijkstra lc fd ns es s e cd ht :
  new_GraphSearch lc fd (mkGraphSearch ns es s e AStar (mkOptions cd Zero)) =
  new_GraphSearch lc fd (mkGraphSearch ns es s e Dijkstra (mkOptions cd ht)).
Proof. apply new_GraphSearch_zero. Qed.

(** ** The bidirectional search against reachability *)

Lemma joins_sym e a b : joins e a b → joins e b a.
Proof. intros [[??]|[??]]; [by right|by left]. Qed.

Lemma adjacent_sym es a b : adjacent es a b → adjacent es b a.
Proof. intros (e & He & Hj). exists e. split; [done|]. by apply joins_sym. Qed.

Lemma connected_sym es a b : connected es a b → connected es b a.
Proof.
  unfold connected. induction 1 as [|a c b Hac _ IH]; [done|].
  eapply rtc_r; [done|]. by apply adjacent_sym.
Qed.

Lemma connected_closed es (V : gset Z) a b :
  (∀ y n, y ∈ V → adjacent es y n → n ∈ V) →
  a ∈ V → connected es a b → b ∈ V.
Proof.
  intros Hclosed Ha Hab. induction Hab as [|a c b Hac _ IH]; [done|].
  apply IH. by apply (Hclosed a).
Qed.

Section BiReach.
Context (adj : gmap Z (list Adj.t)) (this : GraphSearch).
Hypothesis adj_built : buildAdjacency this = Ok adj.

Lemma expand_side_reach root cs q v p q' v' p' :
  (∀ x, x ∈ v → connected (edges this) root x) →
  cs ∈ v →
  expand_side cs (default [] (adj !! cs)) (q, v, p) = (q', v', p') →
  ∀ x, x ∈ v' → connected (edges this) root x.
Proof.
  intros Hv Hcs (new & _ & -> & _ & Hnew & _)%expand_side_spec x.
  intros [Hx|Hx%elem_of_list_to_set]%elem_of_union; [by apply Hv|].
  apply Hnew in Hx as [Hx _]. eapply rtc_r; [by apply Hv|].
  by apply (buildAdjacency_targets_iff this adj).
Qed.

Lemma final_status_exploring hist :
  Forall (λ s, Snapshot.status s = exploring) hist → hist ≠ [] →
  final_status hist = Some exploring.
Proof.
  intros Hall Hne. unfold final_status.
  destruct (last hist) as [s|] eqn:Hlast.
  - simpl. f_equal. rewrite Forall_forall in Hall. apply Hall.
    rewrite last_lookup in Hlast. by eapply list_elem_of_lookup_2.
  - by apply last_None in Hlast.
Qed.

Lemma bibfs_iteration_reach st :
  bi_inv adj this st ∧ bi_reach this st →
  qStart st ≠ [] → qEnd st ≠ [] →
  match bibfs_iteration adj st with
  | Continue st' => bi_inv adj this st' ∧ bi_reach this st'
  | Return hist => bi_decides this (Ok hist)
  | Raise _ => False
  end.
Proof.
  intros [Hinv (HrS & HrE & _)] HqS HqE.
  pose proof (bibfs_iteration_inv adj this (buildAdjacency_symmetric this adj adj_built)
                st Hinv HqS HqE) as Hstep.
  destruct Hinv as (((_ & HinS & _) & (_ & HinE & _) & _) & _).
  destruct (qStart st) as [|cs qS1] eqn:H1; [done|].
  destruct (qEnd st) as [|ce qE1] eqn:H2; [done|].
  assert (cs ∈ visitedStart st) as HcsS by (apply HinS; by left).
  assert (ce ∈ visitedEnd st) as HceE by (apply HinE; by left).
  destruct (bibfs_iteration_cases adj st cs qS1 ce qE1 H1 H2) as
    [[Hcs Heq]|(Hcs & qS2 & vS2 & pS2 & HeS &
       [[Hce Heq]|(Hce & qE2 & vE2 & pE2 & HeE & Heq)])];
    rewrite Heq in Hstep |- *.
  - intros hist [= <-]. left. unfold final_status. rewrite last_snoc. split; [done|].
    etrans; [by apply HrS|]. by apply connected_sym, HrE.
  - intros hist [= <-]. left. unfold final_status.
    rewrite snoc_two, last_snoc. split; [done|].
    etrans; [by apply (expand_side_reach _ _ _ _ _ _ _ _ HrS HcsS HeS)|].
    by apply connected_sym, HrE.
  - split; [done|]. split; [|split]; simpl.
    + by apply (expand_side_reach _ _ _ _ _ _ _ _ HrS HcsS HeS).
    + by apply (expand_side_reach _ _ _ _ _ _ _ _ HrE HceE HeE).
    + intros [_ [=]]%app_eq_nil.
Qed.

Lemma bibfs_loop_reach fuel st r :
  bi_inv adj this st ∧ bi_reach this st →
  bibfs_loop adj fuel st = Some r → bi_decides this r.
Proof.
  apply (bibfs_loop_rule adj (λ st, bi_inv adj this st ∧ bi_reach this st)
           (bi_decides this)).
  - intros st' [(((_ & _ & HrootS & _ & _ & HclS) & (_ & _ & HrootE & _ & _ & HclE)
                  & HapS & HapE) & _ & _ & Hexpl & _) (_ & _ & Hne)] Hempty
      hist [= <-].
    right. split.
    { apply final_status_exploring; [done|]. intros Hnil.
      destruct (Hne Hnil) as [??]. by destruct Hempty. }
    intros Hconn. destruct Hempty as [Hq|Hq]; rewrite Hq in *.
    + apply (HapS (endId this)); [|by intros ?%elem_of_nil|done].
      apply (connected_closed (edges this) _ (startId this)); [|done|done].
      intros y n Hy Hyn. apply (HclS y Hy); [by intros ?%elem_of_nil|].
      by apply (buildAdjacency_targets_iff this adj).
    + apply (HapE (startId this)); [|by intros ?%elem_of_nil|done].
      apply (connected_closed (edges this) _ (endId this)); [|done|by apply connected_sym].
      intros y n Hy Hyn. apply (HclE y Hy); [by intros ?%elem_of_nil|].
      by apply (buildAdjacency_targets_iff this adj).
  - intros st' Hinv H1 H2. pose proof (bibfs_iteration_reach st' Hinv H1 H2) as H.
    destruct (bibfs_iteration adj st'); done.
Qed.

End BiReach.

(** A bidirectional construction on a graph whose edges join nodes. *)
Lemma bibfs_run_decides lc fd this :
  type this = BiBFS →
  edges_wellformed this = true →
  ∃ hist, new_GraphSearch lc fd this = Some (Ok hist) ∧ bi_decides this (Ok hist).
Proof.
  intros Hty Hes.
  destruct (buildAdjacency_Ok this (edges_wellformed_spec this Hes)) as [a Hb].
  destruct (runBiBFS_returns this a Hb) as [hist Hrun].
  exists hist. unfold new_GraphSearch, run. rewrite Hb, decide_True by done.
  split; [done|]. revert Hrun. unfold runBiBFS.
  apply (bibfs_loop_reach a this Hb). split.
  - apply bi_inv_initial.
  - split; [|split]; simpl.
    + intros x ->%elem_of_singleton. apply rtc_refl.
    + intros x ->%elem_of_singleton. apply rtc_refl.
    + done.
Qed.

(** X12: on a graph whose edges join nodes, a bidirectional search
    returns without error; its history is not empty and ends with a
    [found] snapshot exactly when the goal can be reached from the start;
    when it cannot, the last snapshot is a pop with status [exploring]. *)
Theorem X12_bibfs_decides_reachability lc fd this :
  type this = BiBFS →
  edges_wellformed this = true →
  ∃ hist,
    new_GraphSearch lc fd this = Some (Ok hist) ∧
    hist ≠ [] ∧
    (final_status hist = Some found ↔
     connected (edges this) (startId this) (endId this)) ∧
    (final_status hist = Some exploring ↔
     ¬ connected (edges this) (startId this) (endId this)).
Proof.
  intros Hty Hes.
  destruct (bibfs_run_decides lc fd this Hty Hes) as (hist & Hrun & Hdec).
  exists hist. split; [done|].
  destruct (Hdec hist eq_refl) as [[Hs Hc]|[Hs Hc]]; rewrite Hs.
  - split; [by intros ->|]. split; [done|]. split; [done|]. intros Hn. by destruct Hn.
  - split; [by intros ->|]. split; [|done]. split; [done|]. intros Hn. by destruct Hc.
Qed.

Lemma X12_bibfs_decides_reachability_witness :
  let this := search_args Examples.ping_pong BiBFS (mkOptions true Euclidean) in
  ∃ hist,
    new_GraphSearch codeUnitCompare intFloorDistance this = Some (Ok hist) ∧
    hist ≠ [] ∧
    (final_status hist = Some found ↔
     connected (edges this) (startId this) (endId this)) ∧
    (final_status hist = Some exploring ↔
     ¬ connected (edges this) (startId this) (endId this)).
Proof.
  apply (X12_bibfs_decides_reachability codeUnitCompare intFloorDistance
           (search_args Examples.ping_pong BiBFS (mkOptions true Euclidean))).
  - reflexivity.
  - reflexivity.
Defined.

(** ** The trace of the current node *)

(** The loop of [getCurrentTrace] ends within [nodes.length + 1] passes:
    it extends the trace by a chain of parent links that avoids the
    start, and never beyond [nodes.length + 1] entries. *)
Lemma trace_walk_spec p start N fuel curr trace :
  (length trace ≤ N)%nat →
  (S N - length trace ≤ fuel)%nat →
  ∃ r,
    trace_walk fuel p start N curr trace = Some (trace ++ r) ∧
    (length (trace ++ r) ≤ S N)%nat ∧
    (r = [] ↔ curr = None ∨ curr = Some start) ∧
    (∀ c, curr = Some c → c ≠ start → head r = Some c) ∧
    (∀ j u v, r !! j = Some u → r !! S j = Some v → p !! u = Some v) ∧
    (∀ u, u ∈ r → u ≠ start).
Proof.
  revert curr trace. induction fuel as [|fuel IH]; intros curr trace Hlen Hfuel.
  - lia.
  - destruct curr as [c|]; simpl.
    2:{ exists []. rewrite app_nil_r. split; [done|]. split; [lia|].
        split; [split; [by left|done]|]. split; [done|].
        split; [by intros []|by intros ? ?%elem_of_nil]. }
    destruct (c =? start) eqn:Hc.
    { apply Z.eqb_eq in Hc as ->. exists []. rewrite app_nil_r.
      split; [done|]. split; [lia|]. split; [split; [by right|done]|].
      split; [by intros ? [= ->]|].
      split; [by intros []|by intros ? ?%elem_of_nil]. }
    apply Z.eqb_neq in Hc. rewrite length_app. simpl.
    destruct (N <? length trace + 1)%nat eqn:Hbreak.
    { apply Nat.ltb_lt in Hbreak. exists [c]. split; [done|].
      rewrite length_app. simpl. split; [lia|].
      split; [split; [done|by intros [?|[= ?]]]|]. split; [by intros ? [= ->]|].
      split; [by intros [|[]]|]. by intros u ->%list_elem_of_singleton. }
    apply Nat.ltb_ge in Hbreak.
    destruct (IH (p !! c) (trace ++ [c])) as (r & Hr & Hl & Hnil & Hhd & Hlink & Hns).
    { rewrite length_app. simpl. lia. }
    { rewrite length_app. simpl. lia. }
    exists (c :: r). rewrite <- app_assoc in Hr, Hl. split; [done|]. split; [done|].
    split; [split; [done|by intros [?|[= ?]]]|]. split; [by intros ? [= ->]|]. split.
    + intros [|j] u v; simpl; [|apply Hlink]. intros [= <-] Hv.
      destruct (p !! c) as [y|] eqn:Hpc.
      * destruct (decide (y = start)) as [->|Hy].
        -- rewrite (proj2 Hnil) in Hv by auto. done.
        -- rewrite <- head_lookup, (Hhd y eq_refl Hy) in Hv. done.
      * rewrite (proj2 Hnil) in Hv by auto. done.
    + intros u [->|Hu]%elem_of_cons; [done|by apply Hns].
Qed.

Lemma getCurrentTrace_spec g s fuel :
  (length (g_nodes g) < fuel)%nat →
  ∃ trace,
    getCurrentTrace fuel g s = Some trace ∧
    (length trace ≤ length (g_nodes g) + 2)%nat ∧
    (trace = [] ↔ Snapshot.current s = None ∨ Snapshot.current s = Some 0) ∧
    (trace ≠ [] → last trace = Some (g_start g)) ∧
    (∀ c, Snapshot.current s = Some c → c ≠ 0 → head trace = Some c) ∧
    (∀ j u v, trace !! j = Some u → trace !! S j = Some v →
              (S (S j) < length trace)%nat → Snapshot.parents s !! u = Some v) ∧
    (∀ j u, trace !! j = Some u → (S j < length trace)%nat → u ≠ g_start g).
Proof.
  intros Hfuel. unfold getCurrentTrace.
  destruct (Snapshot.current s) as [c|].
  2:{ exists []. split_and!; try done; [simpl; lia|split; [by left|done]]. }
  destruct (c =? 0) eqn:Hc.
  { apply Z.eqb_eq in Hc as ->. exists [].
    split_and!; try done; [simpl; lia|split; [by right|done]|by intros ? [= <-]]. }
  apply Z.eqb_neq in Hc.
  destruct (trace_walk_spec (Snapshot.parents s) (g_start g) (length (g_nodes g))
              fuel (Some c) []) as (r & Hr & Hl & Hnil & Hhd & Hlink & Hns);
    [simpl; lia|simpl; lia|].
  simpl in Hr, Hl. rewrite Hr. simpl. exists (r ++ [g_start g]).
  split; [done|]. rewrite length_app. simpl. split; [lia|]. split.
  { split; [by intros ?%app_eq_nil%proj2|]. intros [?|[= ?]]; done. }
  split; [by rewrite last_snoc|]. split.
  { intros c' [= <-] _. destruct (decide (c = g_start g)) as [->|Hcs].
    - by rewrite (proj2 Hnil) by auto.
    - rewrite head_app, (Hhd c eq_refl Hcs). done. }
  split.
  - intros j u v Hu Hv Hj. apply (Hlink j).
    + rewrite lookup_app_l in Hu by lia. done.
    + rewrite lookup_app_l in Hv by lia. done.
  - intros j u Hu Hj. rewrite lookup_app_l in Hu by lia.
    apply Hns. by eapply list_elem_of_lookup_2.
Qed.

(** X13: [getCurrentTrace] always ends, within [nodes.length + 1] passes
    of its loop. It returns the empty trace exactly when the snapshot has
    no current node or the current node has id [0]; otherwise a list of at
    most [nodes.length + 2] ids that starts with the current node, ends
    with the start, holds the start nowhere else, and in which every entry
    but the last two is followed by its recorded parent. *)
Theorem X13_getCurrentTrace g s fuel :
  (length (g_nodes g) < fuel)%nat →
  ∃ trace,
    getCurrentTrace fuel g s = Some trace ∧
    (length trace ≤ length (g_nodes g) + 2)%nat ∧
    (trace = [] ↔ Snapshot.current s = None ∨ Snapshot.current s = Some 0) ∧
    (trace ≠ [] → last trace = Some (g_start g)) ∧
    (∀ c, Snapshot.current s = Some c → c ≠ 0 → head trace = Some c) ∧
    (∀ j u v, trace !! j = Some u → trace !! S j = Some v →
              (S (S j) < length trace)%nat → Snapshot.parents s !! u = Some v) ∧
    (∀ j u, trace !! j = Some u → (S j < length trace)%nat → u ≠ g_start g).
Proof. apply getCurrentTrace_spec. Qed.

Lemma X13_getCurrentTrace_witness :
  let g := Examples.path4 in
  let hist := history_of (Examples.search g BFS (mkOptions true Euclidean)) in
  let s := default (Snapshot.mk [] ∅ ∅ None exploring None None) (hist !! 2%nat) in
  ∃ trace,
    getCurrentTrace 5 g s = Some trace ∧
    (length trace ≤ length (g_nodes g) + 2)%nat ∧
    (trace = [] ↔ Snapshot.current s = None ∨ Snapshot.current s = Some 0) ∧
    (trace ≠ [] → last trace = Some (g_start g)) ∧
    (∀ c, Snapshot.current s = Some c → c ≠ 0 → head trace = Some c) ∧
    (∀ j u v, trace !! j = Some u → trace !! S j = Some v →
              (S (S j) < length trace)%nat → Snapshot.parents s !! u = Some v) ∧
    (∀ j u, trace !! j = Some u → (S j < length trace)%nat → u ≠ g_start g).
Proof.
  apply (X13_getCurrentTrace Examples.path4
           (default (Snapshot.mk [] ∅ ∅ None exploring None None)
              (history_of (Examples.search Examples.path4 BFS
                             (mkOptions true Euclidean)) !! 2%nat)) 5).
  simpl. lia.
Defined.

(** ** The optimality indicators *)

Lemma find_edge_sym es u v : find_edge es u v = find_edge es v u.
Proof.
  unfold find_edge. induction es as [|e es IH]; [done|]. simpl.
  rewrite IH.
  by destruct (Edge.source e =? u), (Edge.target e =? v), (Edge.target e =? u),
    (Edge.source e =? v).
Qed.

Lemma currentCost_cons es u v rest :
  currentCost es (u :: v :: rest) =
  match find_edge es u v with Some e => Edge.weight e | None => 0 end
  + currentCost es (v :: rest).
Proof. reflexivity. Qed.

(** On a chain of parents the weighted walk of [getMetrics] adds up the
    cost that the component computes for the path of [getPath]. *)
Lemma metrics_walk_currentCost es p start x n :
  p !! start = None →
  (∀ k v, p !! k = Some v → adjacent es v k) →
  reaches p start x n →
  ∃ chain,
    (∀ fuel path, (n ≤ fuel)%nat →
       walk_back fuel p start (Some x) path = Some (path ++ chain)) ∧
    head (chain ++ [start]) = Some x ∧
    (∃ k, walk es start x k (currentCost es (chain ++ [start]))) ∧
    ∀ fuel count cost, (n ≤ fuel)%nat →
      metrics_walk fuel es p start true x count cost
      = Some (Ok (Finite (cost + currentCost es (chain ++ [start])))).
Proof.
  intros Hroot Hadj.
  induction 1 as [|x y n Hxy _ (chain & Hwalk & Hhd & (k & Hk) & IH)].
  - exists []. split; [|split; [done|split]].
    + intros fuel path _. rewrite app_nil_r. destruct fuel; simpl; by rewrite Z.eqb_refl.
    + exists 0%nat. constructor.
    + intros fuel count cost _. destruct fuel; simpl; rewrite Z.eqb_refl;
        do 3 f_equal; lia.
  - assert (x ≠ start) as Hx by congruence. apply Z.eqb_neq in Hx.
    destruct (find_edge_adjacent es y x (Hadj x y Hxy)) as (e & Hfind & He & Hj).
    assert (currentCost es ((x :: chain) ++ [start]) =
            Edge.weight e + currentCost es (chain ++ [start])) as Hcost.
    { rewrite <- app_comm_cons.
      destruct (chain ++ [start]) as [|y' rest] eqn:Hc; [done|].
      injection Hhd as ->. rewrite currentCost_cons.
      by rewrite find_edge_sym, Hfind. }
    exists (x :: chain). split; [|split; [done|split]].
    + intros [|fuel] path Hle; [lia|]. simpl. rewrite Hx, Hxy.
      rewrite Hwalk by lia. by rewrite <- app_assoc.
    + exists (S k). rewrite Hcost.
      replace (Edge.weight e + currentCost es (chain ++ [start]))
        with (currentCost es (chain ++ [start]) + Edge.weight e) by lia.
      by econstructor.
    + intros [|fuel] count cost Hle; [lia|]. rewrite Hcost. simpl.
      rewrite Hx, Hxy, Hfind. rewrite IH by lia. do 3 f_equal. lia.
Qed.

Lemma dijkstra_ignores_heuristic lc fd ns es s e cd ht ht' :
  new_GraphSearch lc fd (mkGraphSearch ns es s e Dijkstra (mkOptions cd ht)) =
  new_GraphSearch lc fd (mkGraphSearch ns es s e Dijkstra (mkOptions cd ht')).
Proof. by rewrite <- !new_GraphSearch_zero. Qed.

(** The two indicators on the [found] snapshot of a run with duplicate
    suppression. *)
Lemma indicators_spec lc fd this hist s :
  type this ≠ BiBFS →
  checkDuplicates (options this) = true →
  wellformed this = true →
  (length (nodes this) < 999)%nat →
  new_GraphSearch lc fd this = Some (Ok hist) →
  last hist = Some s →
  Snapshot.status s = found →
  ∃ path m1 m2 f0,
    (∀ fuel, (f0 ≤ fuel)%nat →
       getPath fuel (type this) (graph_of this) s = Some path ∧
       getGroundTruth lc fd fuel (nodes this) (edges this) (startId this) (endId this)
       = Some (Ok (m1, m2))) ∧
    (shortest_edges_shown s path m1 = Some true ↔
     ∀ j, nsteps (adjacent (edges this)) j (startId this) (endId this) →
          (length path - 1 ≤ j)%nat) ∧
    (type this = BFS → shortest_edges_shown s path m1 = Some true) ∧
    (type this = Dijkstra → least_cost_shown (graph_of this) s path m2 = Some true).
Proof.
  intros Hty Hcd Hwf Hsmall Hrun Hlast Hst.
  destruct (getPath_on_found lc fd this hist s Hty Hcd Hrun Hlast Hst)
    as (n & path & (Hpath & Hlen & _) & _ & Hwalk & Hbfs).
  destruct (getGroundTruth_spec lc fd (nodes this) (edges this) (startId this)
              (endId this) Hwf Hsmall) as (m1 & m2 & f0 & Hgt & Hconn & _).
  destruct Hconn as (m & k & c & -> & Hm & Hmin & -> & Hc).
  { by eapply rtc_nsteps_2. }
  exists path, (Finite (Z.of_nat m)), (Finite c), (n `max` f0)%nat.
  assert (shortest_edges_shown s path (Finite (Z.of_nat m)) =
          Some (bool_decide (n ≤ m)%nat)) as Hshown.
  { unfold shortest_edges_shown, currentEdges. rewrite decide_True by done.
    rewrite Hlen. simpl. f_equal.
    case_bool_decide; [apply Z.leb_le|apply Z.leb_gt]; lia. }
  split; [|split; [|split]].
  - intros fuel Hle. split; [apply Hpath|apply Hgt]; lia.
  - rewrite Hshown, Hlen. split.
    + intros [= Hle%bool_decide_eq_true] j Hj. specialize (Hmin j Hj). lia.
    + intros Hall. f_equal. apply bool_decide_eq_true. specialize (Hall m Hm). lia.
  - intros Hb. rewrite Hshown. f_equal. apply bool_decide_eq_true. by apply Hbfs.
  - intros Hd. unfold least_cost_shown. rewrite decide_True by done. f_equal.
    simpl. apply Z.leb_le.
    (* the oracle's Dijkstra run is this run *)
    destruct this as [ns es st en ty [cd ht]].
    cbn [nodes edges startId endId type options checkDuplicates graph_of
         g_start g_end g_edges g_nodes] in *.
    subst ty cd.
    destruct (found_snapshot_tree lc fd
                (mkGraphSearch ns es st en Dijkstra (mkOptions true ht))
                hist s Hty eq_refl Hrun Hlast Hst)
      as (Hroot & Hadj & n' & Hn' & _).
    cbn [nodes edges startId endId] in Hroot, Hadj, Hn'.
    destruct (metrics_walk_currentCost es _ st en n' Hroot Hadj Hn')
      as (chain & Hchain & _ & _ & Hcost).
    assert (path = chain ++ [st]) as ->.
    { assert (n ≤ n `max` n')%nat as Hg by (clear; lia).
      assert (n' ≤ n `max` n')%nat as Hg' by (clear; lia).
      specialize (Hpath (n `max` n')%nat Hg). unfold getPath in Hpath.
      rewrite decide_True in Hpath by done.
      simpl in Hpath.
      rewrite (Hchain _ [] Hg') in Hpath. simpl in Hpath.
      destruct (Snapshot.intersect s); by injection Hpath. }
    assert (f0 ≤ f0 `max` n')%nat as Hf by (clear; lia).
    assert (n' ≤ f0 `max` n')%nat as Hf' by (clear; lia).
    specialize (Hgt (f0 `max` n')%nat Hf). unfold getGroundTruth in Hgt.
    rewrite (dijkstra_ignores_heuristic lc fd ns es st en true Euclidean ht) in Hgt.
    rewrite Hrun in Hgt.
    destruct (new_GraphSearch lc fd
                (mkGraphSearch ns es st en BFS (mkOptions true Euclidean)))
      as [[bfs|]|]; [|done|done].
    destruct (getMetrics _ es st en (Snapshot.parents <$> find_found bfs) false)
      as [[?|]|]; [|done|done].
    assert (find_found hist = Some s) as Hff.
    { destruct (suppressed_run_decides lc fd
                  (mkGraphSearch ns es st en Dijkstra (mkOptions true ht)))
        as (pre & t & Hrun' & Hpre & _); [done..|].
      rewrite Hrun in Hrun'. injection Hrun' as ->.
      rewrite last_snoc in Hlast. injection Hlast as ->.
      rewrite find_found_closed by done. by rewrite decide_True. }
    rewrite Hff in Hgt. cbn [fmap option_fmap option_map getMetrics] in Hgt.
    rewrite (Hcost _ 0 0 Hf') in Hgt.
    injection Hgt as _ <-. lia.
Qed.

(** X14: on the [found] snapshot of a BFS/DFS/Dijkstra/A* run with
    duplicate suppression, on a well-formed graph of fewer than 999 nodes,
    the answer shown for "Shortest Path (Edges)?" is Yes exactly when no
    walk from the start to the goal has fewer edges than the displayed
    path; it is always Yes for BFS; and for Dijkstra the answer shown for
    "Least Cost (Weights)?" is always Yes, the oracle's cost being the cost
    of this very run. *)
Theorem X14_indicators lc fd this hist s :
  type this ≠ BiBFS →
  checkDuplicates (options this) = true →
  wellformed this = true →
  (length (nodes this) < 999)%nat →
  new_GraphSearch lc fd this = Some (Ok hist) →
  last hist = Some s →
  Snapshot.status s = found →
  ∃ path m1 m2 f0,
    (∀ fuel, (f0 ≤ fuel)%nat →
       getPath fuel (type this) (graph_of this) s = Some path ∧
       getGroundTruth lc fd fuel (nodes this) (edges this) (startId this) (endId this)
       = Some (Ok (m1, m2))) ∧
    (shortest_edges_shown s path m1 = Some true ↔
     ∀ j, nsteps (adjacent (edges this)) j (startId this) (endId this) →
          (length path - 1 ≤ j)%nat) ∧
    (type this = BFS → shortest_edges_shown s path m1 = Some true) ∧
    (type this = Dijkstra → least_cost_shown (graph_of this) s path m2 = Some true).
Proof. apply indicators_spec. Qed.

Lemma X14_indicators_witness :
  let this := search_args detour Dijkstra (mkOptions true Zero) in
  let hist := history_of (new_GraphSearch codeUnitCompare intFloorDistance this) in
  let s := default (Snapshot.mk [] ∅ ∅ None exploring None None) (last hist) in
  ∃ path m1 m2 f0,
    (∀ fuel, (f0 ≤ fuel)%nat →
       getPath fuel (type this) (graph_of this) s = Some path ∧
       getGroundTruth codeUnitCompare intFloorDistance fuel
         (nodes this) (edges this) (startId this) (endId this)
       = Some (Ok (m1, m2))) ∧
    (shortest_edges_shown s path m1 = Some true ↔
     ∀ j, nsteps (adjacent (edges this)) j (startId this) (endId this) →
          (length path - 1 ≤ j)%nat) ∧
    (type this = BFS → shortest_edges_shown s path m1 = Some true) ∧
    (type this = Dijkstra → least_cost_shown (graph_of this) s path m2 = Some true).
Proof.
  apply (X14_indicators codeUnitCompare intFloorDistance
           (search_args detour Dijkstra (mkOptions true Zero))
           (history_of (new_GraphSearch codeUnitCompare intFloorDistance
              (search_args detour Dijkstra (mkOptions true Zero))))).
  - discriminate.
  - reflexivity.
  - reflexivity.
  - simpl. lia.
  - vm_compute. reflexivity.
  - vm_compute. reflexivity.
  - vm_compute. reflexivity.
Defined.
